(** * Spatial hash grid of the IPC toolkit: broad-phase candidate extraction

    A shallow embedding of [src/spatial_hash/hash_grid.hpp] and
    [src/spatial_hash/hash_grid.cpp], followed by the properties of the
    specification stated and settled on it.

    Conventions of the embedding.
    - [double] is embedded as [Q]: arithmetic is exact, rounding is not
      modelled.  Every concrete scenario below uses dyadic values on which
      the IEEE operations of the source are exact as well.
    - [int] is embedded as [Z] with the two's complement wrap-around of a
      32-bit machine written out ([wrap_int]); [long] is 64 bits wide and
      every value that reaches a [long] here already fits.
    - An [assert] of the source is a precondition: the embedded function
      returns [None] where the assertion fails.
    - [tbb::parallel_for] with thread-local buffers that are merged serially
      is embedded as the sequential loop over the whole range; the buckets
      are sorted before every use, so the merge order is not observable.
    - Eigen coefficient access outside the bounds of a matrix has no meaning
      in the source; the embedding reads a default there.  Likewise the
      conversion to [int] of a [double] outside the range of [int] has no
      meaning in the source; the embedding keeps the integer.  The concrete
      scenarios below stay within bounds and within range.
    - [tbb::parallel_sort] is not stable; the stable insertion sort
      [parallel_sort] stands for it.  The statements use that its result is
      a sorted permutation, and candidates are sorted under a total order,
      which has one sorted arrangement only; a statement on the order of a
      sorted bucket is about buckets in which no two items tie.
    - Where a statement relates a value that the source computes in
      [double] (a box corner, a cell quotient, a cell count) to the exact
      value, it is a statement over exact arithmetic and says so.
    - [std::sqrt] has no counterpart in [Q].  The functions that call it
      ([average_edge_length] and [average_displacement_length] through the
      Euclidean norm, [resize(V0, V1, E, r)] through them, and
      [triangle_area_gradient] of [src/ipc/utils/area_gradient.cpp]) take
      the square root as a parameter; what is proved of them holds for
      every such function. *)

From Stdlib Require Import ZArith QArith Qabs Qround Qminmax List Bool Lia Lqa.
From Stdlib Require Import Permutation Sorted ZifyBool.
Import ListNotations.

Local Open Scope Z_scope.

(** ** Preconditions: a small error monad *)

Definition bind {A B : Type} (m : option A) (f : A -> option B) : option B :=
  match m with
  | Some a => f a
  | None => None
  end.

Notation "x <- m ;; k" := (bind m (fun x => k))
  (at level 61, m at next level, right associativity).
Notation "' p <- m ;; k" := (bind m (fun p => k))
  (at level 61, p pattern, m at next level, right associativity).

(** [assert(b)] *)
Definition precondition (b : bool) : option unit :=
  if b then Some tt else None.

(** ** Machine integers *)

Definition INT_MAX : Z := 2147483647.
Definition INT_MIN : Z := -2147483648.

(** Reduction of an integer to the 32-bit two's complement range. *)
Definition wrap_int (n : Z) : Z := (n + 2147483648) mod 4294967296 - 2147483648.

Definition int_add (a b : Z) : Z := wrap_int (a + b).
Definition int_mul (a b : Z) : Z := wrap_int (a * b).

(** Implicit conversion [long -> int] (constructor and call arguments). *)
Definition int_of_long (n : Z) : Z := wrap_int n.

(** [static_cast<int>(double)]: truncation toward zero.  The conversion is
    defined for values in the range of [int] only; the statements that
    depend on a converted value carry that condition. *)
Definition cast_int (q : Q) : Z := Z.quot (Qnum q) (Zpos (Qden q)).

(** ** Eigen arrays of at most three coefficients *)

Definition ArrayMax3d := list Q.
Definition ArrayMax3i := list Z.
Definition VectorX3d := list Q.
Definition MatrixXd := list (list Q).
Definition MatrixXi := list (list Z).
Definition VectorXi := list Z.

Fixpoint zip_with {A B C : Type} (f : A -> B -> C) (a : list A) (b : list B)
  : list C :=
  match a, b with
  | x :: a', y :: b' => f x y :: zip_with f a' b'
  | _, _ => []
  end.

(** [(a op b).all()] *)
Definition all2 {A B : Type} (f : A -> B -> bool) (a : list A) (b : list B)
  : bool :=
  forallb (fun t => t) (zip_with f a b).

Definition coeffd (a : ArrayMax3d) (i : nat) : Q := nth i a 0%Q.
Definition coeffi (a : ArrayMax3i) (i : nat) : Z := nth i a 0.

(** [M(i, j)] and [M.row(i)] *)
Definition at2 (M : MatrixXi) (i j : Z) : Z :=
  nth (Z.to_nat j) (nth (Z.to_nat i) M []) 0.
Definition row (M : MatrixXd) (i : Z) : VectorX3d := nth (Z.to_nat i) M [].
Definition at1 (v : VectorXi) (i : Z) : Z := nth (Z.to_nat i) v 0.
Definition rows {A : Type} (M : list (list A)) : Z := Z.of_nat (length M).
Definition cols {A : Type} (M : list (list A)) : Z :=
  match M with
  | [] => 0
  | r :: _ => Z.of_nat (length r)
  end.

Definition cwiseMin (a b : list Q) : list Q := zip_with Qmin a b.
Definition cwiseMax (a b : list Q) : list Q := zip_with Qmax a b.
Definition sub_scalar (a : list Q) (r : Q) : list Q := map (fun c => c - r)%Q a.
Definition add_scalar (a : list Q) (r : Q) : list Q := map (fun c => c + r)%Q a.

(** ** AABB *)

Record AABB : Type := mkAABB {
  getMin : ArrayMax3d;
  getMax : ArrayMax3d;
  getHalfExtent : ArrayMax3d;
  getCenter : ArrayMax3d
}.

(** [AABB::AABB(min, max)] *)
Definition AABB_ctor (min max : ArrayMax3d) : option AABB :=
  _ <- precondition (length min =? length max)%nat ;;
  _ <- precondition (all2 Qle_bool min max) ;;
  let half_extent := map (fun d => d / 2)%Q (zip_with Qminus max min) in
  let center := zip_with Qplus min half_extent in
  Some (mkAABB min max half_extent center).

(** [AABB::AABB(aabb1, aabb2)] *)
Definition AABB_merge (aabb1 aabb2 : AABB) : option AABB :=
  AABB_ctor (cwiseMin (getMin aabb1) (getMin aabb2))
            (cwiseMax (getMax aabb1) (getMax aabb2)).

(** [AABB::AABB(aabb1, aabb2, aabb3)] *)
Definition AABB_merge3 (aabb1 aabb2 aabb3 : AABB) : option AABB :=
  AABB_ctor (cwiseMin (cwiseMin (getMin aabb1) (getMin aabb2)) (getMin aabb3))
            (cwiseMax (cwiseMax (getMax aabb1) (getMax aabb2)) (getMax aabb3)).

(** [AABB::are_overlapping] *)
Definition are_overlapping (a b : AABB) : option bool :=
  _ <- precondition (length (getMin a) =? length (getMin b))%nat ;;
  Some
    (Qle_bool (Qabs (coeffd (getCenter a) 0 - coeffd (getCenter b) 0))
              (coeffd (getHalfExtent a) 0 + coeffd (getHalfExtent b) 0)
     && Qle_bool (Qabs (coeffd (getCenter a) 1 - coeffd (getCenter b) 1))
                 (coeffd (getHalfExtent a) 1 + coeffd (getHalfExtent b) 1)
     && ((length (getMin a) =? 2)%nat
         || Qle_bool (Qabs (coeffd (getCenter a) 2 - coeffd (getCenter b) 2))
                     (coeffd (getHalfExtent a) 2 + coeffd (getHalfExtent b) 2))).

(** ** HashItem *)

Record HashItem : Type := mkHashItem {
  key : Z;
  id : Z;
  aabb : AABB
}.

(** [HashItem::HashItem(int key, int id, const AABB&)] called with a [long]
    key: the argument is narrowed to [int]. *)
Definition HashItem_ctor (key : Z) (id : Z) (box : AABB) : HashItem :=
  mkHashItem (int_of_long key) id box.

(** [HashItem::operator<] *)
Definition HashItem_ltb (a b : HashItem) : bool :=
  if key a =? key b then id a <? id b else key a <? key b.

(** ** HashGrid *)

Record HashGrid : Type := mkHashGrid {
  m_cellSize : Q;
  m_gridSize : ArrayMax3i;
  m_domainMin : ArrayMax3d;
  m_domainMax : ArrayMax3d;
  m_vertexItems : list HashItem;
  m_edgeItems : list HashItem;
  m_faceItems : list HashItem
}.

Definition set_vertexItems (g : HashGrid) (items : list HashItem) : HashGrid :=
  mkHashGrid (m_cellSize g) (m_gridSize g) (m_domainMin g) (m_domainMax g)
             items (m_edgeItems g) (m_faceItems g).
Definition set_edgeItems (g : HashGrid) (items : list HashItem) : HashGrid :=
  mkHashGrid (m_cellSize g) (m_gridSize g) (m_domainMin g) (m_domainMax g)
             (m_vertexItems g) items (m_faceItems g).
Definition set_faceItems (g : HashGrid) (items : list HashItem) : HashGrid :=
  mkHashGrid (m_cellSize g) (m_gridSize g) (m_domainMin g) (m_domainMax g)
             (m_vertexItems g) (m_edgeItems g) items.

(** A default-constructed grid: no domain, empty buckets. *)
Definition empty_grid : HashGrid := mkHashGrid 0%Q [] [] [] [] [] [].

(** [HashGrid::clear] *)
Definition clear (g : HashGrid) : HashGrid :=
  mkHashGrid (m_cellSize g) (m_gridSize g) (m_domainMin g) (m_domainMax g)
             [] [] [].

(** [HashGrid::resize(min, max, cellSize)] *)
Definition resize (g : HashGrid) (min max : ArrayMax3d) (cellSize : Q)
  : option HashGrid :=
  let g := clear g in
  _ <- precondition (negb (Qeq_bool cellSize 0)) ;;
  let gridSize :=
    map (fun c => Z.max (cast_int (inject_Z (Qceiling c))) 1)
        (map (fun d => d / cellSize)%Q (zip_with Qminus max min)) in
  Some (mkHashGrid cellSize gridSize min max
                   (m_vertexItems g) (m_edgeItems g) (m_faceItems g)).

(** [HashGrid::hash]: the operands are [int], so the arithmetic is carried
    out in [int]; the result is then widened to the [long] return type. *)
Definition hash (g : HashGrid) (x y z : Z) : option Z :=
  let gs := m_gridSize g in
  _ <- precondition ((0 <=? x) && (0 <=? y) && (0 <=? z)) ;;
  _ <- precondition ((x <? coeffi gs 0) && (y <? coeffi gs 1)
                     && ((length gs =? 2)%nat || (z <? coeffi gs 2))) ;;
  Some (int_add (int_mul (int_add (int_mul z (coeffi gs 1)) y) (coeffi gs 0)) x).

(** Sequential loops: [for (int x = lo; x <= hi; ++x) body]. *)
Fixpoint for_count {S : Type} (n : nat) (x : Z) (body : Z -> S -> option S)
  (s : S) : option S :=
  match n with
  | O => Some s
  | S n' => s' <- body x s ;; for_count n' (x + 1) body s'
  end.

Definition for_incl {S : Type} (lo hi : Z) (body : Z -> S -> option S) (s : S)
  : option S :=
  for_count (Z.to_nat (hi + 1 - lo)) lo body s.

(** [for (i = 0; i < n; i++) body] *)
Definition for_upto {S : Type} (n : Z) (body : Z -> S -> option S) (s : S)
  : option S :=
  for_count (Z.to_nat n) 0 body s.

(** The cell index of a coordinate before clamping:
    [((c - m_domainMin) / m_cellSize).cast<int>()]. *)
Definition cell_of (g : HashGrid) (c : ArrayMax3d) : ArrayMax3i :=
  map cast_int
      (map (fun d => d / m_cellSize g)%Q (zip_with Qminus c (m_domainMin g))).

(** [a.max(0).min(m_gridSize - 1)] *)
Definition clamp_cell (g : HashGrid) (a : ArrayMax3i) : ArrayMax3i :=
  zip_with Z.min (map (fun c => Z.max c 0) a)
           (map (fun n => n - 1) (m_gridSize g)).

(** [HashGrid::addElement] *)
Definition addElement (g : HashGrid) (box : AABB) (id : Z)
  (items : list HashItem) : option (list HashItem) :=
  let int_min := cell_of g (getMin box) in
  _ <- precondition (forallb (fun c => -1 <=? c) int_min) ;;
  _ <- precondition (all2 Z.leb int_min (m_gridSize g)) ;;
  let int_min := clamp_cell g int_min in
  let int_max := cell_of g (getMax box) in
  _ <- precondition (forallb (fun c => -1 <=? c) int_max) ;;
  _ <- precondition (all2 Z.leb int_max (m_gridSize g)) ;;
  let int_max := clamp_cell g int_max in
  _ <- precondition (all2 Z.leb int_min int_max) ;;
  let min_z := if (length int_min =? 3)%nat then coeffi int_min 2 else 0 in
  let max_z := if (length int_max =? 3)%nat then coeffi int_max 2 else 0 in
  for_incl (coeffi int_min 0) (coeffi int_max 0) (fun x =>
    for_incl (coeffi int_min 1) (coeffi int_max 1) (fun y =>
      for_incl min_z max_z (fun z items =>
        k <- hash g x y z ;;
        Some (items ++ [HashItem_ctor k id box])))) items.

(** [calculate_vertex_extents] *)
Definition calculate_vertex_extents (vertex_t0 vertex_t1 : VectorX3d)
  : ArrayMax3d * ArrayMax3d :=
  (cwiseMin vertex_t0 vertex_t1, cwiseMax vertex_t0 vertex_t1).

(** [calculate_edge_extents] *)
Definition calculate_edge_extents
  (edge_vertex0_t0 edge_vertex1_t0 edge_vertex0_t1 edge_vertex1_t1 : VectorX3d)
  : ArrayMax3d * ArrayMax3d :=
  (cwiseMin (cwiseMin (cwiseMin edge_vertex0_t0 edge_vertex1_t0)
                      edge_vertex0_t1) edge_vertex1_t1,
   cwiseMax (cwiseMax (cwiseMax edge_vertex0_t0 edge_vertex1_t0)
                      edge_vertex0_t1) edge_vertex1_t1).

(** [calculate_face_extents] *)
Definition calculate_face_extents
  (face_vertex0_t0 face_vertex1_t0 face_vertex2_t0
   face_vertex0_t1 face_vertex1_t1 face_vertex2_t1 : VectorX3d)
  : ArrayMax3d * ArrayMax3d :=
  (cwiseMin (cwiseMin (cwiseMin (cwiseMin (cwiseMin
     face_vertex0_t0 face_vertex1_t0) face_vertex2_t0)
     face_vertex0_t1) face_vertex1_t1) face_vertex2_t1,
   cwiseMax (cwiseMax (cwiseMax (cwiseMax (cwiseMax
     face_vertex0_t0 face_vertex1_t0) face_vertex2_t0)
     face_vertex0_t1) face_vertex1_t1) face_vertex2_t1).

(** The swept box of an element: its extents inflated by the radius. *)
Definition inflated_box (extents : ArrayMax3d * ArrayMax3d)
  (inflation_radius : Q) : option AABB :=
  AABB_ctor (sub_scalar (fst extents) inflation_radius)
            (add_scalar (snd extents) inflation_radius).

(** [HashGrid::addVertex(..., std::vector<HashItem>& vertex_items, r) const];
    the [long] index is narrowed to the [int] id of [addElement]. *)
Definition addVertex_into (g : HashGrid) (vertex_t0 vertex_t1 : VectorX3d)
  (index : Z) (vertex_items : list HashItem) (inflation_radius : Q)
  : option (list HashItem) :=
  box <- inflated_box (calculate_vertex_extents vertex_t0 vertex_t1)
                      inflation_radius ;;
  addElement g box (int_of_long index) vertex_items.

(** [HashGrid::addEdge(..., std::vector<HashItem>& edge_items, r) const] *)
Definition addEdge_into (g : HashGrid)
  (edge_vertex0_t0 edge_vertex1_t0 edge_vertex0_t1 edge_vertex1_t1 : VectorX3d)
  (index : Z) (edge_items : list HashItem) (inflation_radius : Q)
  : option (list HashItem) :=
  box <- inflated_box (calculate_edge_extents edge_vertex0_t0 edge_vertex1_t0
                         edge_vertex0_t1 edge_vertex1_t1) inflation_radius ;;
  addElement g box (int_of_long index) edge_items.

(** [HashGrid::addFace(..., std::vector<HashItem>& face_items, r) const] *)
Definition addFace_into (g : HashGrid)
  (face_vertex0_t0 face_vertex1_t0 face_vertex2_t0
   face_vertex0_t1 face_vertex1_t1 face_vertex2_t1 : VectorX3d)
  (index : Z) (face_items : list HashItem) (inflation_radius : Q)
  : option (list HashItem) :=
  box <- inflated_box (calculate_face_extents
                         face_vertex0_t0 face_vertex1_t0 face_vertex2_t0
                         face_vertex0_t1 face_vertex1_t1 face_vertex2_t1)
                      inflation_radius ;;
  addElement g box (int_of_long index) face_items.

(** The public overloads append to the grid's own bucket. *)
Definition addVertex (g : HashGrid) (vertex_t0 vertex_t1 : VectorX3d)
  (index : Z) (inflation_radius : Q) : option HashGrid :=
  items <- addVertex_into g vertex_t0 vertex_t1 index (m_vertexItems g)
                          inflation_radius ;;
  Some (set_vertexItems g items).

Definition addEdge (g : HashGrid)
  (edge_vertex0_t0 edge_vertex1_t0 edge_vertex0_t1 edge_vertex1_t1 : VectorX3d)
  (index : Z) (inflation_radius : Q) : option HashGrid :=
  items <- addEdge_into g edge_vertex0_t0 edge_vertex1_t0 edge_vertex0_t1
                        edge_vertex1_t1 index (m_edgeItems g)
                        inflation_radius ;;
  Some (set_edgeItems g items).

Definition addFace (g : HashGrid)
  (face_vertex0_t0 face_vertex1_t0 face_vertex2_t0
   face_vertex0_t1 face_vertex1_t1 face_vertex2_t1 : VectorX3d)
  (index : Z) (inflation_radius : Q) : option HashGrid :=
  items <- addFace_into g face_vertex0_t0 face_vertex1_t0 face_vertex2_t0
                        face_vertex0_t1 face_vertex1_t1 face_vertex2_t1
                        index (m_faceItems g) inflation_radius ;;
  Some (set_faceItems g items).

(** [merge_local_items] with the single buffer of a sequential run. *)
Definition merge_local_items (local_items items : list HashItem)
  : list HashItem :=
  items ++ local_items.

(** [HashGrid::addVertices] *)
Definition addVertices (g : HashGrid) (vertices_t0 vertices_t1 : MatrixXd)
  (inflation_radius : Q) : option HashGrid :=
  _ <- precondition (rows vertices_t0 =? rows vertices_t1) ;;
  local_items <-
    for_upto (rows vertices_t0) (fun i local_items =>
      addVertex_into g (row vertices_t0 i) (row vertices_t1 i) i local_items
                     inflation_radius) [] ;;
  Some (set_vertexItems g (merge_local_items local_items (m_vertexItems g))).

(** [HashGrid::addEdges] *)
Definition addEdges (g : HashGrid) (vertices_t0 vertices_t1 : MatrixXd)
  (edges : MatrixXi) (inflation_radius : Q) : option HashGrid :=
  _ <- precondition (rows vertices_t0 =? rows vertices_t1) ;;
  local_items <-
    for_upto (rows edges) (fun i local_items =>
      addEdge_into g
        (row vertices_t0 (at2 edges i 0)) (row vertices_t0 (at2 edges i 1))
        (row vertices_t1 (at2 edges i 0)) (row vertices_t1 (at2 edges i 1))
        i local_items inflation_radius) [] ;;
  Some (set_edgeItems g (merge_local_items local_items (m_edgeItems g))).


(** [std::vector<size_t>] written by index; an index outside the vector has
    no meaning in the source and leaves the embedded vector unchanged. *)
Fixpoint set_nth {A : Type} (i : nat) (v : A) (l : list A) : list A :=
  match l, i with
  | [], _ => []
  | _ :: t, O => v :: t
  | x :: t, S i' => x :: set_nth i' v t
  end.

Fixpoint iter_count {S : Type} (n : nat) (x : Z) (body : Z -> S -> S) (s : S)
  : S :=
  match n with
  | O => s
  | S n' => iter_count n' (x + 1) body (body x s)
  end.

(** The serial pass of [addVerticesFromEdges]: column first, then row. *)
Definition vertex_to_min_edge (num_vertices : Z) (edges : MatrixXi) : list Z :=
  iter_count (Z.to_nat (cols edges)) 0 (fun ej =>
    iter_count (Z.to_nat (rows edges)) 0 (fun ei vtme =>
      let vi := at2 edges ei ej in
      set_nth (Z.to_nat vi) (Z.min (at1 vtme vi) ei) vtme))
    (repeat (rows edges + 1) (Z.to_nat num_vertices)).

(** The second pass of [addVerticesFromEdges], over the action [visit] taken
    on a selected vertex: row first, then column. *)
Definition for_each_min_edge_vertex {S : Type} (edges : MatrixXi)
  (vtme : list Z) (visit : Z -> S -> option S) : S -> option S :=
  for_upto (rows edges) (fun ei =>
    for_upto (cols edges) (fun ej s =>
      let vi := at2 edges ei ej in
      if at1 vtme vi =? ei then visit vi s else Some s)).

(** [HashGrid::addVerticesFromEdges] *)
Definition addVerticesFromEdges (g : HashGrid) (vertices_t0 vertices_t1 : MatrixXd)
  (edges : MatrixXi) (inflation_radius : Q) : option HashGrid :=
  _ <- precondition (rows vertices_t0 =? rows vertices_t1) ;;
  let vtme := vertex_to_min_edge (rows vertices_t0) edges in
  local_items <-
    for_each_min_edge_vertex edges vtme (fun vi local_items =>
      addVertex_into g (row vertices_t0 vi) (row vertices_t1 vi) vi
                     local_items inflation_radius) [] ;;
  Some (set_vertexItems g (merge_local_items local_items (m_vertexItems g))).

(** The sequence of vertex indices on which [addVerticesFromEdges] calls
    [addVertex]: the same loop with the call replaced by a record of its
    index argument. *)
Definition addVertex_calls (vertices_t0 : MatrixXd) (edges : MatrixXi)
  : option (list Z) :=
  for_each_min_edge_vertex edges
    (vertex_to_min_edge (rows vertices_t0) edges)
    (fun vi calls => Some (calls ++ [vi])) [].

(** ** Sorting and de-duplication *)

Section Sorting.
Context {A : Type}.
Variable ltb : A -> A -> bool.
Variable eqb : A -> A -> bool.

Fixpoint insert_sorted (x : A) (l : list A) : list A :=
  match l with
  | [] => [x]
  | y :: t => if ltb y x then y :: insert_sorted x t else x :: y :: t
  end.

(** [tbb::parallel_sort(first, last)] under [operator<].  The order in
    which the sort of the source leaves items that tie is not specified;
    the statements use that the result is a sorted permutation, or are
    about vectors without ties. *)
Definition parallel_sort (l : list A) : list A :=
  fold_right insert_sorted [] l.

Fixpoint unique_from (prev : A) (l : list A) : list A :=
  match l with
  | [] => []
  | y :: t => if eqb prev y then unique_from prev t
              else y :: unique_from y t
  end.

(** [std::unique] under [operator==] followed by [erase] of the tail: of
    every run of equal neighbours the first element is kept. *)
Definition unique_erase (l : list A) : list A :=
  match l with
  | [] => []
  | x :: t => x :: unique_from x t
  end.
End Sorting.

(** ** Candidates *)

(** What [getPairs<T>] uses of the element type of its output vector:
    construction from two ids by [emplace_back], [operator<] for the sort
    and [operator==] for [std::unique]; [index0] and [index1] read the two
    ids back. *)
Class CandidateType (T : Type) : Type := {
  emplace : Z -> Z -> T;
  index0 : T -> Z;
  index1 : T -> Z;
  cand_ltb : T -> T -> bool;
  cand_eqb : T -> T -> bool
}.

(** Lexicographic comparison of two index pairs. *)
Definition lex_ltb (a0 a1 b0 b1 : Z) : bool :=
  if a0 =? b0 then a1 <? b1 else a0 <? b0.
Definition lex_eqb (a0 a1 b0 b1 : Z) : bool :=
  (a0 =? b0) && (a1 =? b1).

(** Modelled from the spec: [collision_candidate.hpp] is missing from the
    sources.  A candidate is the tuple [(id_left, id_right)] whose meaning is
    fixed by the query kind (edge-vertex: edge id, vertex id), and candidate
    lists are totally ordered; the order taken is the lexicographic one. *)
Record EdgeVertexCandidate : Type := mkEdgeVertexCandidate {
  ev_edge_index : Z;
  ev_vertex_index : Z
}.

(** Modelled from the spec: the edge-edge tuple [(edge_i, edge_j)]. *)
Record EdgeEdgeCandidate : Type := mkEdgeEdgeCandidate {
  ee_edge0_index : Z;
  ee_edge1_index : Z
}.

(** Modelled from the spec: the edge-face tuple [(edge_id, face_id)]. *)
Record EdgeFaceCandidate : Type := mkEdgeFaceCandidate {
  ef_edge_index : Z;
  ef_face_index : Z
}.

(** Modelled from the spec: the face-vertex tuple [(face_id, vertex_id)]. *)
Record FaceVertexCandidate : Type := mkFaceVertexCandidate {
  fv_face_index : Z;
  fv_vertex_index : Z
}.

#[export] Instance EdgeVertexCandidate_type : CandidateType EdgeVertexCandidate := {
  emplace := mkEdgeVertexCandidate;
  index0 := ev_edge_index;
  index1 := ev_vertex_index;
  cand_ltb a b := lex_ltb (ev_edge_index a) (ev_vertex_index a)
                          (ev_edge_index b) (ev_vertex_index b);
  cand_eqb a b := lex_eqb (ev_edge_index a) (ev_vertex_index a)
                          (ev_edge_index b) (ev_vertex_index b)
}.

#[export] Instance EdgeEdgeCandidate_type : CandidateType EdgeEdgeCandidate := {
  emplace := mkEdgeEdgeCandidate;
  index0 := ee_edge0_index;
  index1 := ee_edge1_index;
  cand_ltb a b := lex_ltb (ee_edge0_index a) (ee_edge1_index a)
                          (ee_edge0_index b) (ee_edge1_index b);
  cand_eqb a b := lex_eqb (ee_edge0_index a) (ee_edge1_index a)
                          (ee_edge0_index b) (ee_edge1_index b)
}.

#[export] Instance EdgeFaceCandidate_type : CandidateType EdgeFaceCandidate := {
  emplace := mkEdgeFaceCandidate;
  index0 := ef_edge_index;
  index1 := ef_face_index;
  cand_ltb a b := lex_ltb (ef_edge_index a) (ef_face_index a)
                          (ef_edge_index b) (ef_face_index b);
  cand_eqb a b := lex_eqb (ef_edge_index a) (ef_face_index a)
                          (ef_edge_index b) (ef_face_index b)
}.

#[export] Instance FaceVertexCandidate_type : CandidateType FaceVertexCandidate := {
  emplace := mkFaceVertexCandidate;
  index0 := fv_face_index;
  index1 := fv_vertex_index;
  cand_ltb a b := lex_ltb (fv_face_index a) (fv_vertex_index a)
                          (fv_face_index b) (fv_vertex_index b);
  cand_eqb a b := lex_eqb (fv_face_index a) (fv_vertex_index a)
                          (fv_face_index b) (fv_vertex_index b)
}.

(** ** The pair extractor *)

Section GetPairs.
Context {T : Type} `{CandidateType T}.
Variable is_endpoint : Z -> Z -> bool.
Variable is_same_group : Z -> Z -> bool.

(** The body run on two items of equal key: the three tests, in the
    order of the short-circuit conjunction, and the [emplace_back]. *)
Definition test_pair (item0 item1 : HashItem) (candidates : list T)
  : option (list T) :=
  if negb (is_endpoint (id item0) (id item1))
     && negb (is_same_group (id item0) (id item1))
  then
    overlapping <- are_overlapping (aabb item0) (aabb item1) ;;
    Some (if overlapping
          then candidates ++ [emplace (id item0) (id item1)]
          else candidates)
  else Some candidates.

(** The inner [while (j < items1.size())] of the two-bucket join.
    [from_j] is [items1] from position [j] on; the result carries the
    position at which the loop is left. *)
Fixpoint scan_run (item0 : HashItem) (from_j : list HashItem)
  (candidates : list T) : option (list HashItem * list T) :=
  match from_j with
  | [] => Some ([], candidates)
  | item1 :: rest =>
      if key item0 =? key item1
      then candidates' <- test_pair item0 item1 candidates ;;
           scan_run item0 rest candidates'
      else Some (from_j, candidates)
  end.

(** The outer [while (i < items0.size() && j_start < items1.size())].
    [from_i] is [items0] from position [i] on and [from_j_start] is
    [items1] from position [j_start] on. *)
Fixpoint scan_buckets (from_i from_j_start : list HashItem)
  (candidates : list T) : option (list T) :=
  match from_i, from_j_start with
  | [], _ => Some candidates
  | _, [] => Some candidates
  | item0 :: next_i, _ =>
      '(from_j, candidates') <- scan_run item0 from_j_start candidates ;;
      let from_j_start' :=
        match next_i with
        | [] => from_j
        | item_next :: _ =>
            if negb (key item0 =? key item_next) then from_j
            else from_j_start
        end in
      scan_buckets next_i from_j_start' candidates'
  end.

(** [getPairs(is_endpoint, is_same_group, items0, items1, candidates)]:
    both buckets are sorted in place and are part of the result. *)
Definition getPairs (items0 items1 : list HashItem) (candidates : list T)
  : option (list HashItem * list HashItem * list T) :=
  let items0 := parallel_sort HashItem_ltb items0 in
  let items1 := parallel_sort HashItem_ltb items1 in
  candidates <- scan_buckets items0 items1 candidates ;;
  let candidates := parallel_sort cand_ltb candidates in
  Some (items0, items1, unique_erase cand_eqb candidates).

(** The inner [for (int j = i + 1; j < items.size(); j++)] of the
    self-join; [after_i] is [items] from position [i + 1] on. *)
Fixpoint self_run (item0 : HashItem) (after_i : list HashItem)
  (candidates : list T) : option (list T) :=
  match after_i with
  | [] => Some candidates
  | item1 :: rest =>
      if key item0 =? key item1
      then candidates' <- test_pair item0 item1 candidates ;;
           self_run item0 rest candidates'
      else Some candidates
  end.

(** The outer [for (int i = 0; i < items.size(); i++)]. *)
Fixpoint self_scan (from_i : list HashItem) (candidates : list T)
  : option (list T) :=
  match from_i with
  | [] => Some candidates
  | item0 :: after_i =>
      candidates' <- self_run item0 after_i candidates ;;
      self_scan after_i candidates'
  end.

(** [getPairs(is_endpoint, is_same_group, items, candidates)] *)
Definition getPairs_self (items : list HashItem) (candidates : list T)
  : option (list HashItem * list T) :=
  let items := parallel_sort HashItem_ltb items in
  candidates <- self_scan items candidates ;;
  let candidates := parallel_sort cand_ltb candidates in
  Some (items, unique_erase cand_eqb candidates).
End GetPairs.

(** ** The four queries *)

(** [group_ids.size() > 0] *)
Definition check_groups (group_ids : VectorXi) : bool :=
  0 <? Z.of_nat (length group_ids).

(** The closures of [getVertexEdgePairs]. *)
Definition ev_is_endpoint (edges : MatrixXi) (ei vi : Z) : bool :=
  (at2 edges ei 0 =? vi) || (at2 edges ei 1 =? vi).

Definition ev_is_same_group (edges : MatrixXi) (group_ids : VectorXi)
  (ei vi : Z) : bool :=
  check_groups group_ids
  && ((at1 group_ids vi =? at1 group_ids (at2 edges ei 0))
      || (at1 group_ids vi =? at1 group_ids (at2 edges ei 1))).

(** [HashGrid::getVertexEdgePairs] *)
Definition getVertexEdgePairs (g : HashGrid) (edges : MatrixXi)
  (group_ids : VectorXi) (ev_candidates : list EdgeVertexCandidate)
  : option (HashGrid * list EdgeVertexCandidate) :=
  '(edgeItems, vertexItems, ev_candidates') <-
    getPairs (ev_is_endpoint edges) (ev_is_same_group edges group_ids)
             (m_edgeItems g) (m_vertexItems g) ev_candidates ;;
  Some (set_vertexItems (set_edgeItems g edgeItems) vertexItems,
        ev_candidates').

(** The closures of [getEdgeEdgePairs]. *)
Definition ee_is_endpoint (edges : MatrixXi) (ei ej : Z) : bool :=
  (at2 edges ei 0 =? at2 edges ej 0) || (at2 edges ei 0 =? at2 edges ej 1)
  || (at2 edges ei 1 =? at2 edges ej 0) || (at2 edges ei 1 =? at2 edges ej 1).

Definition ee_is_same_group (edges : MatrixXi) (group_ids : VectorXi)
  (ei ej : Z) : bool :=
  check_groups group_ids
  && ((at1 group_ids (at2 edges ei 0) =? at1 group_ids (at2 edges ej 0))
      || (at1 group_ids (at2 edges ei 0) =? at1 group_ids (at2 edges ej 1))
      || (at1 group_ids (at2 edges ei 1) =? at1 group_ids (at2 edges ej 0))
      || (at1 group_ids (at2 edges ei 1) =? at1 group_ids (at2 edges ej 1))).

(** [HashGrid::getEdgeEdgePairs] *)
Definition getEdgeEdgePairs (g : HashGrid) (edges : MatrixXi)
  (group_ids : VectorXi) (ee_candidates : list EdgeEdgeCandidate)
  : option (HashGrid * list EdgeEdgeCandidate) :=
  '(edgeItems, ee_candidates') <-
    getPairs_self (ee_is_endpoint edges) (ee_is_same_group edges group_ids)
                  (m_edgeItems g) ee_candidates ;;
  Some (set_edgeItems g edgeItems, ee_candidates').

(** The closures of [getEdgeFacePairs]. *)
Definition ef_is_endpoint (edges faces : MatrixXi) (ei fi : Z) : bool :=
  (at2 edges ei 0 =? at2 faces fi 0) || (at2 edges ei 0 =? at2 faces fi 1)
  || (at2 edges ei 0 =? at2 faces fi 2) || (at2 edges ei 1 =? at2 faces fi 0)
  || (at2 edges ei 1 =? at2 faces fi 1) || (at2 edges ei 1 =? at2 faces fi 2).

Definition ef_is_same_group (edges faces : MatrixXi) (group_ids : VectorXi)
  (ei fi : Z) : bool :=
  check_groups group_ids
  && ((at1 group_ids (at2 edges ei 0) =? at1 group_ids (at2 faces fi 0))
      || (at1 group_ids (at2 edges ei 0) =? at1 group_ids (at2 faces fi 1))
      || (at1 group_ids (at2 edges ei 0) =? at1 group_ids (at2 faces fi 2))
      || (at1 group_ids (at2 edges ei 1) =? at1 group_ids (at2 faces fi 0))
      || (at1 group_ids (at2 edges ei 1) =? at1 group_ids (at2 faces fi 1))
      || (at1 group_ids (at2 edges ei 1) =? at1 group_ids (at2 faces fi 2))).

(** [HashGrid::getEdgeFacePairs] *)
Definition getEdgeFacePairs (g : HashGrid) (edges faces : MatrixXi)
  (group_ids : VectorXi) (ef_candidates : list EdgeFaceCandidate)
  : option (HashGrid * list EdgeFaceCandidate) :=
  '(edgeItems, faceItems, ef_candidates') <-
    getPairs (ef_is_endpoint edges faces)
             (ef_is_same_group edges faces group_ids)
             (m_edgeItems g) (m_faceItems g) ef_candidates ;;
  Some (set_faceItems (set_edgeItems g edgeItems) faceItems, ef_candidates').

(** The closures of [getFaceVertexPairs]. *)
Definition fv_is_endpoint (faces : MatrixXi) (fi vi : Z) : bool :=
  (vi =? at2 faces fi 0) || (vi =? at2 faces fi 1) || (vi =? at2 faces fi 2).

Definition fv_is_same_group (faces : MatrixXi) (group_ids : VectorXi)
  (fi vi : Z) : bool :=
  check_groups group_ids
  && ((at1 group_ids vi =? at1 group_ids (at2 faces fi 0))
      || (at1 group_ids vi =? at1 group_ids (at2 faces fi 1))
      || (at1 group_ids vi =? at1 group_ids (at2 faces fi 2))).

(** [HashGrid::getFaceVertexPairs] *)
Definition getFaceVertexPairs (g : HashGrid) (faces : MatrixXi)
  (group_ids : VectorXi) (fv_candidates : list FaceVertexCandidate)
  : option (HashGrid * list FaceVertexCandidate) :=
  '(faceItems, vertexItems, fv_candidates') <-
    getPairs (fv_is_endpoint faces) (fv_is_same_group faces group_ids)
             (m_faceItems g) (m_vertexItems g) fv_candidates ;;
  Some (set_vertexItems (set_faceItems g faceItems) vertexItems,
        fv_candidates').

(** *** The queries under one name *)

Inductive QueryKind : Type :=
  | VertexEdge
  | EdgeEdge
  | EdgeFace
  | FaceVertex.

Definition CandidateOf (k : QueryKind) : Type :=
  match k with
  | VertexEdge => EdgeVertexCandidate
  | EdgeEdge => EdgeEdgeCandidate
  | EdgeFace => EdgeFaceCandidate
  | FaceVertex => FaceVertexCandidate
  end.

#[export] Instance CandidateOf_type (k : QueryKind) : CandidateType (CandidateOf k) :=
  match k with
  | VertexEdge => EdgeVertexCandidate_type
  | EdgeEdge => EdgeEdgeCandidate_type
  | EdgeFace => EdgeFaceCandidate_type
  | FaceVertex => FaceVertexCandidate_type
  end.

(** A mesh as the queries see it. *)
Record Mesh : Type := mkMesh {
  mesh_edges : MatrixXi;
  mesh_faces : MatrixXi;
  mesh_group_ids : VectorXi
}.

Definition query (k : QueryKind) (g : HashGrid) (m : Mesh)
  : list (CandidateOf k) -> option (HashGrid * list (CandidateOf k)) :=
  match k with
  | VertexEdge => getVertexEdgePairs g (mesh_edges m) (mesh_group_ids m)
  | EdgeEdge => getEdgeEdgePairs g (mesh_edges m) (mesh_group_ids m)
  | EdgeFace =>
      getEdgeFacePairs g (mesh_edges m) (mesh_faces m) (mesh_group_ids m)
  | FaceVertex => getFaceVertexPairs g (mesh_faces m) (mesh_group_ids m)
  end.

(** The first and the second bucket a query joins. *)
Definition bucket0 (k : QueryKind) (g : HashGrid) : list HashItem :=
  match k with
  | VertexEdge | EdgeEdge | EdgeFace => m_edgeItems g
  | FaceVertex => m_faceItems g
  end.

Definition bucket1 (k : QueryKind) (g : HashGrid) : list HashItem :=
  match k with
  | VertexEdge | FaceVertex => m_vertexItems g
  | EdgeEdge => m_edgeItems g
  | EdgeFace => m_faceItems g
  end.

Definition is_endpoint (k : QueryKind) (m : Mesh) : Z -> Z -> bool :=
  match k with
  | VertexEdge => ev_is_endpoint (mesh_edges m)
  | EdgeEdge => ee_is_endpoint (mesh_edges m)
  | EdgeFace => ef_is_endpoint (mesh_edges m) (mesh_faces m)
  | FaceVertex => fv_is_endpoint (mesh_faces m)
  end.

Definition is_same_group (k : QueryKind) (m : Mesh) : Z -> Z -> bool :=
  match k with
  | VertexEdge => ev_is_same_group (mesh_edges m) (mesh_group_ids m)
  | EdgeEdge => ee_is_same_group (mesh_edges m) (mesh_group_ids m)
  | EdgeFace =>
      ef_is_same_group (mesh_edges m) (mesh_faces m) (mesh_group_ids m)
  | FaceVertex => fv_is_same_group (mesh_faces m) (mesh_group_ids m)
  end.

(** ** Mesh statistics and the gradient of the triangle area *)

(** [std::sqrt] is a function of the C library; the definitions that call
    it take it as a parameter. *)
Section SquareRoot.
Variable sqrt : Q -> Q.

(** [v.squaredNorm()] and [v.norm()] *)
Definition squaredNorm (v : list Q) : Q :=
  fold_right (fun c acc => c * c + acc)%Q 0%Q v.
Definition norm (v : list Q) : Q := sqrt (squaredNorm v).

(** [M.colwise().minCoeff()] and [M.colwise().maxCoeff()]; Eigen asserts
    that the matrix is not empty. *)
Definition colwise_minCoeff (M : MatrixXd) : option ArrayMax3d :=
  match M with
  | [] => None
  | r :: rest => Some (fold_left cwiseMin rest r)
  end.
Definition colwise_maxCoeff (M : MatrixXd) : option ArrayMax3d :=
  match M with
  | [] => None
  | r :: rest => Some (fold_left cwiseMax rest r)
  end.

(** [calculate_mesh_extents]; the two output parameters are the result. *)
Definition calculate_mesh_extents (vertices_t0 vertices_t1 : MatrixXd)
  : option (ArrayMax3d * ArrayMax3d) :=
  lower_bound_t0 <- colwise_minCoeff vertices_t0 ;;
  upper_bound_t0 <- colwise_maxCoeff vertices_t0 ;;
  lower_bound_t1 <- colwise_minCoeff vertices_t1 ;;
  upper_bound_t1 <- colwise_maxCoeff vertices_t1 ;;
  Some (cwiseMin lower_bound_t0 lower_bound_t1,
        cwiseMax upper_bound_t0 upper_bound_t1).

(** [average_edge_length] *)
Definition average_edge_length (V_t0 V_t1 : MatrixXd) (E : MatrixXi) : Q :=
  let avg :=
    iter_count (Z.to_nat (rows E)) 0 (fun i avg =>
      let avg :=
        (avg + norm (zip_with Qminus (row V_t0 (at2 E i 0))
                                     (row V_t0 (at2 E i 1))))%Q in
      (avg + norm (zip_with Qminus (row V_t1 (at2 E i 0))
                                   (row V_t1 (at2 E i 1))))%Q) 0%Q in
  (avg / inject_Z (2 * rows E))%Q.

(** [average_displacement_length] *)
Definition average_displacement_length (displacements : MatrixXd) : Q :=
  (fold_right (fun r acc => norm r + acc)%Q 0%Q displacements
   / inject_Z (rows displacements))%Q.

(** [HashGrid::resize(vertices_t0, vertices_t1, edges, inflation_radius)];
    [vertices_t1 - vertices_t0] is the difference of two matrices of one
    size. *)
Definition resize_mesh (g : HashGrid) (vertices_t0 vertices_t1 : MatrixXd)
  (edges : MatrixXi) (inflation_radius : Q) : option HashGrid :=
  '(mesh_min, mesh_max) <- calculate_mesh_extents vertices_t0 vertices_t1 ;;
  let edge_len := average_edge_length vertices_t0 vertices_t1 edges in
  let disp_len :=
    average_displacement_length
      (zip_with (zip_with Qminus) vertices_t1 vertices_t0) in
  let cell_size := ((2 # 1) * Qmax edge_len disp_len + inflation_radius)%Q in
  resize g (sub_scalar mesh_min inflation_radius)
           (add_scalar mesh_max inflation_radius) cell_size.

(** [autogen::triangle_area_gradient]; the output array [dA] is the
    result. *)
Definition triangle_area_gradient
  (t0_x t0_y t0_z t1_x t1_y t1_z t2_x t2_y t2_z : Q) : list Q :=
  let t0 := (- t2_y)%Q in
  let t1 := (t0 + t1_y)%Q in
  let t2 := (t0_x - t1_x)%Q in
  let t3 := (t0 + t0_y)%Q in
  let t4 := (- t2_x)%Q in
  let t5 := (t0_x + t4)%Q in
  let t6 := (t0_y - t1_y)%Q in
  let t7 := (t2 * t3 - t5 * t6)%Q in
  let t8 := (- t2_z)%Q in
  let t9 := (t1_z + t8)%Q in
  let t10 := (t0_z + t8)%Q in
  let t11 := (t0_z - t1_z)%Q in
  let t12 := (t10 * t2 - t11 * t5)%Q in
  let t13 := (t10 * t6 - t11 * t3)%Q in
  let t14 := ((1 / (2 # 1)) / sqrt (t12 * t12 + t13 * t13 + t7 * t7))%Q in
  let t15 := (t1_x + t4)%Q in
  [ (t14 * (t1 * t7 + t12 * t9))%Q;
    (- t14 * (- t13 * t9 + t15 * t7))%Q;
    (- t14 * (t1 * t13 + t12 * t15))%Q;
    (- t14 * (t10 * t12 + t3 * t7))%Q;
    (t14 * (- t10 * t13 + t5 * t7))%Q;
    (t14 * (t12 * t5 + t13 * t3))%Q;
    (t14 * (t11 * t12 + t6 * t7))%Q;
    (- t14 * (- t11 * t13 + t2 * t7))%Q;
    (- t14 * (t12 * t2 + t13 * t6))%Q ].
End SquareRoot.

(** ** Vocabulary of the statements *)

(** The exact value of the cell encoding, over the integers. *)
Definition cell_code (gs : ArrayMax3i) (x y z : Z) : Z :=
  (z * coeffi gs 1 + y) * coeffi gs 0 + x.

(** A cell of the grid: [z] is [0] when the grid has two axes. *)
Definition cell_in_range (gs : ArrayMax3i) (x y z : Z) : Prop :=
  0 <= x < coeffi gs 0 /\ 0 <= y < coeffi gs 1 /\
  ((length gs = 2%nat /\ z = 0) \/ (length gs = 3%nat /\ 0 <= z < coeffi gs 2)).

(** The number of cells of the grid. *)
Definition cell_count (gs : ArrayMax3i) : Z :=
  coeffi gs 0 * coeffi gs 1 * (if (length gs =? 3)%nat then coeffi gs 2 else 1).

(** Modelled from the spec: the decoding of a key, which the sources do not
    contain: [x = k mod Gx], [y = (k / Gx) mod Gy], [z = k / (Gx * Gy)]. *)
Definition decode (gs : ArrayMax3i) (k : Z) : Z * Z * Z :=
  (k mod coeffi gs 0,
   (k / coeffi gs 0) mod coeffi gs 1,
   k / (coeffi gs 0 * coeffi gs 1)).

(** The same decoding with the truncating division and remainder of C++. *)
Definition decode_trunc (gs : ArrayMax3i) (k : Z) : Z * Z * Z :=
  (Z.rem k (coeffi gs 0),
   Z.rem (Z.quot k (coeffi gs 0)) (coeffi gs 1),
   Z.quot k (coeffi gs 0 * coeffi gs 1)).

(** A grid that only carries its cell counts. *)
Definition grid_of_size (gs : ArrayMax3i) : HashGrid :=
  mkHashGrid 1%Q gs [] [] [] [] [].

(** The cell counts in the words of the specification:
    [max(1, ceil((max - min) / cellSize))] on every axis. *)
Definition grid_size_of (min max : ArrayMax3d) (cellSize : Q) : ArrayMax3i :=
  zip_with (fun lo hi => Z.max 1 (Qceiling ((hi - lo) / cellSize))) min max.

(** What [addElement] appends for one element: items that carry the id and
    the box of the element, under the code of a cell reduced to [int]. *)
Definition wrapped_code_item (gs : ArrayMax3i) (box : AABB) (id0 : Z)
  (item : HashItem) : Prop :=
  exists x y z,
    0 <= x < coeffi gs 0 /\ 0 <= y < coeffi gs 1 /\ 0 <= z /\
    ((length gs =? 2)%nat = true \/ z < coeffi gs 2) /\
    key item = wrap_int (cell_code gs x y z) /\
    id item = id0 /\ aabb item = box.

(** Every cell of the grid has its exact code as key, and no two cells of
    the grid share a key. *)
Definition keys_exact (gs : ArrayMax3i) : Prop :=
  forall x y z, cell_in_range gs x y z ->
    wrap_int (cell_code gs x y z) = cell_code gs x y z.

Definition keys_collision_free (gs : ArrayMax3i) : Prop :=
  forall x y z x' y' z',
    cell_in_range gs x y z -> cell_in_range gs x' y' z' ->
    wrap_int (cell_code gs x y z) = wrap_int (cell_code gs x' y' z') ->
    (x, y, z) = (x', y', z').


(** All boxes of a bucket have [d] coordinates. *)
Definition dimension_is (d : nat) (items : list HashItem) : Prop :=
  Forall (fun item => length (getMin (aabb item)) = d) items.

(** The contract of [std::sort] and [std::unique] on the element type:
    [operator<] is a strict weak order, [operator==] is the equivalence it
    induces, and the two ids given to the constructor can be read back. *)
Class CandidateLaws (T : Type) `{CandidateType T} : Prop := {
  index0_emplace : forall a b, index0 (emplace a b) = a;
  index1_emplace : forall a b, index1 (emplace a b) = b;
  cand_ltb_irrefl : forall a, cand_ltb a a = false;
  cand_ltb_trans : forall a b c,
    cand_ltb a b = true -> cand_ltb b c = true -> cand_ltb a c = true;
  cand_ltb_cotrans : forall a b c,
    cand_ltb a c = true -> cand_ltb a b = true \/ cand_ltb b c = true;
  cand_eqb_equiv : forall a b,
    cand_eqb a b = negb (cand_ltb a b) && negb (cand_ltb b a)
}.

(** A candidate that two items of the buckets account for: they share a
    key, pass both filters, their boxes overlap, and the candidate is built
    from their ids. *)
Definition accounted_for {T : Type} `{CandidateType T}
  (is_endpoint is_same_group : Z -> Z -> bool)
  (items0 items1 : list HashItem) (c : T) : Prop :=
  exists item0 item1,
    In item0 items0 /\ In item1 items1 /\
    key item0 = key item1 /\
    is_endpoint (id item0) (id item1) = false /\
    is_same_group (id item0) (id item1) = false /\
    are_overlapping (aabb item0) (aabb item1) = Some true /\
    c = emplace (id item0) (id item1).

(** The order of a sorted range, and of a sorted range without equal
    neighbours. *)
Definition not_after {A : Type} (ltb : A -> A -> bool) (a b : A) : Prop :=
  ltb b a = false.
Definition before {A : Type} (ltb : A -> A -> bool) (a b : A) : Prop :=
  ltb a b = true.

(** What the brute-force comparison reports: two elements of the joined
    buckets whose boxes overlap and that pass both filters. *)
Definition eligible (k : QueryKind) (g : HashGrid) (m : Mesh) (a b : Z)
  : Prop :=
  exists item0 item1,
    In item0 (bucket0 k g) /\ In item1 (bucket1 k g) /\
    id item0 = a /\ id item1 = b /\
    are_overlapping (aabb item0) (aabb item1) = Some true /\
    is_endpoint k m a b = false /\ is_same_group k m a b = false.

(** The keys and ids of a bucket. *)
Definition keys_and_ids (items : list HashItem) : list (Z * Z) :=
  map (fun item => (key item, id item)) items.

(** An edge row with two distinct endpoints among [n] vertices, and a
    vertex some edge row refers to. *)
Definition proper_edge (n : Z) (r : list Z) : Prop :=
  exists a b, r = [a; b] /\ 0 <= a < n /\ 0 <= b < n /\ a <> b.

Definition referenced (edges : MatrixXi) (v : Z) : Prop :=
  exists r, In r edges /\ In v r.

(** One step of the serial pass of [addVerticesFromEdges] and the pass over
    the rows of one column. *)
Definition min_edge_step (edges : MatrixXi) (ej ei : Z) (vtme : list Z)
  : list Z :=
  let vi := at2 edges ei ej in
  set_nth (Z.to_nat vi) (Z.min (at1 vtme vi) ei) vtme.

Definition min_edge_column (edges : MatrixXi) (ej : Z) (vtme : list Z)
  : list Z :=
  iter_count (Z.to_nat (rows edges)) 0 (min_edge_step edges ej) vtme.

(** A bucket in ascending order of keys; a second bucket every key of
    which occurs in the first; and two items that pass the three tests of
    the scan. *)
Definition key_sorted (items : list HashItem) : Prop :=
  StronglySorted (fun a b => key a <= key b) items.

Definition covered (items0 items1 : list HashItem) : Prop :=
  forall b, In b items1 -> exists a, In a items0 /\ key a = key b.

Definition passes (is_endpoint is_same_group : Z -> Z -> bool)
  (a b : HashItem) : Prop :=
  is_endpoint (id a) (id b) = false
  /\ is_same_group (id a) (id b) = false
  /\ are_overlapping (aabb a) (aabb b) = Some true.

(** The clamped cell index of the coordinate [v(i)] on axis [i]. *)
Definition cell_index (g : HashGrid) (v : ArrayMax3d) (i : nat) : Z :=
  Z.min (Z.max (cast_int ((coeffd v i - coeffd (m_domainMin g) i)
                          / m_cellSize g)) 0)
        (coeffi (m_gridSize g) i - 1).

(** A grid of [d] axes, and a box of [d] coordinates as the constructor
    builds it. *)
Definition grid_dimension (g : HashGrid) (d : nat) : Prop :=
  (d = 2 \/ d = 3)%nat
  /\ length (m_domainMin g) = d /\ length (m_gridSize g) = d.

Definition built_box (d : nat) (box : AABB) : Prop :=
  length (getMin box) = d
  /\ AABB_ctor (getMin box) (getMax box) = Some box.

(** The inflated swept box of edge [ei] of a mesh. *)
Definition swept_edge_box (vertices_t0 vertices_t1 : MatrixXd)
  (edges : MatrixXi) (inflation_radius : Q) (ei : Z) : option AABB :=
  inflated_box
    (calculate_edge_extents
       (row vertices_t0 (at2 edges ei 0)) (row vertices_t0 (at2 edges ei 1))
       (row vertices_t1 (at2 edges ei 0)) (row vertices_t1 (at2 edges ei 1)))
    inflation_radius.

(** Positions of [d] coordinates each. *)
Definition positions_of_dimension (d : nat) (V : MatrixXd) : Prop :=
  Forall (fun p => length p = d) V.

(** A candidate of the self-join that two items of the bucket account for,
    the item with the smaller id first. *)
Definition accounted_in_order {T : Type} `{CandidateType T}
  (is_endpoint is_same_group : Z -> Z -> bool)
  (items : list HashItem) (c : T) : Prop :=
  exists item0 item1,
    In item0 items /\ In item1 items /\
    key item0 = key item1 /\ id item0 <= id item1 /\
    passes is_endpoint is_same_group item0 item1 /\
    c = emplace (id item0) (id item1).

(** An item that [addEdges] stored for an edge below row [bound]. *)
Definition edge_item (vertices_t0 vertices_t1 : MatrixXd) (edges : MatrixXi)
  (inflation_radius : Q) (bound : Z) (item : HashItem) : Prop :=
  exists ei,
    0 <= ei < bound /\ id item = int_of_long ei /\
    swept_edge_box vertices_t0 vertices_t1 edges inflation_radius ei
    = Some (aabb item).

(** Two grids of one sizing. *)
Definition same_sizing (g g' : HashGrid) : Prop :=
  m_cellSize g' = m_cellSize g /\ m_gridSize g' = m_gridSize g
  /\ m_domainMin g' = m_domainMin g /\ m_domainMax g' = m_domainMax g.

(** The closed intervals of two boxes meet on each of the first [d]
    axes. *)
Definition corners_meet (d : nat) (a b : AABB) : Prop :=
  forall i, (i < d)%nat ->
    (coeffd (getMin a) i <= coeffd (getMax b) i)%Q
    /\ (coeffd (getMin b) i <= coeffd (getMax a) i)%Q.

(** A box that contains, on each of the first [d] axes, the points within
    distance [r] of the point [p]; and a box that encloses another. *)
Definition box_contains (d : nat) (box : AABB) (p : VectorX3d) (r : Q)
  : Prop :=
  forall i, (i < d)%nat ->
    (coeffd (getMin box) i <= coeffd p i - r)%Q
    /\ (coeffd p i + r <= coeffd (getMax box) i)%Q.

Definition box_encloses (d : nat) (outer inner : AABB) : Prop :=
  forall i, (i < d)%nat ->
    (coeffd (getMin outer) i <= coeffd (getMin inner) i)%Q
    /\ (coeffd (getMax inner) i <= coeffd (getMax outer) i)%Q.

(** A value that fits the type [int]. *)
Definition in_int_range (n : Z) : Prop := INT_MIN <= n <= INT_MAX.

(** The region of the grid in which [addElement] accepts a box: less than
    two cells below the lower corner of the domain and less than one cell
    above the last cell, on each of the first [d] axes. *)
Definition within_reach (g : HashGrid) (d : nat) (box : AABB) : Prop :=
  forall i, (i < d)%nat ->
    (coeffd (m_domainMin g) i - (2 # 1) * m_cellSize g
     < coeffd (getMin box) i)%Q
    /\ (coeffd (getMax box) i
        < coeffd (m_domainMin g) i
          + inject_Z (coeffi (m_gridSize g) i + 1) * m_cellSize g)%Q.


(** At least one cell on each of the first [d] axes. *)
Definition cells_on_each_axis (g : HashGrid) (d : nat) : Prop :=
  forall i, (i < d)%nat -> 1 <= coeffi (m_gridSize g) i.

(** The cell quotients of the two corners of a box fit the type [int] on
    each of the first [d] axes, so that their conversion is defined. *)
Definition cells_representable (g : HashGrid) (d : nat) (box : AABB)
  : Prop :=
  forall i, (i < d)%nat ->
    in_int_range (coeffi (cell_of g (getMin box)) i)
    /\ in_int_range (coeffi (cell_of g (getMax box)) i).

(** The number of cells that the clamped cell range of a box spans. *)
Definition cells_spanned (g : HashGrid) (d : nat) (box : AABB) : nat :=
  let span i :=
    Z.to_nat (cell_index g (getMax box) i + 1 - cell_index g (getMin box) i) in
  (span 0 * (span 1 * (if (d =? 3)%nat then span 2 else 1)))%nat.


(** Positions that stay, with the points within distance [r] of them,
    between the corners [min] and [max] on each of the first [d] axes. *)
Definition positions_inside (d : nat) (min max : ArrayMax3d) (r : Q)
  (V : MatrixXd) : Prop :=
  forall p, In p V ->
  forall i, (i < d)%nat ->
    (coeffd min i <= coeffd p i - r)%Q /\ (coeffd p i + r <= coeffd max i)%Q.


(** One action after the other on the vertices of a list, from left to
    right. *)
Fixpoint visit_all {St : Type} (visit : Z -> St -> option St)
  (calls : list Z) (s : St) : option St :=
  match calls with
  | [] => Some s
  | vi :: rest => s' <- visit vi s ;; visit_all visit rest s'
  end.

(** Four times the square of the area of the triangle [(p0, p1, p2)]: the
    squared length of the cross product of two of its edge vectors. *)
Definition cross_squared (p0 p1 p2 : Q * Q * Q) : Q :=
  let '(x0, y0, z0) := p0 in
  let '(x1, y1, z1) := p1 in
  let '(x2, y2, z2) := p2 in
  let cx := ((y1 - y0) * (z2 - z0) - (z1 - z0) * (y2 - y0))%Q in
  let cy := ((z1 - z0) * (x2 - x0) - (x1 - x0) * (z2 - z0))%Q in
  let cz := ((x1 - x0) * (y2 - y0) - (y1 - y0) * (x2 - x0))%Q in
  (cx * cx + cy * cy + cz * cz)%Q.

(** The nine coordinates of a triangle in the order of the gradient, and
    the triangle with coordinate [k] moved by [h]. *)
Definition triangle_of (c : list Q) : (Q * Q * Q) * (Q * Q * Q) * (Q * Q * Q) :=
  ((coeffd c 0, coeffd c 1, coeffd c 2),
   (coeffd c 3, coeffd c 4, coeffd c 5),
   (coeffd c 6, coeffd c 7, coeffd c 8)).

Definition cross_squared_of (c : list Q) : Q :=
  let '(p0, p1, p2) := triangle_of c in cross_squared p0 p1 p2.

Fixpoint move_coordinate (k : nat) (h : Q) (c : list Q) : list Q :=
  match c, k with
  | [], _ => []
  | x :: rest, O => (x + h)%Q :: rest
  | x :: rest, S k' => x :: move_coordinate k' h rest
  end.

(** The gradient at the coordinates [c]. *)
Definition gradient_at (sqrt : Q -> Q) (c : list Q) : list Q :=
  triangle_area_gradient sqrt
    (coeffd c 0) (coeffd c 1) (coeffd c 2)
    (coeffd c 3) (coeffd c 4) (coeffd c 5)
    (coeffd c 6) (coeffd c 7) (coeffd c 8).

(** The integers from [lo] to [hi] in ascending order: the values that the
    counter of [for (int x = lo; x <= hi; ++x)] takes. *)
Definition cells_between (lo hi : Z) : list Z :=
  map (fun k => lo + Z.of_nat k) (seq 0 (Z.to_nat (hi + 1 - lo))).

(** The items of one element: one for each cell of the clamped cell range
    of its box, under the code of the cell reduced to [int], in the order
    of the three loops of [addElement]. *)
Definition items_of_range (g : HashGrid) (d : nat) (box : AABB) (id0 : Z)
  : list HashItem :=
  flat_map (fun x =>
    flat_map (fun y =>
      map (fun z =>
             mkHashItem (wrap_int (cell_code (m_gridSize g) x y z)) id0 box)
          (if (d =? 3)%nat
           then cells_between (cell_index g (getMin box) 2)
                              (cell_index g (getMax box) 2)
           else cells_between 0 0))
      (cells_between (cell_index g (getMin box) 1)
                     (cell_index g (getMax box) 1)))
    (cells_between (cell_index g (getMin box) 0)
                   (cell_index g (getMax box) 0)).

(** A bucket in which no two items tie under [operator<]: no two items
    share both their key and their id. *)
Definition no_ties (items : list HashItem) : Prop :=
  NoDup (keys_and_ids items).

(** ** Scenarios *)

(** A domain of two unit cells side by side, [[0,2] x [0,1]]. *)
Definition two_cells : option HashGrid :=
  resize empty_grid [0; 0]%Q [2 # 1; 1]%Q 1%Q.

(** Four vertices at rest in the right cell, the last two joined by an
    edge: vertex 0 at [(1.0625, 0.5)], vertex 1 at [(1.5, 0.5)], vertex 2 at
    [(1.25, 0.25)], vertex 3 at [(1.75, 0.75)]. *)
Definition right_cell_V : MatrixXd :=
  [[17 # 16; 1 # 2]; [3 # 2; 1 # 2]; [5 # 4; 1 # 4]; [7 # 4; 3 # 4]]%Q.
Definition right_cell_E : MatrixXi := [[2; 3]].
Definition right_cell_mesh : Mesh := mkMesh right_cell_E [] [].

(** [resize], [addVertices], [addEdges] with one inflation radius. *)
Definition populate (inflation_radius : Q) : option HashGrid :=
  g <- two_cells ;;
  g <- addVertices g right_cell_V right_cell_V inflation_radius ;;
  addEdges g right_cell_V right_cell_V right_cell_E inflation_radius.

(** The candidates of the edge-vertex query on the populated grid. *)
Definition populate_and_query (inflation_radius : Q)
  : option (list EdgeVertexCandidate) :=
  g <- populate inflation_radius ;;
  '(_, candidates) <- getVertexEdgePairs g right_cell_E [] [] ;;
  Some candidates.

(** The swept box of a vertex or of an edge of the scenario. *)
Definition vertex_box (vi : Z) (inflation_radius : Q) : option AABB :=
  inflated_box (calculate_vertex_extents (row right_cell_V vi)
                                         (row right_cell_V vi))
               inflation_radius.
Definition edge_box (ei : Z) (inflation_radius : Q) : option AABB :=
  inflated_box (calculate_edge_extents
                  (row right_cell_V (at2 right_cell_E ei 0))
                  (row right_cell_V (at2 right_cell_E ei 1))
                  (row right_cell_V (at2 right_cell_E ei 0))
                  (row right_cell_V (at2 right_cell_E ei 1)))
               inflation_radius.

(** The grid of the scenario populated at radius [0]; its edge-vertex
    query finds the edge and vertex 1. *)
Definition grid_at_rest : HashGrid :=
  match populate 0%Q with
  | Some g => g
  | None => empty_grid
  end.

(** The boxes of edge 0 and of vertex 1 of the scenario at radius [0]. *)
Definition rest_edge_box : AABB :=
  match edge_box 0 0%Q with
  | Some box => box
  | None => mkAABB [] [] [] []
  end.

Definition rest_vertex_box : AABB :=
  match vertex_box 1 0%Q with
  | Some box => box
  | None => mkAABB [] [] [] []
  end.

(** Candidates handed to a query out of order and with a repetition. *)
Definition unsorted_candidates (k : QueryKind) : list (CandidateOf k) :=
  [emplace 1 1; emplace 0 0; emplace 1 1].

(** The grid of the scenario populated at radius [1/8]: the box of
    vertex 0 now reaches into the left cell. *)
Definition grid_inflated : HashGrid :=
  match populate (1 # 8)%Q with
  | Some g => g
  | None => empty_grid
  end.

(** One vertex at [(0.5, 0.5)] and one edge that joins it to itself. *)
Definition loop_V : MatrixXd := [[1 # 2; 1 # 2]]%Q.
Definition loop_E : MatrixXi := [[0; 0]].

Definition loop_grid : option HashGrid :=
  g <- two_cells ;;
  addVerticesFromEdges g loop_V loop_V loop_E 0%Q.

(** The sized grid of the scenario and the box of vertex 0 at radius
    [1/8], which covers both cells. *)
Definition two_cells_grid : HashGrid :=
  match two_cells with
  | Some g => g
  | None => empty_grid
  end.

Definition vertex0_box : AABB :=
  match vertex_box 0 (1 # 8)%Q with
  | Some box => box
  | None => mkAABB [] [] [] []
  end.

(** Scenario S3 of the specification: two skew edges at rest in the
    domain [[0,2]^3] with unit cells. *)
Definition skew_V : MatrixXd :=
  [[0; 0; 0]; [2 # 1; 0; 0];
   [1; -1 # 10; -1 # 10]; [1; 1 # 10; 1 # 10]]%Q.
Definition skew_E : MatrixXi := [[0; 1]; [2; 3]].

Definition skew_query : option (list EdgeEdgeCandidate) :=
  g <- resize empty_grid [0; 0; 0]%Q [2 # 1; 2 # 1; 2 # 1]%Q 1%Q ;;
  g <- addEdges g skew_V skew_V skew_E 0%Q ;;
  '(_, candidates) <- getEdgeEdgePairs g skew_E [] [] ;;
  Some candidates.

(** The sized and the populated grid of scenario S3. *)
Definition skew_sized : HashGrid :=
  match resize empty_grid [0; 0; 0]%Q [2 # 1; 2 # 1; 2 # 1]%Q 1%Q with
  | Some g => g
  | None => empty_grid
  end.

Definition skew_populated : HashGrid :=
  match addEdges skew_sized skew_V skew_V skew_E 0%Q with
  | Some g => g
  | None => empty_grid
  end.

(** Scenario S4: two edges that share vertex 0. *)
Definition fan_V : MatrixXd :=
  [[1 # 2; 1 # 2]; [3 # 2; 1 # 2]; [1 # 2; 3 # 4]]%Q.
Definition fan_E : MatrixXi := [[0; 1]; [0; 2]].

Definition fan_query : option (list EdgeEdgeCandidate) :=
  g <- two_cells ;;
  g <- addEdges g fan_V fan_V fan_E 0%Q ;;
  '(_, candidates) <- getEdgeEdgePairs g fan_E [] [] ;;
  Some candidates.

(** Scenario S5: the vertices 0 and 1 and the endpoint 2 of the edge carry
    the group label 7. *)
Definition same_group_ids : VectorXi := [7; 7; 7; 8].

Definition same_group_query : option (list EdgeVertexCandidate) :=
  g <- populate 0%Q ;;
  '(_, candidates) <-
    getVertexEdgePairs g right_cell_E same_group_ids [] ;;
  Some candidates.

(** Scenario S6: a vertex and an edge whose boxes both span the four cells
    of the domain [[0,2]^2]; the candidates before and after the final sort
    and [std::unique]. *)
Definition four_cells_V : MatrixXd :=
  [[1; 1]; [1 # 2; 1 # 2]; [3 # 2; 3 # 2]]%Q.
Definition four_cells_E : MatrixXi := [[1; 2]].

Definition four_cells_grid : option HashGrid :=
  g <- resize empty_grid [0; 0]%Q [2 # 1; 2 # 1]%Q 1%Q ;;
  g <- addVertex g (row four_cells_V 0) (row four_cells_V 0) 0 (1 # 4)%Q ;;
  addEdges g four_cells_V four_cells_V four_cells_E 0%Q.

Definition four_cells_raw : option (list EdgeVertexCandidate) :=
  g <- four_cells_grid ;;
  scan_buckets (ev_is_endpoint four_cells_E)
               (ev_is_same_group four_cells_E [])
               (parallel_sort HashItem_ltb (m_edgeItems g))
               (parallel_sort HashItem_ltb (m_vertexItems g)) [].

Definition four_cells_query : option (list EdgeVertexCandidate) :=
  g <- four_cells_grid ;;
  '(_, candidates) <- getVertexEdgePairs g four_cells_E [] [] ;;
  Some candidates.

(** Scenario S3 populated at the inflation radius [1/8]. *)
Definition skew_inflated : HashGrid :=
  match addEdges skew_sized skew_V skew_V skew_E (1 # 8)%Q with
  | Some g => g
  | None => empty_grid
  end.

(** A square root that is exact on the squares of rational numbers. *)
Definition sqrt_of_square (q : Q) : Q :=
  Z.sqrt (Qnum (Qred q)) # Pos.sqrt (Qden (Qred q)).

(** The corners of a triangle in the plane [z = 0]. *)
Definition flat_triangle : list Q := [0; 0; 0; 1; 0; 0; 0; 1; 0]%Q.

(** A mesh of one edge from [(0, 0)] to [(3, 4)] at rest, and the grid that
    the mesh overload of [resize] sizes for it: one cell of size [10]. *)
Definition rod_V : MatrixXd := [[0; 0]; [3 # 1; 4 # 1]]%Q.
Definition rod_E : MatrixXi := [[0; 1]].

Definition rod_sized : HashGrid :=
  match resize_mesh sqrt_of_square empty_grid rod_V rod_V rod_E 0%Q with
  | Some g => g
  | None => empty_grid
  end.

(** * Properties *)

(** ** Machine arithmetic *)

Lemma wrap_int_small (n : Z) :
  INT_MIN <= n <= INT_MAX -> wrap_int n = n.
Proof.
  unfold wrap_int, INT_MIN, INT_MAX. intros Hn.
  rewrite Z.mod_small by lia. lia.
Qed.

Lemma wrap_int_range (n : Z) : INT_MIN <= wrap_int n <= INT_MAX.
Proof.
  unfold wrap_int, INT_MIN, INT_MAX.
  pose proof (Z.mod_pos_bound (n + 2147483648) 4294967296 eq_refl). lia.
Qed.

Lemma wrap_int_repr (n : Z) : exists q, wrap_int n = n + q * 4294967296.
Proof.
  exists (- ((n + 2147483648) / 4294967296)). unfold wrap_int.
  rewrite Z.mod_eq by lia. lia.
Qed.

Lemma wrap_int_shift (n q : Z) : wrap_int (n + q * 4294967296) = wrap_int n.
Proof.
  unfold wrap_int.
  replace (n + q * 4294967296 + 2147483648)
    with (n + 2147483648 + q * 4294967296) by lia.
  now rewrite Z_mod_plus_full.
Qed.


Lemma wrap_int_idem (n : Z) : wrap_int (wrap_int n) = wrap_int n.
Proof. apply wrap_int_small, wrap_int_range. Qed.

Lemma int_add_wrap_l (a b : Z) : int_add (wrap_int a) b = wrap_int (a + b).
Proof.
  unfold int_add. destruct (wrap_int_repr a) as [q ->].
  replace (a + q * 4294967296 + b) with (a + b + q * 4294967296) by lia.
  apply wrap_int_shift.
Qed.

Lemma int_mul_wrap_l (a b : Z) : int_mul (wrap_int a) b = wrap_int (a * b).
Proof.
  unfold int_mul. destruct (wrap_int_repr a) as [q ->].
  replace ((a + q * 4294967296) * b) with (a * b + (q * b) * 4294967296) by lia.
  apply wrap_int_shift.
Qed.

(** The [int] arithmetic of [hash] yields the exact code reduced to the
    range of [int]. *)
Lemma hash_arith (gs : ArrayMax3i) (x y z : Z) :
  int_add (int_mul (int_add (int_mul z (coeffi gs 1)) y) (coeffi gs 0)) x
  = wrap_int (cell_code gs x y z).
Proof.
  unfold cell_code.
  unfold int_mul at 2. rewrite int_add_wrap_l, int_mul_wrap_l.
  apply int_add_wrap_l.
Qed.

Lemma precondition_true (b : bool) : b = true -> precondition b = Some tt.
Proof. intros ->. reflexivity. Qed.

Lemma precondition_Some (b : bool) (u : unit) :
  precondition b = Some u -> b = true.
Proof. destruct b; [reflexivity | discriminate]. Qed.

Lemma bind_Some {A B : Type} (m : option A) (f : A -> option B) (b : B) :
  bind m f = Some b -> exists a, m = Some a /\ f a = Some b.
Proof. destruct m as [a|]; [now exists a | discriminate]. Qed.

Tactic Notation "bind_inv" hyp(H) "as" ident(a) ident(Ha) :=
  apply bind_Some in H; destruct H as (a & Ha & H).

(** A precondition that passed: only its truth is kept. *)
Ltac pre_inv H Hb :=
  let u := fresh "u" in
  apply bind_Some in H; destruct H as (u & Hb & H);
  apply precondition_Some in Hb; clear u.

(** [hash] meets its assertions on every cell of the grid. *)
Lemma hash_in_range (g : HashGrid) (x y z : Z) :
  cell_in_range (m_gridSize g) x y z ->
  hash g x y z = Some (wrap_int (cell_code (m_gridSize g) x y z)).
Proof.
  intros (Hx & Hy & Hz). unfold hash. set (gs := m_gridSize g) in *.
  rewrite hash_arith.
  assert (E1 : (0 <=? x) && (0 <=? y) && (0 <=? z) = true).
  { destruct Hz as [[_ ->] | [_ Hz]]; lia. }
  assert (E2 : (x <? coeffi gs 0) && (y <? coeffi gs 1)
               && ((length gs =? 2)%nat || (z <? coeffi gs 2)) = true).
  { destruct Hz as [[-> _] | [-> Hz]]; cbn [Nat.eqb orb]; lia. }
  now rewrite E1, E2.
Qed.

Lemma cell_code_bounds (gs : ArrayMax3i) (x y z : Z) :
  cell_in_range gs x y z -> 0 <= cell_code gs x y z < cell_count gs.
Proof.
  unfold cell_in_range, cell_code, cell_count.
  set (Gx := coeffi gs 0). set (Gy := coeffi gs 1). set (Gz := coeffi gs 2).
  intros (Hx & Hy & [[-> ->] | [-> Hz]]); cbn [Nat.eqb].
  - assert (y * Gx <= (Gy - 1) * Gx) by (apply Z.mul_le_mono_nonneg_r; lia).
    assert (0 <= y * Gx) by (apply Z.mul_nonneg_nonneg; lia).
    lia.
  - assert (0 <= z * Gy) by (apply Z.mul_nonneg_nonneg; lia).
    assert (z * Gy <= (Gz - 1) * Gy) by (apply Z.mul_le_mono_nonneg_r; lia).
    assert (0 <= (z * Gy + y) * Gx) by (apply Z.mul_nonneg_nonneg; lia).
    assert ((z * Gy + y) * Gx <= (Gz * Gy - 1) * Gx)
      by (apply Z.mul_le_mono_nonneg_r; lia).
    lia.
Qed.

Lemma decode_cell_code (gs : ArrayMax3i) (x y z : Z) :
  cell_in_range gs x y z -> decode gs (cell_code gs x y z) = (x, y, z).
Proof.
  unfold cell_in_range, cell_code, decode.
  set (Gx := coeffi gs 0). set (Gy := coeffi gs 1).
  intros (Hx & Hy & Hz).
  assert (E1 : ((z * Gy + y) * Gx + x) mod Gx = x).
  { rewrite Z.add_comm, Z_mod_plus_full. apply Z.mod_small; lia. }
  assert (E2 : ((z * Gy + y) * Gx + x) / Gx = z * Gy + y).
  { rewrite Z.add_comm, Z_div_plus_full by lia.
    rewrite Z.div_small by lia. lia. }
  assert (E3 : (z * Gy + y) mod Gy = y).
  { rewrite Z.add_comm, Z_mod_plus_full. apply Z.mod_small; lia. }
  assert (E4 : ((z * Gy + y) * Gx + x) / (Gx * Gy) = z).
  { rewrite <- Z.div_div by lia. rewrite E2.
    rewrite Z.add_comm, Z_div_plus_full by lia.
    rewrite Z.div_small by lia. lia. }
  now rewrite E1, E2, E3, E4.
Qed.

(** ** The cell encoding *)

Lemma keys_exact_of_count (gs : ArrayMax3i) :
  cell_count gs <= 2147483648 -> keys_exact gs.
Proof.
  intros Hc x y z Hin. apply wrap_int_small.
  pose proof (cell_code_bounds gs x y z Hin). unfold INT_MIN, INT_MAX. lia.
Qed.

Lemma keys_collision_free_of_exact (gs : ArrayMax3i) :
  keys_exact gs -> keys_collision_free gs.
Proof.
  intros He x y z x' y' z' H1 H2 E.
  rewrite (He _ _ _ H1), (He _ _ _ H2) in E.
  rewrite <- (decode_cell_code gs x y z H1), <- (decode_cell_code gs x' y' z' H2).
  now rewrite E.
Qed.



(** Where the [int] arithmetic of [hash] does not overflow, on a grid of
    at most [2^31] cells, decoding the hash of a cell of the grid gives the
    cell back, and [hash] is injective on the cells of the grid. *)
Theorem hash_round_trip (g : HashGrid) :
  cell_count (m_gridSize g) <= 2147483648 ->
  (forall x y z, cell_in_range (m_gridSize g) x y z ->
     exists k, hash g x y z = Some k /\ decode (m_gridSize g) k = (x, y, z))
  /\
  (forall x y z x' y' z',
     cell_in_range (m_gridSize g) x y z ->
     cell_in_range (m_gridSize g) x' y' z' ->
     hash g x y z = hash g x' y' z' -> (x, y, z) = (x', y', z')).
Proof.
  intros Hc. pose proof (keys_exact_of_count _ Hc) as He. split.
  - intros x y z Hin. exists (cell_code (m_gridSize g) x y z). split.
    + rewrite hash_in_range by assumption. now rewrite He.
    + now apply decode_cell_code.
  - intros x y z x' y' z' H1 H2 E.
    rewrite !hash_in_range in E by assumption.
    injection E as E.
    eapply keys_collision_free_of_exact; eauto.
Qed.

Lemma hash_round_trip_witness :
  exists k, hash (grid_of_size [4; 3; 2]) 3 2 1 = Some k
            /\ decode [4; 3; 2] k = (3, 2, 1).
Proof.
  apply (hash_round_trip (grid_of_size [4; 3; 2])).
  - vm_compute. discriminate.
  - unfold cell_in_range, coeffi; cbn. repeat split; try lia;
      try (right; split; [reflexivity | lia]).
Defined.

(** C7, the failing input.  On the grid of [65536 x 65536] cells the code
    of the cell [(0, 32768)] is [2^31], which decodes to the cell; [hash]
    forms it from [int] operands, the product leaves the range of [int]
    before it is widened to the [long] result, and neither the flooring nor
    the truncating decoding of the value returned gives the cell back.  On
    the grid of [65536 x 65537] cells two cells share their hash. *)
Lemma hash_round_trip_overflow :
  cell_in_range [65536; 65536] 0 32768 0
  /\ cell_code [65536; 65536] 0 32768 0 = 2147483648
  /\ decode [65536; 65536] 2147483648 = (0, 32768, 0)
  /\ hash (grid_of_size [65536; 65536]) 0 32768 0 = Some (-2147483648)
  /\ decode [65536; 65536] (-2147483648) = (0, 32768, -1)
  /\ decode_trunc [65536; 65536] (-2147483648) = (0, -32768, 0)
  /\ cell_in_range [65536; 65537] 0 0 0
  /\ cell_in_range [65536; 65537] 0 65536 0
  /\ hash (grid_of_size [65536; 65537]) 0 0 0
     = hash (grid_of_size [65536; 65537]) 0 65536 0.
Proof.
  unfold cell_in_range, coeffi; cbn [nth length].
  repeat split; try lia; try (left; split; reflexivity);
    vm_compute; reflexivity.
Qed.

(** ** Keys stored by [addElement] *)

Lemma for_count_inv {S : Type} (P : S -> Prop) (body : Z -> S -> option S) :
  (forall i s s', P s -> body i s = Some s' -> P s') ->
  forall n x s s', P s -> for_count n x body s = Some s' -> P s'.
Proof.
  intros Hbody. induction n as [|n IH]; intros x s s' Hs Hrun; cbn in Hrun.
  - now injection Hrun as <-.
  - bind_inv Hrun as s1 Hs1. eapply IH; [|exact Hrun]. eapply Hbody; eauto.
Qed.

Lemma hash_Some (g : HashGrid) (x y z k : Z) :
  hash g x y z = Some k ->
  0 <= x < coeffi (m_gridSize g) 0 /\ 0 <= y < coeffi (m_gridSize g) 1 /\
  0 <= z /\
  ((length (m_gridSize g) =? 2)%nat = true \/ z < coeffi (m_gridSize g) 2) /\
  k = wrap_int (cell_code (m_gridSize g) x y z).
Proof.
  unfold hash. intros H.
  pre_inv H H1. pre_inv H H2.
  injection H as <-. rewrite hash_arith.
  repeat split; lia.
Qed.

Lemma addElement_appends (g : HashGrid) (box : AABB) (id0 : Z)
  (items items' : list HashItem) :
  addElement g box id0 items = Some items' ->
  exists new, items' = items ++ new
              /\ Forall (wrapped_code_item (m_gridSize g) box id0) new.
Proof.
  unfold addElement. intros H.
  pre_inv H H1. pre_inv H H2. pre_inv H H3. pre_inv H H4. pre_inv H H5.
  clear H1 H2 H3 H4 H5.
  set (P := fun t : list HashItem =>
              exists new, t = items ++ new
                /\ Forall (wrapped_code_item (m_gridSize g) box id0) new).
  assert (P0 : P items) by (exists []; split; [now rewrite app_nil_r | constructor]).
  unfold for_incl in H.
  refine (for_count_inv P _ _ _ _ _ _ P0 H).
  intros x s s' Hs Hrun.
  refine (for_count_inv P _ _ _ _ _ _ Hs Hrun).
  clear s s' Hs Hrun. intros y s s' Hs Hrun.
  refine (for_count_inv P _ _ _ _ _ _ Hs Hrun).
  clear s s' Hs Hrun. intros z s s' (new & -> & Hnew) Hrun.
  bind_inv Hrun as k Ha. injection Hrun as <-.
  exists (new ++ [HashItem_ctor k id0 box]). split; [now rewrite app_assoc|].
  apply Forall_app; split; [assumption|]. constructor; [|constructor].
  apply hash_Some in Ha. destruct Ha as (Hx & Hy & Hz & Hz' & ->).
  exists x, y, z. cbn. unfold int_of_long. rewrite wrap_int_idem.
  repeat split; try assumption; lia.
Qed.



(** ** Sorting and de-duplication *)

Section SortingFacts.
Context {A : Type}.
Variable ltb : A -> A -> bool.
Variable eqb : A -> A -> bool.

Lemma insert_sorted_perm (x : A) (l : list A) :
  Permutation (insert_sorted ltb x l) (x :: l).
Proof.
  induction l as [|y t IH]; cbn; [reflexivity|].
  destruct (ltb y x); [|reflexivity].
  rewrite IH. apply perm_swap.
Qed.

Lemma parallel_sort_perm (l : list A) : Permutation (parallel_sort ltb l) l.
Proof.
  induction l as [|x t IH]; cbn; [reflexivity|].
  rewrite insert_sorted_perm. now constructor.
Qed.

Lemma parallel_sort_In (x : A) (l : list A) :
  In x (parallel_sort ltb l) <-> In x l.
Proof.
  split; apply Permutation_in;
    [apply parallel_sort_perm | symmetry; apply parallel_sort_perm].
Qed.

Lemma unique_from_In (prev x : A) (l : list A) :
  In x (unique_from eqb prev l) -> In x l.
Proof.
  revert prev. induction l as [|y t IH]; intros prev; cbn; [tauto|].
  destruct (eqb prev y); cbn; intros Hin.
  - right. eapply IH; eauto.
  - destruct Hin as [-> | Hin]; [now left | right; eapply IH; eauto].
Qed.

Lemma unique_erase_In (x : A) (l : list A) :
  In x (unique_erase eqb l) -> In x l.
Proof.
  destruct l as [|y t]; cbn; [tauto|].
  intros [-> | Hin]; [now left | right; eapply unique_from_In; eauto].
Qed.

Lemma unique_from_length (prev : A) (l : list A) :
  (length (unique_from eqb prev l) <= length l)%nat.
Proof.
  revert prev. induction l as [|y t IH]; intros prev; cbn; [lia|].
  destruct (eqb prev y); cbn; [specialize (IH prev) | specialize (IH y)]; lia.
Qed.

(** The laws of a strict weak order and of its equivalence. *)
Hypothesis ltb_irrefl : forall a, ltb a a = false.
Hypothesis ltb_trans :
  forall a b c, ltb a b = true -> ltb b c = true -> ltb a c = true.
Hypothesis ltb_cotrans :
  forall a b c, ltb a c = true -> ltb a b = true \/ ltb b c = true.
Hypothesis eqb_equiv :
  forall a b, eqb a b = negb (ltb a b) && negb (ltb b a).

Lemma not_after_trans (a b c : A) :
  not_after ltb a b -> not_after ltb b c -> not_after ltb a c.
Proof.
  unfold not_after. intros Hab Hbc.
  destruct (ltb c a) eqn:E; [|reflexivity].
  destruct (ltb_cotrans c b a E); congruence.
Qed.

Lemma before_not_after (a b : A) : before ltb a b -> not_after ltb a b.
Proof.
  unfold before, not_after. intros Hab.
  destruct (ltb b a) eqn:E; [|reflexivity].
  pose proof (ltb_trans a b a Hab E). now rewrite ltb_irrefl in *.
Qed.

Lemma before_not_after_trans (a b c : A) :
  before ltb a b -> not_after ltb b c -> before ltb a c.
Proof.
  unfold before, not_after. intros Hab Hbc.
  destruct (ltb_cotrans a c b Hab); congruence.
Qed.

Lemma insert_sorted_sorted (x : A) (l : list A) :
  StronglySorted (not_after ltb) l ->
  StronglySorted (not_after ltb) (insert_sorted ltb x l).
Proof.
  induction 1 as [|y t Hs IH Hy]; cbn; [repeat constructor|].
  destruct (ltb y x) eqn:E.
  - constructor; [assumption|].
    eapply Permutation_Forall; [symmetry; apply insert_sorted_perm|].
    constructor; [now apply before_not_after | assumption].
  - constructor; [now constructor|].
    constructor; [exact E|].
    eapply Forall_impl; [|exact Hy].
    intros z Hz. eapply not_after_trans; eauto.
Qed.

Lemma parallel_sort_sorted (l : list A) :
  StronglySorted (not_after ltb) (parallel_sort ltb l).
Proof.
  induction l as [|x t IH]; cbn; [constructor|].
  now apply insert_sorted_sorted.
Qed.

Lemma unique_from_sorted (prev : A) (l : list A) :
  StronglySorted (not_after ltb) l -> Forall (not_after ltb prev) l ->
  StronglySorted (before ltb) (unique_from eqb prev l)
  /\ Forall (before ltb prev) (unique_from eqb prev l).
Proof.
  intros Hs. revert prev.
  induction Hs as [|y t Hs IH Hy]; intros prev Hprev; cbn;
    [split; constructor|].
  inversion Hprev as [|? ? Hpy Hpt]; subst.
  rewrite eqb_equiv. unfold not_after in Hpy. rewrite Hpy. cbn [negb].
  rewrite andb_true_r.
  destruct (ltb prev y) eqn:E; cbn [negb].
  - destruct (IH y Hy) as [IH1 IH2]. split.
    + now constructor.
    + constructor; [exact E|].
      eapply Forall_impl; [|exact IH2].
      intros z Hz. unfold before in *. eapply ltb_trans; eauto.
  - now apply IH.
Qed.

Lemma unique_erase_sorted (l : list A) :
  StronglySorted (not_after ltb) l ->
  StronglySorted (before ltb) (unique_erase eqb l).
Proof.
  destruct l as [|x t]; cbn; [constructor|].
  intros Hs. inversion Hs as [|? ? Ht Hx]; subst.
  destruct (unique_from_sorted x t Ht Hx). now constructor.
Qed.

(** Sorting, then removing equal neighbours: a strictly increasing
    list. *)
Lemma sort_unique_increasing (l : list A) :
  StronglySorted (before ltb) (unique_erase eqb (parallel_sort ltb l)).
Proof. apply unique_erase_sorted, parallel_sort_sorted. Qed.

Lemma increasing_NoDup (l : list A) :
  StronglySorted (before ltb) l -> NoDup l.
Proof.
  induction 1 as [|x t Hs IH Hx]; constructor; [|assumption].
  intros Hin. rewrite Forall_forall in Hx. specialize (Hx x Hin).
  unfold before in Hx. now rewrite ltb_irrefl in Hx.
Qed.

Lemma before_not_equal (a b : A) : before ltb a b -> eqb a b = false.
Proof. unfold before. intros E. now rewrite eqb_equiv, E. Qed.

(** In such a list no entry equals a later one under [operator==]. *)
Lemma increasing_no_equal_entries (l : list A) :
  StronglySorted (before ltb) l ->
  ForallOrdPairs (fun a b => eqb a b = false) l.
Proof.
  induction 1 as [|x t Hs IH Hx]; constructor; [|assumption].
  eapply Forall_impl; [|exact Hx]. intros b. apply before_not_equal.
Qed.
End SortingFacts.

(** ** The candidate types meet the contract *)

Ltac lex_cases :=
  unfold lex_ltb, lex_eqb in *;
  repeat match goal with
         | H : context [?a =? ?b] |- _ => destruct (Z.eqb_spec a b)
         | |- context [?a =? ?b] => destruct (Z.eqb_spec a b)
         end;
  try lia.

Lemma lex_ltb_irrefl (a0 a1 : Z) : lex_ltb a0 a1 a0 a1 = false.
Proof. lex_cases. Qed.

Lemma lex_ltb_trans (a0 a1 b0 b1 c0 c1 : Z) :
  lex_ltb a0 a1 b0 b1 = true -> lex_ltb b0 b1 c0 c1 = true ->
  lex_ltb a0 a1 c0 c1 = true.
Proof. lex_cases. Qed.

Lemma lex_ltb_cotrans (a0 a1 b0 b1 c0 c1 : Z) :
  lex_ltb a0 a1 c0 c1 = true ->
  lex_ltb a0 a1 b0 b1 = true \/ lex_ltb b0 b1 c0 c1 = true.
Proof. lex_cases. Qed.

Lemma lex_eqb_equiv (a0 a1 b0 b1 : Z) :
  lex_eqb a0 a1 b0 b1
  = negb (lex_ltb a0 a1 b0 b1) && negb (lex_ltb b0 b1 a0 a1).
Proof. lex_cases. Qed.

Ltac lex_laws :=
  constructor; cbn;
  [ reflexivity
  | reflexivity
  | intros; apply lex_ltb_irrefl
  | intros ? ? ?; apply lex_ltb_trans
  | intros ? ? ?; apply lex_ltb_cotrans
  | intros; apply lex_eqb_equiv ].

#[export] Instance EdgeVertexCandidate_laws : CandidateLaws EdgeVertexCandidate.
Proof. lex_laws. Qed.

#[export] Instance EdgeEdgeCandidate_laws : CandidateLaws EdgeEdgeCandidate.
Proof. lex_laws. Qed.

#[export] Instance EdgeFaceCandidate_laws : CandidateLaws EdgeFaceCandidate.
Proof. lex_laws. Qed.

#[export] Instance FaceVertexCandidate_laws : CandidateLaws FaceVertexCandidate.
Proof. lex_laws. Qed.

#[export] Instance CandidateOf_laws (k : QueryKind) : CandidateLaws (CandidateOf k).
Proof. destruct k; cbn; exact _. Qed.

(** ** The scans of the pair extractor *)

Lemma list_eq_dec_nil {A : Type} (l : list A) : {l = []} + {l <> []}.
Proof. destruct l; [now left | right; discriminate]. Qed.


Section ScanFacts.
Context {T : Type} `{CandidateType T}.
Variable is_endpoint : Z -> Z -> bool.
Variable is_same_group : Z -> Z -> bool.

Local Abbreviation accounted :=
  (accounted_for (T := T) is_endpoint is_same_group).

Lemma accounted_for_incl (a a' b b' : list HashItem) (c : T) :
  incl a a' -> incl b b' -> accounted a b c -> accounted a' b' c.
Proof.
  intros Ha Hb (item0 & item1 & H0 & H1 & Hrest).
  exists item0, item1. split; [now apply Ha|]. split; [now apply Hb|].
  exact Hrest.
Qed.

Lemma Forall_accounted_incl (a a' b b' : list HashItem) (e : list T) :
  incl a a' -> incl b b' ->
  Forall (accounted a b) e -> Forall (accounted a' b') e.
Proof.
  intros Ha Hb. apply Forall_impl. intros c.
  now apply accounted_for_incl.
Qed.

(** What a scan adds to the candidates does not depend on the candidates
    it starts from, and every addition is accounted for. *)
Lemma test_pair_spec (item0 item1 : HashItem) (candidates r : list T) :
  key item0 = key item1 ->
  test_pair is_endpoint is_same_group item0 item1 candidates = Some r ->
  exists e,
    r = candidates ++ e
    /\ (forall candidates',
          test_pair is_endpoint is_same_group item0 item1 candidates'
          = Some (candidates' ++ e))
    /\ Forall (accounted [item0] [item1]) e.
Proof.
  intros Hkey. unfold test_pair.
  destruct (is_endpoint (id item0) (id item1)) eqn:E1; cbn [negb andb].
  { intros [= <-]. exists []. rewrite app_nil_r.
    repeat split; [intros; now rewrite app_nil_r | constructor]. }
  destruct (is_same_group (id item0) (id item1)) eqn:E2; cbn [negb].
  { intros [= <-]. exists []. rewrite app_nil_r.
    repeat split; [intros; now rewrite app_nil_r | constructor]. }
  destruct (are_overlapping (aabb item0) (aabb item1)) as [[|]|] eqn:E3;
    cbn [bind]; [| |discriminate].
  - intros [= <-]. exists [emplace (id item0) (id item1)].
    repeat split. constructor; [|constructor].
    exists item0, item1. cbn. repeat split; auto.
  - intros [= <-]. exists []. rewrite app_nil_r.
    repeat split; [intros; now rewrite app_nil_r | constructor].
Qed.

Lemma scan_run_spec (item0 : HashItem) (l : list HashItem) :
  forall (candidates : list T) from_j r,
  scan_run is_endpoint is_same_group item0 l candidates = Some (from_j, r) ->
  exists e,
    r = candidates ++ e
    /\ (forall candidates',
          scan_run is_endpoint is_same_group item0 l candidates'
          = Some (from_j, candidates' ++ e))
    /\ Forall (accounted [item0] l) e
    /\ incl from_j l.
Proof.
  induction l as [|item1 rest IH]; intros candidates from_j r; cbn.
  - intros [= <- <-]. exists []. rewrite app_nil_r.
    repeat split; [intros; now rewrite app_nil_r | constructor
                   | apply incl_refl].
  - destruct (Z.eqb_spec (key item0) (key item1)) as [Hkey | Hkey].
    + intros Hrun. bind_inv Hrun as c1 Hc1.
      destruct (test_pair_spec _ _ _ _ Hkey Hc1) as (e1 & -> & He1 & Hj1).
      destruct (IH _ _ _ Hrun) as (e2 & -> & He2 & Hj2 & Hincl).
      exists (e1 ++ e2). rewrite app_assoc. repeat split.
      * intros c'. rewrite He1. cbn [bind]. rewrite He2.
        now rewrite app_assoc.
      * apply Forall_app; split.
        -- eapply Forall_accounted_incl; [apply incl_refl| |exact Hj1].
           intros x [<- | []]. now left.
        -- eapply Forall_accounted_incl; [apply incl_refl| |exact Hj2].
           now apply incl_tl.
      * now apply incl_tl.
    + intros [= <- <-]. exists []. rewrite app_nil_r.
      repeat split; [intros; now rewrite app_nil_r | constructor
                     | apply incl_refl].
Qed.

(** One turn of the outer loop, entered with both positions in range. *)
Lemma scan_buckets_step (item0 : HashItem) (next_i l1 : list HashItem)
  (candidates : list T) :
  l1 <> [] ->
  scan_buckets is_endpoint is_same_group (item0 :: next_i) l1 candidates
  = ('(from_j, candidates') <-
       scan_run is_endpoint is_same_group item0 l1 candidates ;;
     scan_buckets is_endpoint is_same_group next_i
       (match next_i with
        | [] => from_j
        | item_next :: _ =>
            if negb (key item0 =? key item_next) then from_j else l1
        end) candidates').
Proof. destruct l1; [congruence | reflexivity]. Qed.

Lemma scan_buckets_spec (l0 : list HashItem) :
  forall (l1 : list HashItem) (candidates r : list T),
  scan_buckets is_endpoint is_same_group l0 l1 candidates = Some r ->
  exists e,
    r = candidates ++ e
    /\ (forall candidates',
          scan_buckets is_endpoint is_same_group l0 l1 candidates'
          = Some (candidates' ++ e))
    /\ Forall (accounted l0 l1) e.
Proof.
  induction l0 as [|item0 next_i IH]; intros l1 candidates r.
  - cbn. intros [= <-]. exists []. rewrite app_nil_r.
    repeat split; [intros; now rewrite app_nil_r | constructor].
  - destruct (list_eq_dec_nil l1) as [-> | Hne].
    { cbn. intros [= <-]. exists []. rewrite app_nil_r.
      repeat split; [intros; now rewrite app_nil_r | constructor]. }
    rewrite scan_buckets_step by assumption.
    intros Hrun. bind_inv Hrun as p Hp. destruct p as [from_j c1].
    destruct (scan_run_spec _ _ _ _ _ Hp) as (e1 & -> & He1 & Hj1 & Hincl).
    match type of Hrun with
    | scan_buckets _ _ _ ?next _ = _ =>
        assert (Hnext : incl next l1)
          by (destruct next_i as [|item_next ?];
              [exact Hincl
              | destruct (negb (key item0 =? key item_next));
                [exact Hincl | apply incl_refl]])
    end.
    destruct (IH _ _ _ Hrun) as (e2 & -> & He2 & Hj2).
    exists (e1 ++ e2). rewrite app_assoc. repeat split.
    + intros c'. rewrite scan_buckets_step by assumption.
      rewrite He1. cbn [bind]. rewrite He2.
      now rewrite app_assoc.
    + apply Forall_app; split.
      * eapply Forall_accounted_incl; [|apply incl_refl|exact Hj1].
        intros x [<- | []]. now left.
      * eapply Forall_accounted_incl; [|exact Hnext|exact Hj2].
        now apply incl_tl.
Qed.

Lemma self_run_spec (item0 : HashItem) (l : list HashItem) :
  forall (candidates r : list T),
  self_run is_endpoint is_same_group item0 l candidates = Some r ->
  exists e,
    r = candidates ++ e
    /\ (forall candidates',
          self_run is_endpoint is_same_group item0 l candidates'
          = Some (candidates' ++ e))
    /\ Forall (accounted [item0] l) e.
Proof.
  induction l as [|item1 rest IH]; intros candidates r; cbn.
  - intros [= <-]. exists []. rewrite app_nil_r.
    repeat split; [intros; now rewrite app_nil_r | constructor].
  - destruct (Z.eqb_spec (key item0) (key item1)) as [Hkey | Hkey].
    + intros Hrun. bind_inv Hrun as c1 Hc1.
      destruct (test_pair_spec _ _ _ _ Hkey Hc1) as (e1 & -> & He1 & Hj1).
      destruct (IH _ _ Hrun) as (e2 & -> & He2 & Hj2).
      exists (e1 ++ e2). rewrite app_assoc. repeat split.
      * intros c'. rewrite He1. cbn [bind]. rewrite He2.
        now rewrite app_assoc.
      * apply Forall_app; split.
        -- eapply Forall_accounted_incl; [apply incl_refl| |exact Hj1].
           intros x [<- | []]. now left.
        -- eapply Forall_accounted_incl; [apply incl_refl| |exact Hj2].
           now apply incl_tl.
    + intros [= <-]. exists []. rewrite app_nil_r.
      repeat split; [intros; now rewrite app_nil_r | constructor].
Qed.

Lemma self_scan_spec (l : list HashItem) :
  forall (candidates r : list T),
  self_scan is_endpoint is_same_group l candidates = Some r ->
  exists e,
    r = candidates ++ e
    /\ (forall candidates',
          self_scan is_endpoint is_same_group l candidates'
          = Some (candidates' ++ e))
    /\ Forall (accounted l l) e.
Proof.
  induction l as [|item0 after_i IH]; intros candidates r; cbn.
  - intros [= <-]. exists []. rewrite app_nil_r.
    repeat split; [intros; now rewrite app_nil_r | constructor].
  - intros Hrun. bind_inv Hrun as c1 Hc1.
    destruct (self_run_spec _ _ _ _ Hc1) as (e1 & -> & He1 & Hj1).
    destruct (IH _ _ Hrun) as (e2 & -> & He2 & Hj2).
    exists (e1 ++ e2). rewrite app_assoc. repeat split.
    + intros c'. rewrite He1. cbn [bind]. rewrite He2.
      now rewrite app_assoc.
    + apply Forall_app; split.
      * eapply Forall_accounted_incl; [| |exact Hj1].
        -- intros x [<- | []]. now left.
        -- now apply incl_tl.
      * eapply Forall_accounted_incl; [| |exact Hj2]; now apply incl_tl.
Qed.
End ScanFacts.

(** ** The scans return on boxes of one dimension *)

Section ScanTotal.
Context {T : Type} `{CandidateType T}.
Variable is_endpoint : Z -> Z -> bool.
Variable is_same_group : Z -> Z -> bool.
Variable d : nat.

Lemma test_pair_total (item0 item1 : HashItem) (candidates : list T) :
  length (getMin (aabb item0)) = d -> length (getMin (aabb item1)) = d ->
  exists r, test_pair is_endpoint is_same_group item0 item1 candidates
            = Some r.
Proof.
  intros H0 H1. unfold test_pair, are_overlapping.
  rewrite H0, H1, Nat.eqb_refl. cbn [precondition bind].
  destruct (negb _ && negb _); eauto.
Qed.

Lemma scan_run_total (item0 : HashItem) (l : list HashItem) :
  length (getMin (aabb item0)) = d -> dimension_is d l ->
  forall candidates : list T,
  exists from_j r,
    scan_run is_endpoint is_same_group item0 l candidates
    = Some (from_j, r).
Proof.
  intros H0 Hl. induction Hl as [|item1 rest H1 Hrest IH];
    intros candidates; cbn; [eauto|].
  destruct (key item0 =? key item1); [|eauto].
  destruct (test_pair_total item0 item1 candidates H0 H1) as [c1 ->].
  cbn [bind]. apply IH.
Qed.

Lemma scan_buckets_total (l0 : list HashItem) :
  dimension_is d l0 ->
  forall (l1 : list HashItem) (candidates : list T),
  dimension_is d l1 ->
  exists r, scan_buckets is_endpoint is_same_group l0 l1 candidates
            = Some r.
Proof.
  intros Hl0. induction Hl0 as [|item0 next_i H0 Hnext IH];
    intros l1 candidates Hl1; [cbn; eauto|].
  destruct (list_eq_dec_nil l1) as [-> | Hne]; [cbn; eauto|].
  rewrite scan_buckets_step by assumption.
  destruct (scan_run_total item0 l1 H0 Hl1 candidates)
    as (from_j & c1 & Hrun).
  rewrite Hrun. cbn [bind].
  destruct (scan_run_spec _ _ _ _ _ _ _ Hrun) as (_ & _ & _ & _ & Hincl).
  apply IH.
  assert (Hj : dimension_is d from_j) by (eapply incl_Forall; eauto).
  destruct next_i as [|item_next ?]; [exact Hj|].
  destruct (negb (key item0 =? key item_next)); assumption.
Qed.

Lemma self_run_total (item0 : HashItem) (l : list HashItem) :
  length (getMin (aabb item0)) = d -> dimension_is d l ->
  forall candidates : list T,
  exists r, self_run is_endpoint is_same_group item0 l candidates = Some r.
Proof.
  intros H0 Hl. induction Hl as [|item1 rest H1 Hrest IH];
    intros candidates; cbn; [eauto|].
  destruct (key item0 =? key item1); [|eauto].
  destruct (test_pair_total item0 item1 candidates H0 H1) as [c1 ->].
  cbn [bind]. apply IH.
Qed.

Lemma self_scan_total (l : list HashItem) :
  dimension_is d l ->
  forall candidates : list T,
  exists r, self_scan is_endpoint is_same_group l candidates = Some r.
Proof.
  intros Hl. induction Hl as [|item0 after_i H0 Hafter IH];
    intros candidates; cbn; [eauto|].
  destruct (self_run_total item0 after_i H0 Hafter candidates) as [c1 ->].
  cbn [bind]. apply IH.
Qed.

Lemma dimension_is_sort (l : list HashItem) :
  dimension_is d l -> dimension_is d (parallel_sort HashItem_ltb l).
Proof.
  apply Permutation_Forall. symmetry. apply parallel_sort_perm.
Qed.

Lemma getPairs_total (items0 items1 : list HashItem) (candidates : list T) :
  dimension_is d items0 -> dimension_is d items1 ->
  exists r, getPairs is_endpoint is_same_group items0 items1 candidates
            = Some r.
Proof.
  intros H0 H1. unfold getPairs.
  destruct (scan_buckets_total _ (dimension_is_sort _ H0) _ candidates
              (dimension_is_sort _ H1)) as [r ->].
  cbn [bind]. eauto.
Qed.

Lemma getPairs_self_total (items : list HashItem) (candidates : list T) :
  dimension_is d items ->
  exists r, getPairs_self is_endpoint is_same_group items candidates
            = Some r.
Proof.
  intros H0. unfold getPairs_self.
  destruct (self_scan_total _ (dimension_is_sort _ H0) candidates) as [r ->].
  cbn [bind]. eauto.
Qed.
End ScanTotal.

(** ** The pair extractor as a whole *)

Section GetPairsFacts.
Context {T : Type} `{CandidateType T}.
Variable is_endpoint : Z -> Z -> bool.
Variable is_same_group : Z -> Z -> bool.

Lemma getPairs_spec (items0 items1 : list HashItem) (candidates : list T)
  (sorted0 sorted1 : list HashItem) (r : list T) :
  getPairs is_endpoint is_same_group items0 items1 candidates
  = Some (sorted0, sorted1, r) ->
  exists e,
    r = unique_erase cand_eqb (parallel_sort cand_ltb (candidates ++ e))
    /\ (forall candidates',
          getPairs is_endpoint is_same_group items0 items1 candidates'
          = Some (sorted0, sorted1,
                  unique_erase cand_eqb
                    (parallel_sort cand_ltb (candidates' ++ e))))
    /\ Forall (accounted_for is_endpoint is_same_group items0 items1) e.
Proof.
  unfold getPairs. intros Hrun. bind_inv Hrun as c1 Hc1.
  injection Hrun as <- <- <-.
  destruct (scan_buckets_spec _ _ _ _ _ _ Hc1) as (e & -> & He & Hj).
  exists e. repeat split.
  - intros c'. now rewrite He.
  - eapply Forall_accounted_incl; [| |exact Hj];
      intros x; apply parallel_sort_In.
Qed.

Lemma getPairs_self_spec (items : list HashItem) (candidates : list T)
  (sorted : list HashItem) (r : list T) :
  getPairs_self is_endpoint is_same_group items candidates
  = Some (sorted, r) ->
  exists e,
    r = unique_erase cand_eqb (parallel_sort cand_ltb (candidates ++ e))
    /\ (forall candidates',
          getPairs_self is_endpoint is_same_group items candidates'
          = Some (sorted,
                  unique_erase cand_eqb
                    (parallel_sort cand_ltb (candidates' ++ e))))
    /\ Forall (accounted_for is_endpoint is_same_group items items) e.
Proof.
  unfold getPairs_self. intros Hrun. bind_inv Hrun as c1 Hc1.
  injection Hrun as <- <-.
  destruct (self_scan_spec _ _ _ _ _ Hc1) as (e & -> & He & Hj).
  exists e. repeat split.
  - intros c'. now rewrite He.
  - eapply Forall_accounted_incl; [| |exact Hj];
      intros x; apply parallel_sort_In.
Qed.
End GetPairsFacts.

(** ** The queries *)

(** The candidates a query returns are those it was given and those it
    found, sorted and freed of equal neighbours as one list; what it found
    does not depend on what it was given, and every found candidate is
    accounted for by two items of the buckets it joins. *)
Lemma query_spec (k : QueryKind) (g : HashGrid) (m : Mesh)
  (candidates : list (CandidateOf k)) (g' : HashGrid)
  (r : list (CandidateOf k)) :
  query k g m candidates = Some (g', r) ->
  exists found,
    r = unique_erase cand_eqb (parallel_sort cand_ltb (candidates ++ found))
    /\ (forall candidates',
          query k g m candidates'
          = Some (g', unique_erase cand_eqb
                        (parallel_sort cand_ltb (candidates' ++ found))))
    /\ Forall (accounted_for (is_endpoint k m) (is_same_group k m)
                             (bucket0 k g) (bucket1 k g)) found.
Proof.
  destruct k; cbn [query CandidateOf bucket0 bucket1 is_endpoint is_same_group
                   CandidateOf_type];
    unfold getVertexEdgePairs, getEdgeEdgePairs, getEdgeFacePairs,
      getFaceVertexPairs;
    intros Hrun; bind_inv Hrun as p Hp.
  - destruct p as [[s0 s1] c]. injection Hrun as <- <-.
    destruct (getPairs_spec _ _ _ _ _ _ _ _ Hp) as (e & -> & He & Hj).
    exists e. repeat split; [|exact Hj]. intros c'. now rewrite He.
  - destruct p as [s0 c]. injection Hrun as <- <-.
    destruct (getPairs_self_spec _ _ _ _ _ _ Hp) as (e & -> & He & Hj).
    exists e. repeat split; [|exact Hj]. intros c'. now rewrite He.
  - destruct p as [[s0 s1] c]. injection Hrun as <- <-.
    destruct (getPairs_spec _ _ _ _ _ _ _ _ Hp) as (e & -> & He & Hj).
    exists e. repeat split; [|exact Hj]. intros c'. now rewrite He.
  - destruct p as [[s0 s1] c]. injection Hrun as <- <-.
    destruct (getPairs_spec _ _ _ _ _ _ _ _ Hp) as (e & -> & He & Hj).
    exists e. repeat split; [|exact Hj]. intros c'. now rewrite He.
Qed.

(** A query returns when all boxes of the buckets it joins have one
    dimension. *)
Lemma query_returns (k : QueryKind) (g : HashGrid) (m : Mesh) (d : nat)
  (candidates : list (CandidateOf k)) :
  dimension_is d (bucket0 k g) -> dimension_is d (bucket1 k g) ->
  exists g' r, query k g m candidates = Some (g', r).
Proof.
  destruct k; cbn [query CandidateOf bucket0 bucket1]; intros H0 H1;
    unfold getVertexEdgePairs, getEdgeEdgePairs, getEdgeFacePairs,
      getFaceVertexPairs.
  - edestruct (getPairs_total (T := EdgeVertexCandidate)) as [[[s0 s1] c] ->];
      [exact H0 | exact H1 | cbn; eauto].
  - edestruct (getPairs_self_total (T := EdgeEdgeCandidate)) as [[s0 c] ->];
      [exact H0 | cbn; eauto].
  - edestruct (getPairs_total (T := EdgeFaceCandidate)) as [[[s0 s1] c] ->];
      [exact H0 | exact H1 | cbn; eauto].
  - edestruct (getPairs_total (T := FaceVertexCandidate)) as [[[s0 s1] c] ->];
      [exact H0 | exact H1 | cbn; eauto].
Qed.

Lemma query_found_In (k : QueryKind) (g : HashGrid) (m : Mesh)
  (g' : HashGrid) (r : list (CandidateOf k)) (c : CandidateOf k) :
  query k g m [] = Some (g', r) -> In c r ->
  accounted_for (is_endpoint k m) (is_same_group k m)
                (bucket0 k g) (bucket1 k g) c.
Proof.
  intros Hq Hin. destruct (query_spec _ _ _ _ _ _ Hq) as (found & -> & _ & Hj).
  apply (unique_erase_In cand_eqb) in Hin.
  apply (proj1 (parallel_sort_In cand_ltb _ _)) in Hin. cbn [app] in Hin.
  rewrite Forall_forall in Hj. now apply Hj.
Qed.

(** C2.  Filter soundness: after a query on an empty output list, no
    returned pair is an adjacent pair under [is_endpoint], and none is a
    same-group pair under [is_same_group] (the closure that is constantly
    false when [group_ids] is empty). *)
Theorem query_filters_sound (k : QueryKind) (g : HashGrid) (m : Mesh)
  (g' : HashGrid) (r : list (CandidateOf k)) :
  query k g m [] = Some (g', r) ->
  forall c, In c r ->
    is_endpoint k m (index0 c) (index1 c) = false
    /\ is_same_group k m (index0 c) (index1 c) = false.
Proof.
  intros Hq c Hin.
  destruct (query_found_In _ _ _ _ _ _ Hq Hin)
    as (item0 & item1 & _ & _ & _ & He & Hg & _ & ->).
  now rewrite index0_emplace, index1_emplace.
Qed.

Lemma query_filters_sound_witness :
  is_endpoint VertexEdge right_cell_mesh 0 1 = false
  /\ is_same_group VertexEdge right_cell_mesh 0 1 = false.
Proof.
  eapply (query_filters_sound VertexEdge grid_at_rest right_cell_mesh _ _)
    with (c := mkEdgeVertexCandidate 0 1).
  - reflexivity.
  - left. reflexivity.
Defined.

(** C3.  Overlap soundness: after a query on an empty output list, every
    returned pair is the pair of ids of two items of the joined buckets
    whose boxes, as carried in the items, pass [are_overlapping]. *)
Theorem query_overlap_sound (k : QueryKind) (g : HashGrid) (m : Mesh)
  (g' : HashGrid) (r : list (CandidateOf k)) :
  query k g m [] = Some (g', r) ->
  forall c, In c r ->
    exists item0 item1,
      In item0 (bucket0 k g) /\ In item1 (bucket1 k g) /\
      id item0 = index0 c /\ id item1 = index1 c /\
      are_overlapping (aabb item0) (aabb item1) = Some true.
Proof.
  intros Hq c Hin.
  destruct (query_found_In _ _ _ _ _ _ Hq Hin)
    as (item0 & item1 & H0 & H1 & _ & _ & _ & Ho & ->).
  exists item0, item1. rewrite index0_emplace, index1_emplace. auto.
Qed.

Lemma query_overlap_sound_witness :
  exists item0 item1,
    In item0 (m_edgeItems grid_at_rest) /\
    In item1 (m_vertexItems grid_at_rest) /\
    id item0 = 0 /\ id item1 = 1 /\
    are_overlapping (aabb item0) (aabb item1) = Some true.
Proof.
  eapply (query_overlap_sound VertexEdge grid_at_rest right_cell_mesh _ _)
    with (c := mkEdgeVertexCandidate 0 1).
  - reflexivity.
  - left. reflexivity.
Defined.

(** C4.  On return of a query the candidate list, whatever it held before
    the call, is strictly increasing in the order of the candidate type:
    it is sorted and no two of its entries are equal.  The query does
    return when the boxes of the buckets have one dimension. *)
Theorem query_sorted_unique (k : QueryKind) (g : HashGrid) (m : Mesh)
  (candidates : list (CandidateOf k)) :
  (forall d, dimension_is d (bucket0 k g) -> dimension_is d (bucket1 k g) ->
     exists g' r, query k g m candidates = Some (g', r))
  /\
  (forall g' r, query k g m candidates = Some (g', r) ->
     StronglySorted (before cand_ltb) r
     /\ NoDup r
     /\ ForallOrdPairs (fun a b => cand_eqb a b = false) r).
Proof.
  split.
  - intros d. apply query_returns.
  - intros g' r Hq.
    destruct (query_spec _ _ _ _ _ _ Hq) as (found & -> & _ & _).
    pose proof (CandidateOf_laws k) as L.
    assert (Hs : StronglySorted (before cand_ltb)
                   (unique_erase cand_eqb
                      (parallel_sort cand_ltb (candidates ++ found)))).
    { apply sort_unique_increasing.
      - apply cand_ltb_irrefl.
      - apply cand_ltb_trans.
      - apply cand_ltb_cotrans.
      - apply cand_eqb_equiv. }
    split; [exact Hs|]. split.
    + eapply increasing_NoDup; [apply cand_ltb_irrefl | exact Hs].
    + eapply increasing_no_equal_entries; [apply cand_eqb_equiv | exact Hs].
Qed.

Lemma query_sorted_unique_witness :
  exists g' r,
    query VertexEdge grid_at_rest right_cell_mesh
          (unsorted_candidates VertexEdge) = Some (g', r)
    /\ StronglySorted (before cand_ltb) r /\ NoDup r.
Proof.
  destruct (query_sorted_unique VertexEdge grid_at_rest right_cell_mesh
              (unsorted_candidates VertexEdge)) as [Hret Hsorted].
  destruct (Hret 2%nat) as (g' & r & Hq).
  - vm_compute. repeat constructor.
  - vm_compute. repeat constructor.
  - exists g', r. split; [exact Hq|].
    destruct (Hsorted g' r Hq) as (Hs & Hn & _). split; assumption.
Defined.

(** C9.  A query sorts and de-duplicates the whole output vector: the
    returned list is the list given, followed by what the query found,
    sorted and freed of equal neighbours as one list, where what the query
    found is what it returns on an empty list before that final step.  The
    call is therefore no pure append: on the list
    [(1,1), (0,0), (1,1)] and empty buckets it returns the shorter list
    [(0,0), (1,1)]. *)
Theorem query_sorts_whole_vector (k : QueryKind) :
  (forall g m candidates g' r,
     query k g m candidates = Some (g', r) ->
     exists found,
       query k g m []
       = Some (g', unique_erase cand_eqb (parallel_sort cand_ltb found))
       /\ r = unique_erase cand_eqb
                (parallel_sort cand_ltb (candidates ++ found)))
  /\
  (exists g m g' r,
     unsorted_candidates k <> []
     /\ query k g m (unsorted_candidates k) = Some (g', r)
     /\ r = [emplace 0 0; emplace 1 1]
     /\ (length r < length (unsorted_candidates k))%nat
     /\ forall suffix, r <> unsorted_candidates k ++ suffix).
Proof.
  split.
  - intros g m candidates g' r Hq.
    destruct (query_spec _ _ _ _ _ _ Hq) as (found & -> & Hall & _).
    exists found. split; [apply (Hall [])|reflexivity].
  - exists empty_grid, (mkMesh [] [] []), empty_grid.
    exists [emplace 0 0; emplace 1 1].
    destruct k; (split; [discriminate|]); (split; [reflexivity|]);
      (split; [reflexivity|]); (split; [cbn; lia|]);
      intros suffix; cbn; discriminate.
Qed.

Lemma query_sorts_whole_vector_witness :
  exists found,
    query VertexEdge grid_at_rest right_cell_mesh []
    = Some (set_vertexItems
              (set_edgeItems grid_at_rest
                 (parallel_sort HashItem_ltb (m_edgeItems grid_at_rest)))
              (parallel_sort HashItem_ltb (m_vertexItems grid_at_rest)),
            unique_erase cand_eqb (parallel_sort cand_ltb found))
    /\ [mkEdgeVertexCandidate 0 0; mkEdgeVertexCandidate 0 1;
        mkEdgeVertexCandidate 1 1]
       = unique_erase cand_eqb
           (parallel_sort cand_ltb
              (unsorted_candidates VertexEdge ++ found)).
Proof.
  destruct (query_sorts_whole_vector VertexEdge) as [Hall _].
  apply (Hall grid_at_rest right_cell_mesh (unsorted_candidates VertexEdge)).
  vm_compute. reflexivity.
Defined.

(** ** Sizing *)

Lemma cast_int_inject_Z (n : Z) : cast_int (inject_Z n) = n.
Proof. unfold cast_int, inject_Z. cbn. apply Z.quot_1_r. Qed.

Lemma resize_grid_size (cellSize : Q) (max min : ArrayMax3d) :
  map (fun c => Z.max (cast_int (inject_Z (Qceiling c))) 1)
      (map (fun d => d / cellSize)%Q (zip_with Qminus max min))
  = grid_size_of min max cellSize.
Proof.
  unfold grid_size_of. revert min.
  induction max as [|hi max IH]; intros [|lo min]; cbn; try reflexivity.
  rewrite IH, cast_int_inject_Z. f_equal. apply Z.max_comm.
Qed.

Lemma coeffi_grid_size_of (min max : ArrayMax3d) (cellSize : Q) (i : nat) :
  (i < length min)%nat -> (i < length max)%nat ->
  coeffi (grid_size_of min max cellSize) i
  = Z.max 1 (Qceiling ((coeffd max i - coeffd min i) / cellSize)).
Proof.
  unfold grid_size_of, coeffi, coeffd. revert max i.
  induction min as [|lo min IH]; intros [|hi max] [|i] Hmin Hmax;
    cbn in *; try lia; try reflexivity.
  apply IH; lia.
Qed.

(** C8 (as amended).  The precondition of [resize] is [cellSize != 0]: it
    fails for every call with [cellSize == 0]; for every other call,
    negative cell sizes included, it passes, the buckets are cleared and
    the cell size and the domain are recorded.  On every axis on which the
    quotient [(max - min) / cellSize] is computed exactly and its ceiling
    fits [int], the recorded [gridSize] is
    [max(1, ceil((max - min) / cellSize))]. *)
Theorem resize_precondition (g : HashGrid) (min max : ArrayMax3d)
  (cellSize : Q) :
  (cellSize == 0 -> resize g min max cellSize = None)%Q
  /\
  (~ (cellSize == 0)%Q ->
   exists gridSize,
     resize g min max cellSize
     = Some (mkHashGrid cellSize gridSize min max [] [] [])
     /\ forall i, (i < length min)%nat -> (i < length max)%nat ->
          in_int_range
            (Qceiling ((coeffd max i - coeffd min i) / cellSize)) ->
          coeffi gridSize i
          = Z.max 1 (Qceiling ((coeffd max i - coeffd min i) / cellSize))).
Proof.
  unfold resize. split; intros Hc.
  - apply Qeq_bool_iff in Hc. now rewrite Hc.
  - destruct (Qeq_bool cellSize 0) eqn:E.
    + apply Qeq_bool_iff in E. contradiction.
    + cbn. rewrite resize_grid_size. eexists. split; [reflexivity|].
      intros i Hmin Hmax _. now apply coeffi_grid_size_of.
Qed.

Lemma resize_precondition_witness :
  resize empty_grid [0; 0]%Q [2 # 1; 1]%Q 0%Q = None
  /\ exists gridSize,
       resize empty_grid [0; 0]%Q [2 # 1; 1]%Q 1%Q
       = Some (mkHashGrid 1%Q gridSize [0; 0]%Q [2 # 1; 1]%Q [] [] [])
       /\ coeffi gridSize 0
          = Z.max 1 (Qceiling ((coeffd [2 # 1; 1]%Q 0 - coeffd [0; 0]%Q 0)
                               / 1)%Q).
Proof.
  split.
  - apply (proj1 (resize_precondition empty_grid [0; 0]%Q [2 # 1; 1]%Q
                    0%Q)).
    reflexivity.
  - destruct (proj2 (resize_precondition empty_grid [0; 0]%Q
                       [2 # 1; 1]%Q 1%Q) ltac:(discriminate))
      as (gridSize & Hr & Hgs).
    exists gridSize. split; [exact Hr|].
    apply (Hgs 0%nat); [cbn; lia | cbn; lia |].
    vm_compute. split; discriminate.
Defined.

(** C8, the statement as written fails: a negative cell size passes the
    precondition of [resize], and a grid of one cell per axis is
    recorded. *)
Lemma resize_negative_cell_size :
  (-1 <= 0)%Q
  /\ resize empty_grid [0; 0]%Q [2 # 1; 1]%Q (-1)%Q
     = Some (mkHashGrid (-1)%Q [1; 1] [0; 0]%Q [2 # 1; 1]%Q [] [] []).
Proof. split; [discriminate | reflexivity]. Qed.

(** ** Scenarios *)


(** C5, the statement as written fails: one edge that joins vertex 0 to
    itself, a row that is no edge of a mesh.  The
    row of the edge is the minimal row of the vertex in both of its
    columns, so [addVertex] is called on vertex 0 twice and its bucket
    holds the item of the vertex twice. *)
Lemma loop_edge_adds_vertex_twice :
  vertex_to_min_edge (rows loop_V) loop_E = [0]
  /\ addVertex_calls loop_V loop_E = Some [0; 0]
  /\ option_map (fun g => keys_and_ids (m_vertexItems g)) loop_grid
     = Some [(0, 0); (0, 0)].
Proof. repeat split; vm_compute; reflexivity. Qed.

(** C1, the failing input.  On the grid populated at radius [1/8] edge 0
    and vertex 1 lie in the right cell under the same key, their boxes
    overlap and both filters pass; the edge-vertex query returns the empty
    list.  The vertex bucket starts with the item of vertex 0 in the left
    cell, whose key no edge item has: the inner scan leaves at once and the
    start position of the next scan never moves past that item. *)
Lemma two_bucket_join_misses_pair :
  populate (1 # 8)%Q = Some grid_inflated
  /\ keys_and_ids (parallel_sort HashItem_ltb (m_edgeItems grid_inflated))
     = [(1, 0)]
  /\ keys_and_ids (parallel_sort HashItem_ltb (m_vertexItems grid_inflated))
     = [(0, 0); (1, 0); (1, 1); (1, 2); (1, 3)]
  /\ eligible VertexEdge grid_inflated right_cell_mesh 0 1
  /\ option_map snd (query VertexEdge grid_inflated right_cell_mesh [])
     = Some [].
Proof.
  split; [vm_compute; reflexivity|].
  split; [vm_compute; reflexivity|].
  split; [vm_compute; reflexivity|].
  split; [|vm_compute; reflexivity].
  destruct (edge_box 0 (1 # 8)%Q) as [ebox|] eqn:Ee; [|discriminate].
  destruct (vertex_box 1 (1 # 8)%Q) as [vbox|] eqn:Ev; [|discriminate].
  exists (mkHashItem 1 0 ebox), (mkHashItem 1 1 vbox).
  injection Ee as <-. injection Ev as <-.
  split; [vm_compute; now left|].
  split; [vm_compute; right; right; now left|].
  repeat split; vm_compute; reflexivity.
Qed.

(** C6, the failing input.  On the same grid and mesh the edge-vertex
    query returns the pair of edge 0 and vertex 1 at radius [0] and the
    empty list at radius [1/8]. *)
Lemma inflation_loses_pair :
  (0 <= 0)%Q /\ (0 <= 1 # 8)%Q
  /\ populate_and_query 0%Q = Some [mkEdgeVertexCandidate 0 1]
  /\ populate_and_query (1 # 8)%Q = Some [].
Proof. repeat split; try discriminate; vm_compute; reflexivity. Qed.

(** ** [addVerticesFromEdges] on edges with two distinct endpoints *)

Lemma iter_count_ind {St : Type} (P : Z -> St -> Prop)
  (body : Z -> St -> St) :
  forall n x s,
  P x s ->
  (forall i t, x <= i < x + Z.of_nat n -> P i t -> P (i + 1) (body i t)) ->
  P (x + Z.of_nat n) (iter_count n x body s).
Proof.
  induction n as [|n IH]; intros x s Hs Hstep.
  - cbn. now rewrite Z.add_0_r.
  - cbn [iter_count].
    replace (x + Z.of_nat (S n)) with (x + 1 + Z.of_nat n) by lia.
    apply IH.
    + apply Hstep; [lia | assumption].
    + intros i t Hi. apply Hstep. lia.
Qed.

Lemma for_count_ind {St : Type} (P : Z -> St -> Prop)
  (body : Z -> St -> option St) :
  forall n x s,
  P x s ->
  (forall i t, x <= i < x + Z.of_nat n -> P i t ->
     exists t', body i t = Some t' /\ P (i + 1) t') ->
  exists s', for_count n x body s = Some s' /\ P (x + Z.of_nat n) s'.
Proof.
  induction n as [|n IH]; intros x s Hs Hstep.
  - cbn. exists s. now rewrite Z.add_0_r.
  - cbn [for_count].
    destruct (Hstep x s) as (t' & -> & Ht'); [lia | assumption |].
    cbn [bind].
    replace (x + Z.of_nat (S n)) with (x + 1 + Z.of_nat n) by lia.
    apply IH; [assumption|].
    intros i t Hi. apply Hstep. lia.
Qed.

Lemma set_nth_length {A : Type} (i : nat) (v : A) (l : list A) :
  length (set_nth i v l) = length l.
Proof.
  revert i. induction l as [|x t IH]; intros [|i]; cbn; auto.
Qed.

Lemma nth_set_nth_same {A : Type} (i : nat) (v d : A) (l : list A) :
  (i < length l)%nat -> nth i (set_nth i v l) d = v.
Proof.
  revert i. induction l as [|x t IH]; intros [|i]; cbn; intros Hi;
    try lia; [reflexivity | apply IH; lia].
Qed.

Lemma nth_set_nth_other {A : Type} (i j : nat) (v d : A) (l : list A) :
  i <> j -> nth j (set_nth i v l) d = nth j l d.
Proof.
  revert i j. induction l as [|x t IH]; intros [|i] [|j]; cbn; intros Hij;
    try reflexivity; try congruence.
  apply IH. congruence.
Qed.

Lemma at1_set_same (vi x : Z) (t : list Z) :
  0 <= vi < Z.of_nat (length t) -> at1 (set_nth (Z.to_nat vi) x t) vi = x.
Proof. intros Hvi. unfold at1. apply nth_set_nth_same. lia. Qed.

Lemma at1_set_other (vi v x : Z) (t : list Z) :
  0 <= vi -> 0 <= v -> v <> vi ->
  at1 (set_nth (Z.to_nat vi) x t) v = at1 t v.
Proof. intros Hvi Hv Hne. unfold at1. apply nth_set_nth_other. lia. Qed.

Section MinEdge.
Variable edges : MatrixXi.
Variable n : Z.
Hypothesis edges_proper : Forall (proper_edge n) edges.

Lemma edge_row (ei : Z) :
  0 <= ei < rows edges ->
  exists a b,
    nth (Z.to_nat ei) edges [] = [a; b]
    /\ 0 <= a < n /\ 0 <= b < n /\ a <> b.
Proof.
  unfold rows. intros Hei.
  rewrite Forall_forall in edges_proper.
  destruct (edges_proper (nth (Z.to_nat ei) edges [])) as (a & b & E & Hab).
  - apply nth_In. lia.
  - now exists a, b.
Qed.

Lemma edge_entry (ei ej : Z) :
  0 <= ei < rows edges -> 0 <= ej < 2 -> 0 <= at2 edges ei ej < n.
Proof.
  intros Hei Hej. destruct (edge_row ei Hei) as (a & b & E & Ha & Hb & _).
  unfold at2. rewrite E.
  assert (C : ej = 0 \/ ej = 1) by lia.
  destruct C as [-> | ->]; cbn; assumption.
Qed.

Lemma referenced_entry (v : Z) :
  referenced edges v <->
  exists ei ej, 0 <= ei < rows edges /\ 0 <= ej < 2 /\ at2 edges ei ej = v.
Proof.
  split.
  - intros (r & Hr & Hv).
    destruct (In_nth _ _ [] Hr) as (i & Hi & Ei).
    assert (Hrow : 0 <= Z.of_nat i < rows edges) by (unfold rows; lia).
    destruct (edge_row _ Hrow) as (a & b & E & _).
    rewrite Nat2Z.id in E. rewrite Ei in E. rewrite E in Hv, Ei.
    exists (Z.of_nat i). unfold at2. rewrite Nat2Z.id, Ei.
    destruct Hv as [<- | [<- | []]]; [exists 0 | exists 1];
      (split; [assumption|]); split; try lia; reflexivity.
  - intros (ei & ej & Hei & Hej & E).
    destruct (edge_row _ Hei) as (a & b & Er & _).
    exists (nth (Z.to_nat ei) edges []). split.
    + apply nth_In. unfold rows in Hei. lia.
    + unfold at2 in E. rewrite Er in *.
      assert (C : ej = 0 \/ ej = 1) by lia.
      destruct C as [-> | ->]; cbn in E; subst v; cbn; tauto.
Qed.

(** The pass over one column lowers each entry to the least row that holds
    the vertex in that column, when there is one below the entry. *)
Lemma min_edge_column_spec (ej : Z) (vtme : list Z) :
  0 <= ej < 2 -> Z.of_nat (length vtme) = n ->
  let vtme' := min_edge_column edges ej vtme in
  Z.of_nat (length vtme') = n /\
  forall v, 0 <= v < n ->
    at1 vtme' v <= at1 vtme v
    /\ (forall ei, 0 <= ei < rows edges -> at2 edges ei ej = v ->
          at1 vtme' v <= ei)
    /\ (at1 vtme' v = at1 vtme v
        \/ (0 <= at1 vtme' v < rows edges
            /\ at2 edges (at1 vtme' v) ej = v)).
Proof.
  intros Hej Hlen. unfold min_edge_column.
  set (P := fun (i : Z) (t : list Z) =>
    Z.of_nat (length t) = n /\
    forall v, 0 <= v < n ->
      at1 t v <= at1 vtme v
      /\ (forall ei, 0 <= ei < i -> at2 edges ei ej = v -> at1 t v <= ei)
      /\ (at1 t v = at1 vtme v
          \/ (0 <= at1 t v < i /\ at2 edges (at1 t v) ej = v))).
  assert (Hend : P (0 + Z.of_nat (Z.to_nat (rows edges)))
                   (iter_count (Z.to_nat (rows edges)) 0
                               (min_edge_step edges ej) vtme)).
  { apply iter_count_ind.
    - split; [assumption|]. intros v Hv.
      split; [lia|]. split; [intros; lia | now left].
    - intros i t Hi [Ht Hinv].
      assert (Hrow : 0 <= i < rows edges) by (unfold rows in *; lia).
      pose proof (edge_entry i ej Hrow Hej) as Hvi.
      unfold min_edge_step. set (vi := at2 edges i ej) in *.
      split; [now rewrite set_nth_length|].
      intros v Hv. destruct (Hinv v Hv) as (H1 & H2 & H3).
      destruct (Z.eq_dec v vi) as [-> | Hne].
      + rewrite !at1_set_same by lia.
        split; [lia|]. split.
        * intros ei Hei E.
          destruct (Z.eq_dec ei i) as [-> | Hlt]; [lia|].
          specialize (H2 ei ltac:(lia) E). lia.
        * destruct (Z.min_spec (at1 t vi) i) as [[Hlt ->] | [Hge ->]].
          -- destruct H3 as [H3 | H3]; [now left | right].
             split; [lia | tauto].
          -- right. split; [lia | reflexivity].
      + rewrite !at1_set_other by lia.
        split; [assumption|]. split.
        * intros ei Hei E.
          destruct (Z.eq_dec ei i) as [-> | Hlt];
            [exfalso; apply Hne; symmetry; exact E|].
          apply H2; [lia | assumption].
        * destruct H3 as [H3 | H3]; [now left | right].
          split; [lia | tauto]. }
  rewrite Z.add_0_l, Z2Nat.id in Hend by (unfold rows; lia).
  exact Hend.
Qed.

Lemma at1_repeat (c v : Z) (k : nat) :
  0 <= v < Z.of_nat k -> at1 (repeat c k) v = c.
Proof.
  intros Hv. unfold at1. apply nth_repeat_lt. lia.
Qed.

Lemma vertex_to_min_edge_two_columns :
  edges <> [] -> 0 <= n ->
  vertex_to_min_edge n edges
  = min_edge_column edges 1
      (min_edge_column edges 0 (repeat (rows edges + 1) (Z.to_nat n))).
Proof.
  intros Hne Hn. unfold vertex_to_min_edge.
  assert (Hc : cols edges = 2).
  { destruct edges as [|r t]; [congruence|].
    inversion edges_proper as [|? ? (a & b & -> & _) _]. reflexivity. }
  rewrite Hc. reflexivity.
Qed.

(** The entry of a vertex after the serial pass: the least row that refers
    to the vertex, or [edges.rows() + 1] when no row does. *)
Lemma vertex_to_min_edge_spec (v : Z) :
  edges <> [] -> 0 <= v < n ->
  let m := at1 (vertex_to_min_edge n edges) v in
  (forall ei ej, 0 <= ei < rows edges -> 0 <= ej < 2 ->
     at2 edges ei ej = v -> m <= ei)
  /\ (m = rows edges + 1
      \/ (0 <= m < rows edges
          /\ exists ej, 0 <= ej < 2 /\ at2 edges m ej = v)).
Proof.
  intros Hne Hv. rewrite vertex_to_min_edge_two_columns by (assumption || lia).
  set (init := repeat (rows edges + 1) (Z.to_nat n)).
  assert (Hinit : Z.of_nat (length init) = n)
    by (unfold init; rewrite repeat_length; lia).
  destruct (min_edge_column_spec 0 init ltac:(lia) Hinit) as [Hlen0 H0].
  destruct (min_edge_column_spec 1 _ ltac:(lia) Hlen0) as [_ H1].
  destruct (H0 v Hv) as (A1 & A2 & A3).
  destruct (H1 v Hv) as (B1 & B2 & B3).
  assert (Ei : at1 init v = rows edges + 1)
    by (apply at1_repeat; lia).
  cbn zeta. split.
  - intros ei ej Hei Hej E.
    assert (C : ej = 0 \/ ej = 1) by lia.
    destruct C as [-> | ->].
    + specialize (A2 ei Hei E). lia.
    + now apply B2.
  - destruct B3 as [B3 | [B3 B4]].
    + rewrite B3. destruct A3 as [A3 | [A3 A4]].
      * left. congruence.
      * right. split; [assumption|]. exists 0. split; [lia | assumption].
    + right. split; [assumption|]. exists 1. split; [lia | assumption].
Qed.
End MinEdge.

Lemma for_upto_two {St : Type} (body : Z -> St -> option St) (s : St) :
  for_upto 2 body s = (s1 <- body 0 s ;; body 1 s1).
Proof.
  unfold for_upto. change (Z.to_nat 2) with 2%nat. cbn [for_count].
  destruct (body 0 s) as [s1|]; cbn [bind]; [|reflexivity].
  change (0 + 1) with 1. now destruct (body 1 s1).
Qed.

(** Away from the failing input of C5 the second pass does what the
    specification says: on edges with two distinct endpoints each,
    [addVertex] is called exactly once on every vertex an edge refers to and
    on no other vertex, from the least row that holds the vertex. *)
Lemma addVertex_calls_once (vertices_t0 : MatrixXd) (edges : MatrixXi) :
  Forall (proper_edge (rows vertices_t0)) edges ->
  exists calls,
    addVertex_calls vertices_t0 edges = Some calls
    /\ (forall v, referenced edges v -> count_occ Z.eq_dec calls v = 1%nat)
    /\ (forall v, ~ referenced edges v -> count_occ Z.eq_dec calls v = 0%nat)
    /\ (forall v ei ej,
          0 <= ei < rows edges -> 0 <= ej < 2 -> at2 edges ei ej = v ->
          at1 (vertex_to_min_edge (rows vertices_t0) edges) v <= ei).
Proof.
  intros Hproper. set (n := rows vertices_t0) in *.
  destruct (list_eq_dec_nil edges) as [-> | Hne].
  { exists []. split; [reflexivity|]. split; [|split].
    - intros v (r & [] & _).
    - reflexivity.
    - unfold rows; cbn; intros; lia. }
  assert (Hc : cols edges = 2).
  { destruct edges as [|r t]; [congruence|].
    inversion Hproper as [|? ? (a & b & -> & _) _]. reflexivity. }
  assert (Hrows : 0 <= rows edges) by (unfold rows; lia).
  unfold addVertex_calls, for_each_min_edge_vertex. fold n. rewrite Hc.
  set (vt := vertex_to_min_edge n edges).
  set (P := fun (i : Z) (calls : list Z) =>
    forall v,
      (0 <= v < n ->
       count_occ Z.eq_dec calls v = if at1 vt v <? i then 1%nat else 0%nat)
      /\ (~ 0 <= v < n -> count_occ Z.eq_dec calls v = 0%nat)).
  unfold for_upto at 1.
  edestruct (for_count_ind P) as (calls & Hcalls & Hend);
    [| |exists calls; split; [exact Hcalls|]].
  - intros v. split; [intros Hv | reflexivity].
    destruct (vertex_to_min_edge_spec edges n Hproper v Hne Hv) as (_ & Hm).
    fold vt in Hm. cbn [count_occ].
    destruct (Z.ltb_spec (at1 vt v) 0); [lia | reflexivity].
  - intros i t Hi Ht.
    assert (Hrow : 0 <= i < rows edges) by (unfold rows in *; lia).
    destruct (edge_row edges n Hproper i Hrow) as (a & b & Er & Ha & Hb & Hab).
    assert (E0 : at2 edges i 0 = a) by (unfold at2; now rewrite Er).
    assert (E1 : at2 edges i 1 = b) by (unfold at2; now rewrite Er).
    rewrite for_upto_two. cbv zeta. rewrite E0, E1.
    set (xa := if at1 vt a =? i then [a] else []).
    set (xb := if at1 vt b =? i then [b] else []).
    exists ((t ++ xa) ++ xb). split.
    { unfold xa, xb. destruct (at1 vt a =? i); cbn [bind];
        destruct (at1 vt b =? i); now rewrite ?app_nil_r. }
    intros v. destruct (Ht v) as [Hin Hout].
    rewrite !count_occ_app. split.
    + intros Hv. rewrite (Hin Hv).
      destruct (vertex_to_min_edge_spec edges n Hproper v Hne Hv) as (_ & Hm).
      fold vt in Hm.
      assert (Hmem : at1 vt v = i -> v = a \/ v = b).
      { intros Em. destruct Hm as [Hm | (_ & ej & Hej & Hm)]; [lia|].
        rewrite Em in Hm. unfold at2 in Hm. rewrite Er in Hm.
        assert (C : ej = 0 \/ ej = 1) by lia.
        destruct C as [-> | ->]; cbn in Hm; auto. }
      unfold xa, xb.
      destruct (Z.eqb_spec (at1 vt a) i) as [Ea | Ea];
        destruct (Z.eqb_spec (at1 vt b) i) as [Eb | Eb];
        cbn [count_occ];
        repeat match goal with
               | |- context [Z.eq_dec ?x ?y] => destruct (Z.eq_dec x y)
               end;
        subst;
        repeat match goal with
               | |- context [?x <? ?y] => destruct (Z.ltb_spec x y)
               end;
        try lia;
        try (exfalso; assert (Em : at1 vt v = i) by lia;
             destruct (Hmem Em); subst; (congruence || lia)).
    + intros Hv. rewrite (Hout Hv). unfold xa, xb.
      destruct (at1 vt a =? i); destruct (at1 vt b =? i); cbn [count_occ];
        repeat match goal with
               | |- context [Z.eq_dec ?x ?y] => destruct (Z.eq_dec x y)
               end;
        subst; try lia; try reflexivity; exfalso; apply Hv; assumption.
  - rewrite Z.add_0_l, Z2Nat.id in Hend by (unfold rows; lia).
    split; [|split].
    + intros v Hv. apply (referenced_entry edges n Hproper) in Hv.
      destruct Hv as (ei & ej & Hei & Hej & E).
      assert (Hv : 0 <= v < n) by (rewrite <- E; now apply edge_entry).
      destruct (Hend v) as [Hin _]. rewrite (Hin Hv).
      destruct (vertex_to_min_edge_spec edges n Hproper v Hne Hv) as (Hle & _).
      fold vt in Hle. specialize (Hle ei ej Hei Hej E).
      destruct (Z.ltb_spec (at1 vt v) (rows edges)); [reflexivity | lia].
    + intros v Hv. destruct (Hend v) as [Hin Hout].
      destruct (Z_le_dec 0 v) as [H0|]; [|apply Hout; lia].
      destruct (Z_lt_dec v n) as [Hn|]; [|apply Hout; lia].
      rewrite (Hin (conj H0 Hn)).
      destruct (vertex_to_min_edge_spec edges n Hproper v Hne (conj H0 Hn))
        as (_ & Hm).
      fold vt in Hm. destruct Hm as [Hm | (Hm & ej & Hej & E)].
      * destruct (Z.ltb_spec (at1 vt v) (rows edges)); [lia | reflexivity].
      * exfalso. apply Hv. apply (referenced_entry edges n Hproper).
        exists (at1 vt v), ej. auto.
    + intros v ei ej Hei Hej E.
      assert (Hv : 0 <= v < n) by (rewrite <- E; now apply edge_entry).
      destruct (vertex_to_min_edge_spec edges n Hproper v Hne Hv) as (Hle & _).
      eapply Hle; eauto.
Qed.

(** ** Which pairs of equal key the scans reach *)

Lemma HashItem_ltb_lex (a b : HashItem) :
  HashItem_ltb a b = lex_ltb (key a) (id a) (key b) (id b).
Proof. reflexivity. Qed.

Lemma parallel_sort_key_sorted (items : list HashItem) :
  key_sorted (parallel_sort HashItem_ltb items).
Proof.
  assert (Hs : StronglySorted (not_after HashItem_ltb)
                 (parallel_sort HashItem_ltb items)).
  { apply parallel_sort_sorted.
    - intros a. apply lex_ltb_irrefl.
    - intros a b c. apply lex_ltb_trans.
    - intros a b c. apply lex_ltb_cotrans. }
  unfold key_sorted. induction Hs as [|x t Hs IH Hx]; constructor.
  - exact IH.
  - eapply Forall_impl; [|exact Hx].
    intros b. unfold not_after. rewrite HashItem_ltb_lex. lex_cases.
Qed.

Lemma key_sorted_tail (a : HashItem) (l : list HashItem) :
  key_sorted (a :: l) -> key_sorted l /\ forall b, In b l -> key a <= key b.
Proof.
  intros Hs. inversion Hs as [|? ? Ht Ha]; subst.
  split; [assumption | now apply Forall_forall].
Qed.

Lemma key_sorted_app_r (l1 l2 : list HashItem) :
  key_sorted (l1 ++ l2) -> key_sorted l2.
Proof.
  induction l1 as [|x l1 IH]; cbn; [auto|].
  intros Hs. apply IH. now apply key_sorted_tail in Hs.
Qed.

Section ScanReach.
Context {T : Type} `{CandidateType T}.
Variable is_endpoint : Z -> Z -> bool.
Variable is_same_group : Z -> Z -> bool.

Local Abbreviation emitted a b := (emplace (T := T) (id a) (id b)).

Lemma test_pair_emits (a b : HashItem) (candidates : list T) :
  passes is_endpoint is_same_group a b ->
  test_pair is_endpoint is_same_group a b candidates
  = Some (candidates ++ [emitted a b]).
Proof.
  intros (He & Hg & Ho). unfold test_pair. now rewrite He, Hg, Ho.
Qed.

Lemma test_pair_keeps (a b : HashItem) (candidates r : list T) :
  test_pair is_endpoint is_same_group a b candidates = Some r ->
  incl candidates r.
Proof.
  unfold test_pair. destruct (negb _ && negb _).
  - destruct (are_overlapping _ _) as [[|]|]; cbn; intros [= <-].
    + now apply incl_appl, incl_refl.
    + apply incl_refl.
  - intros [= <-]. apply incl_refl.
Qed.

(** The inner scan of the two-bucket join, started on a bucket whose keys
    are not below the key of [item0]: it tests every item of that key and
    is left on the items of larger keys. *)
Lemma scan_run_reach (item0 : HashItem) (s : list HashItem) :
  forall (candidates : list T) from_j r,
  key_sorted s -> (forall b, In b s -> key item0 <= key b) ->
  scan_run is_endpoint is_same_group item0 s candidates = Some (from_j, r) ->
  incl candidates r
  /\ key_sorted from_j
  /\ (forall b, In b from_j -> In b s /\ key item0 < key b)
  /\ (forall b, In b s -> key item0 < key b -> In b from_j)
  /\ (forall b, In b s -> key b = key item0 ->
        passes is_endpoint is_same_group item0 b -> In (emitted item0 b) r).
Proof.
  induction s as [|b0 rest IH]; intros candidates from_j r Hs Hlow; cbn.
  - intros [= <- <-]. split; [apply incl_refl|]. split; [exact Hs|].
    split; [intros b []|]. split; intros b [].
  - destruct (key_sorted_tail _ _ Hs) as [Hrest Hb0].
    destruct (Z.eqb_spec (key item0) (key b0)) as [Hkey | Hkey].
    + intros Hrun. bind_inv Hrun as c1 Hc1.
      destruct (IH c1 from_j r Hrest) as (I1 & I2 & I3 & I4 & I5);
        [intros b Hb; apply Hlow; now right | exact Hrun |].
      pose proof (test_pair_keeps _ _ _ _ Hc1) as Hkeep.
      split; [eapply incl_tran; eauto|]. split; [assumption|].
      split; [intros b Hb; destruct (I3 b Hb); split; [now right | assumption]|].
      split.
      * intros b [<- | Hb] Hlt; [lia | now apply I4].
      * intros b [<- | Hb] Hk Hp; [|now apply I5].
        rewrite (test_pair_emits _ _ _ Hp) in Hc1. injection Hc1 as <-.
        apply I1, in_or_app. right. now left.
    + intros [= <- <-].
      assert (Hlt : key item0 < key b0)
        by (specialize (Hlow b0 (or_introl eq_refl)); lia).
      split; [apply incl_refl|]. split; [assumption|].
      split.
      * intros b Hb. split; [assumption|].
        destruct Hb as [<- | Hb]; [assumption|]. specialize (Hb0 b Hb). lia.
      * split; [intros b Hb _; exact Hb|].
        intros b Hb Hk _. exfalso.
        destruct Hb as [<- | Hb]; [lia|]. specialize (Hb0 b Hb). lia.
Qed.

(** The two-bucket join reaches every pair of equal key when each key of
    the second bucket occurs in the first. *)
Lemma scan_buckets_reach (l0 : list HashItem) :
  forall (s : list HashItem) (candidates r : list T),
  key_sorted l0 -> key_sorted s -> covered l0 s ->
  scan_buckets is_endpoint is_same_group l0 s candidates = Some r ->
  incl candidates r
  /\ (forall a b, In a l0 -> In b s -> key a = key b ->
        passes is_endpoint is_same_group a b -> In (emitted a b) r).
Proof.
  induction l0 as [|item0 next_i IH]; intros s candidates r Hs0 Hs Hcov.
  - cbn. intros [= <-]. split; [apply incl_refl | intros a b []].
  - destruct (list_eq_dec_nil s) as [-> | Hne].
    { cbn. intros [= <-]. split; [apply incl_refl | intros a b _ []]. }
    rewrite scan_buckets_step by assumption.
    intros Hrun. bind_inv Hrun as p Hp. destruct p as [from_j c1].
    destruct (key_sorted_tail _ _ Hs0) as [Hnext Hmin].
    assert (Hlow : forall b, In b s -> key item0 <= key b).
    { intros b Hb. destruct (Hcov b Hb) as (a & [<- | Ha] & <-); [lia|].
      now apply Hmin. }
    destruct (scan_run_reach _ _ _ _ _ Hs Hlow Hp)
      as (R1 & R2 & R3 & R4 & R5).
    destruct next_i as [|item_next rest].
    { cbn in Hrun. injection Hrun as <-. split; [assumption|].
      intros a b [<- | []] Hb Hk Hp'. now apply R5. }
    destruct (Z.eqb_spec (key item0) (key item_next)) as [Hsame | Hdiff];
      cbn [negb] in Hrun.
    + destruct (IH s c1 r Hnext Hs) as [I1 I2]; [|exact Hrun|].
      { intros b Hb. destruct (Hcov b Hb) as (a & [<- | Ha] & Ek).
        - exists item_next. split; [now left | congruence].
        - now exists a. }
      split; [eapply incl_tran; eauto|].
      intros a b [<- | Ha] Hb Hk Hp'; [apply I1; now apply R5 | now apply I2].
    + assert (Hgt : forall a, In a (item_next :: rest) -> key item0 < key a).
      { intros a Ha. pose proof (Hmin a Ha) as H1.
        destruct (key_sorted_tail _ _ Hnext) as [_ Hmin'].
        destruct Ha as [<- | Ha]; [lia|].
        pose proof (Hmin' a Ha). pose proof (Hmin item_next (or_introl eq_refl)).
        lia. }
      destruct (IH from_j c1 r Hnext R2) as [I1 I2]; [|exact Hrun|].
      { intros b Hb. destruct (R3 b Hb) as [Hbs Hlt].
        destruct (Hcov b Hbs) as (a & [<- | Ha] & Ek); [lia|]. now exists a. }
      split; [eapply incl_tran; eauto|].
      intros a b [<- | Ha] Hb Hk Hp'; [apply I1; now apply R5|].
      apply I2; try assumption. apply R4; [assumption|].
      specialize (Hgt a Ha). lia.
Qed.

(** The inner scan of the self-join tests every later item of the key of
    [item0]. *)
Lemma self_run_reach (item0 : HashItem) (s : list HashItem) :
  forall (candidates r : list T),
  key_sorted s -> (forall b, In b s -> key item0 <= key b) ->
  self_run is_endpoint is_same_group item0 s candidates = Some r ->
  incl candidates r
  /\ (forall b, In b s -> key b = key item0 ->
        passes is_endpoint is_same_group item0 b -> In (emitted item0 b) r).
Proof.
  induction s as [|b0 rest IH]; intros candidates r Hs Hlow; cbn.
  - intros [= <-]. split; [apply incl_refl | intros b []].
  - destruct (key_sorted_tail _ _ Hs) as [Hrest Hb0].
    destruct (Z.eqb_spec (key item0) (key b0)) as [Hkey | Hkey].
    + intros Hrun. bind_inv Hrun as c1 Hc1.
      destruct (IH c1 r Hrest) as (I1 & I2);
        [intros b Hb; apply Hlow; now right | exact Hrun |].
      pose proof (test_pair_keeps _ _ _ _ Hc1) as Hkeep.
      split; [eapply incl_tran; eauto|].
      intros b [<- | Hb] Hk Hp; [|now apply I2].
      rewrite (test_pair_emits _ _ _ Hp) in Hc1. injection Hc1 as <-.
      apply I1, in_or_app. right. now left.
    + intros [= <-]. split; [apply incl_refl|].
      intros b Hb Hk _. exfalso.
      specialize (Hlow b0 (or_introl eq_refl)).
      destruct Hb as [<- | Hb]; [lia|]. specialize (Hb0 b Hb). lia.
Qed.

(** The self-join reaches every pair of positions of equal key. *)
Lemma self_scan_reach (l : list HashItem) :
  forall (candidates r : list T),
  key_sorted l ->
  self_scan is_endpoint is_same_group l candidates = Some r ->
  incl candidates r
  /\ (forall l1 a l2 b l3, l = l1 ++ a :: l2 ++ b :: l3 -> key a = key b ->
        passes is_endpoint is_same_group a b -> In (emitted a b) r).
Proof.
  induction l as [|item0 after_i IH]; intros candidates r Hs; cbn.
  - intros [= <-]. split; [apply incl_refl|].
    intros [|? ?] a l2 b l3 E; discriminate.
  - intros Hrun. bind_inv Hrun as c1 Hc1.
    destruct (key_sorted_tail _ _ Hs) as [Hafter Hmin].
    destruct (self_run_reach _ _ _ _ Hafter Hmin Hc1) as [R1 R2].
    destruct (IH c1 r Hafter Hrun) as [I1 I2].
    split; [eapply incl_tran; eauto|].
    intros [|x l1] a l2 b l3 E Hk Hp; cbn in E; injection E as <- ->.
    + apply I1, R2; auto. apply in_or_app. right. now left.
    + eapply I2; eauto.
Qed.
End ScanReach.

(** [std::unique] keeps, for every entry, an entry equal to it. *)
Lemma unique_from_keeps {A : Type} (eqb : A -> A -> bool) :
  (forall a, eqb a a = true) ->
  forall (l : list A) (prev c : A),
  In c l ->
  eqb prev c = true
  \/ exists c', In c' (unique_from eqb prev l) /\ eqb c' c = true.
Proof.
  intros Hrefl. induction l as [|y t IH]; intros prev c; cbn; [tauto|].
  destruct (eqb prev y) eqn:E; intros [<- | Hin].
  - now left.
  - now apply IH.
  - right. exists y. split; [now left | apply Hrefl].
  - right. destruct (IH y c Hin) as [Hy | (c' & Hc' & Ec')].
    + exists y. split; [now left | assumption].
    + exists c'. split; [now right | assumption].
Qed.

Lemma unique_erase_keeps {A : Type} (eqb : A -> A -> bool) :
  (forall a, eqb a a = true) ->
  forall (l : list A) (c : A),
  In c l -> exists c', In c' (unique_erase eqb l) /\ eqb c' c = true.
Proof.
  intros Hrefl [|x t] c; cbn; [tauto|]. intros [<- | Hin].
  - exists x. split; [now left | apply Hrefl].
  - destruct (unique_from_keeps eqb Hrefl t x c Hin) as [Hx | (c' & Hc' & Ec')].
    + exists x. split; [now left | assumption].
    + exists c'. split; [now right | assumption].
Qed.

Lemma cand_eqb_refl {T : Type} `{CandidateLaws T} (a : T) : cand_eqb a a = true.
Proof. now rewrite cand_eqb_equiv, cand_ltb_irrefl. Qed.

(** Under the lexicographic order equal candidates are the same tuple. *)
Lemma cand_eqb_eq (k : QueryKind) (a b : CandidateOf k) :
  cand_eqb a b = true -> a = b.
Proof.
  destruct k, a, b; cbn; intros E; apply andb_true_iff in E;
    destruct E as [E0 E1]; apply Z.eqb_eq in E0, E1; now subst.
Qed.

Lemma sorted_result_keeps (k : QueryKind) (l : list (CandidateOf k))
  (c : CandidateOf k) :
  In c l -> In c (unique_erase cand_eqb (parallel_sort cand_ltb l)).
Proof.
  intros Hin.
  destruct (unique_erase_keeps cand_eqb (fun a => cand_eqb_refl a)
              (parallel_sort cand_ltb l) c) as (c' & Hc' & E).
  - now apply parallel_sort_In.
  - apply cand_eqb_eq in E. now subst.
Qed.

Lemma covered_sort (items0 items1 : list HashItem) :
  covered items0 items1 ->
  covered (parallel_sort HashItem_ltb items0)
          (parallel_sort HashItem_ltb items1).
Proof.
  intros Hcov b Hb. apply parallel_sort_In in Hb.
  destruct (Hcov b Hb) as (a & Ha & E). exists a.
  split; [now apply parallel_sort_In | assumption].
Qed.

Lemma two_positions_perm {A : Type} (l1 l2 l3 s : list A) (a b : A) :
  Permutation (l1 ++ a :: l2 ++ b :: l3) s ->
  (exists s1 s2 s3, s = s1 ++ a :: s2 ++ b :: s3)
  \/ (exists s1 s2 s3, s = s1 ++ b :: s2 ++ a :: s3).
Proof.
  intros Hp.
  assert (Ha : In a s).
  { eapply Permutation_in; [exact Hp|]. apply in_or_app. right. now left. }
  destruct (in_split _ _ Ha) as (s1 & s' & ->).
  apply Permutation_app_inv in Hp.
  assert (Hb : In b (s1 ++ s')).
  { eapply Permutation_in; [exact Hp|]. apply in_or_app. right.
    apply in_or_app. right. now left. }
  apply in_app_or in Hb. destruct Hb as [Hb | Hb].
  - destruct (in_split _ _ Hb) as (t1 & t2 & ->). right.
    exists t1, t2, s'. now rewrite <- app_assoc.
  - destruct (in_split _ _ Hb) as (t1 & t2 & ->). left.
    now exists s1, t1, t2.
Qed.

(** The two-bucket queries are complete on the keys when every key of the
    second bucket occurs in the first: each pair of items of equal key that
    passes the tests is returned. *)
Lemma query_reaches_covered (k : QueryKind) (g : HashGrid) (m : Mesh)
  (candidates : list (CandidateOf k)) (g' : HashGrid)
  (r : list (CandidateOf k)) :
  k <> EdgeEdge ->
  covered (bucket0 k g) (bucket1 k g) ->
  query k g m candidates = Some (g', r) ->
  forall a b, In a (bucket0 k g) -> In b (bucket1 k g) -> key a = key b ->
    passes (is_endpoint k m) (is_same_group k m) a b ->
    In (emplace (id a) (id b)) r.
Proof.
  intros Hk Hcov Hq a b Ha Hb Hkey Hp.
  assert (Hscan : exists found,
    scan_buckets (is_endpoint k m) (is_same_group k m)
      (parallel_sort HashItem_ltb (bucket0 k g))
      (parallel_sort HashItem_ltb (bucket1 k g)) candidates = Some found
    /\ r = unique_erase cand_eqb (parallel_sort cand_ltb found)).
  { destruct k; try congruence;
      cbn [query CandidateOf bucket0 bucket1 is_endpoint is_same_group] in *;
      unfold getVertexEdgePairs, getEdgeFacePairs, getFaceVertexPairs,
        getPairs in Hq;
      bind_inv Hq as p Hp'; bind_inv Hp' as found Hfound;
      injection Hp' as <-; injection Hq as _ <-; now exists found. }
  destruct Hscan as (found & Hfound & ->).
  apply sorted_result_keeps.
  destruct (scan_buckets_reach _ _ _ _ _ _
              (parallel_sort_key_sorted _) (parallel_sort_key_sorted _)
              (covered_sort _ _ Hcov) Hfound) as [_ Hreach].
  apply Hreach; try assumption; now apply parallel_sort_In.
Qed.

(** The edge-edge query is complete on the keys: of two edge items at
    different positions of the bucket that share a key and pass the tests,
    the pair of ids is returned in the order of the sorted bucket. *)
Lemma edge_edge_query_reaches (g : HashGrid) (m : Mesh)
  (candidates : list EdgeEdgeCandidate) (g' : HashGrid)
  (r : list EdgeEdgeCandidate) :
  query EdgeEdge g m candidates = Some (g', r) ->
  forall l1 a l2 b l3,
    m_edgeItems g = l1 ++ a :: l2 ++ b :: l3 -> key a = key b ->
    passes (is_endpoint EdgeEdge m) (is_same_group EdgeEdge m) a b ->
    passes (is_endpoint EdgeEdge m) (is_same_group EdgeEdge m) b a ->
    In (mkEdgeEdgeCandidate (id a) (id b)) r
    \/ In (mkEdgeEdgeCandidate (id b) (id a)) r.
Proof.
  cbn [query CandidateOf is_endpoint is_same_group].
  unfold getEdgeEdgePairs, getPairs_self.
  intros Hq l1 a l2 b l3 El Hkey Hab Hba.
  bind_inv Hq as p Hp. bind_inv Hp as found Hfound.
  injection Hp as <-. injection Hq as _ <-.
  destruct (self_scan_reach _ _ _ _ _ (parallel_sort_key_sorted _) Hfound)
    as [_ Hreach].
  pose proof (parallel_sort_perm HashItem_ltb (m_edgeItems g)) as Hperm.
  rewrite El in Hperm at 2. symmetry in Hperm.
  destruct (two_positions_perm _ _ _ _ _ _ Hperm)
    as [(s1 & s2 & s3 & Es) | (s1 & s2 & s3 & Es)].
  - left. apply (sorted_result_keeps EdgeEdge).
    eapply (Hreach s1 a s2 b s3); eauto.
  - right. apply (sorted_result_keeps EdgeEdge).
    eapply (Hreach s1 b s2 a s3); eauto.
Qed.

(** ** The pair extractor over any candidate type *)

(** [getPairs<T>] leaves a strictly increasing candidate list for every
    element type whose [operator<] and [operator==] meet the contract of
    [std::sort] and [std::unique], whatever its fields are. *)
Section AnyCandidateType.
Context {T : Type} `{CandidateLaws T}.
Variable is_endpoint : Z -> Z -> bool.
Variable is_same_group : Z -> Z -> bool.

Lemma sort_unique_candidates (l : list T) :
  StronglySorted (before cand_ltb)
    (unique_erase cand_eqb (parallel_sort cand_ltb l)).
Proof.
  apply sort_unique_increasing.
  - apply cand_ltb_irrefl.
  - apply cand_ltb_trans.
  - apply cand_ltb_cotrans.
  - apply cand_eqb_equiv.
Qed.

Lemma getPairs_increasing (items0 items1 sorted0 sorted1 : list HashItem)
  (candidates r : list T) :
  getPairs is_endpoint is_same_group items0 items1 candidates
  = Some (sorted0, sorted1, r) ->
  StronglySorted (before cand_ltb) r /\ NoDup r.
Proof.
  intros Hrun. destruct (getPairs_spec _ _ _ _ _ _ _ _ Hrun) as (e & -> & _).
  pose proof (sort_unique_candidates (candidates ++ e)) as Hs.
  split; [exact Hs|].
  eapply increasing_NoDup; [apply cand_ltb_irrefl | exact Hs].
Qed.

Lemma getPairs_self_increasing (items sorted : list HashItem)
  (candidates r : list T) :
  getPairs_self is_endpoint is_same_group items candidates
  = Some (sorted, r) ->
  StronglySorted (before cand_ltb) r /\ NoDup r.
Proof.
  intros Hrun. destruct (getPairs_self_spec _ _ _ _ _ _ Hrun) as (e & -> & _).
  pose proof (sort_unique_candidates (candidates ++ e)) as Hs.
  split; [exact Hs|].
  eapply increasing_NoDup; [apply cand_ltb_irrefl | exact Hs].
Qed.
End AnyCandidateType.

(** ** The scenarios of the specification on the embedding *)

(** S3: the two skew edges are the one candidate. *)
Example skew_edges_candidate :
  skew_query = Some [mkEdgeEdgeCandidate 0 1].
Proof. vm_compute. reflexivity. Qed.

(** S4: two edges with a common endpoint are no candidate. *)
Example fan_edges_filtered : fan_query = Some [].
Proof. vm_compute. reflexivity. Qed.

(** S5: with the group labels the pair of edge 0 and vertex 1, found
    without labels, is dropped. *)
Example same_group_filtered :
  populate_and_query 0%Q = Some [mkEdgeVertexCandidate 0 1]
  /\ same_group_query = Some [].
Proof. split; vm_compute; reflexivity. Qed.

(** S6: the pair is found once per shared cell and returned once. *)
Example four_cells_deduplicated :
  four_cells_raw
  = Some [mkEdgeVertexCandidate 0 0; mkEdgeVertexCandidate 0 0;
          mkEdgeVertexCandidate 0 0; mkEdgeVertexCandidate 0 0]
  /\ four_cells_query = Some [mkEdgeVertexCandidate 0 0].
Proof. split; vm_compute; reflexivity. Qed.

(** ** Overlapping boxes share a cell *)

Lemma cast_int_floor (q : Q) : 0 <= Qnum q -> cast_int q = Qfloor q.
Proof.
  destruct q as [a b]. cbn. intros Ha. now apply Z.quot_div_nonneg.
Qed.

Lemma cast_int_ceiling (q : Q) : Qnum q < 0 -> cast_int q = Qceiling q.
Proof.
  destruct q as [a b]. unfold Qceiling, cast_int. cbn. intros Ha.
  replace a with (- - a) at 1 by lia.
  rewrite Z.quot_opp_l by lia.
  now rewrite Z.quot_div_nonneg by lia.
Qed.

Lemma Qfloor_nonneg (q : Q) : 0 <= Qnum q -> 0 <= Qfloor q.
Proof. destruct q as [a b]. cbn. intros Ha. apply Z.div_pos; lia. Qed.

Lemma Qceiling_nonpos (q : Q) : Qnum q < 0 -> Qceiling q <= 0.
Proof.
  destruct q as [a b]. unfold Qceiling. cbn. intros Ha.
  assert (0 <= - a / Z.pos b) by (apply Z.div_pos; lia). lia.
Qed.

(** Truncation toward zero is monotone. *)
Lemma cast_int_mono (q1 q2 : Q) :
  (q1 <= q2)%Q -> cast_int q1 <= cast_int q2.
Proof.
  intros Hle.
  destruct (Z_lt_le_dec (Qnum q1) 0) as [H1 | H1];
    destruct (Z_lt_le_dec (Qnum q2) 0) as [H2 | H2].
  - rewrite !cast_int_ceiling by assumption. now apply Qceiling_resp_le.
  - rewrite cast_int_ceiling, cast_int_floor by assumption.
    pose proof (Qceiling_nonpos q1 H1). pose proof (Qfloor_nonneg q2 H2). lia.
  - exfalso. unfold Qle in Hle. nia.
  - rewrite !cast_int_floor by assumption. now apply Qfloor_resp_le.
Qed.

Lemma zip_with_length {A B C : Type} (f : A -> B -> C) (a : list A)
  (b : list B) :
  length (zip_with f a b) = Nat.min (length a) (length b).
Proof.
  revert b. induction a as [|x a IH]; intros [|y b]; cbn; auto.
Qed.

Lemma nth_zip_with {A B C : Type} (f : A -> B -> C) (da : A) (db : B)
  (dc : C) (a : list A) (b : list B) (i : nat) :
  (i < length a)%nat -> (i < length b)%nat ->
  nth i (zip_with f a b) dc = f (nth i a da) (nth i b db).
Proof.
  revert b i. induction a as [|x a IH]; intros [|y b] [|i]; cbn;
    intros Ha Hb; try lia; [reflexivity | apply IH; lia].
Qed.

Lemma nth_map_lt {A B : Type} (f : A -> B) (da : A) (db : B) (l : list A)
  (i : nat) :
  (i < length l)%nat -> nth i (map f l) db = f (nth i l da).
Proof.
  revert i. induction l as [|x l IH]; intros [|i]; cbn; intros Hi; try lia;
    [reflexivity | apply IH; lia].
Qed.

Section CellRange.
Variable g : HashGrid.
Variable d : nat.
Hypothesis grid_d : grid_dimension g d.

Lemma length_clamped (v : ArrayMax3d) :
  length v = d -> length (clamp_cell g (cell_of g v)) = d.
Proof.
  destruct grid_d as (_ & Hdom & Hgs). intros Hv.
  unfold clamp_cell, cell_of.
  rewrite zip_with_length, !length_map, zip_with_length. lia.
Qed.

Lemma coeffi_clamped (v : ArrayMax3d) (i : nat) :
  length v = d -> (i < d)%nat ->
  coeffi (clamp_cell g (cell_of g v)) i = cell_index g v i.
Proof.
  destruct grid_d as (_ & Hdom & Hgs). intros Hv Hi.
  unfold clamp_cell, cell_of, cell_index, coeffi, coeffd.
  rewrite (nth_zip_with _ 0 0);
    [|rewrite !length_map, zip_with_length; lia | rewrite length_map; lia].
  rewrite (nth_map_lt _ 0) by (rewrite !length_map, zip_with_length; lia).
  rewrite (nth_map_lt _ 0%Q) by (rewrite length_map, zip_with_length; lia).
  rewrite (nth_map_lt _ 0%Q) by (rewrite zip_with_length; lia).
  rewrite (nth_zip_with _ 0%Q 0%Q) by lia.
  rewrite (nth_map_lt _ 0) by lia. reflexivity.
Qed.

Lemma cell_index_mono (v w : ArrayMax3d) (i : nat) :
  (0 < m_cellSize g)%Q -> (coeffd v i <= coeffd w i)%Q ->
  cell_index g v i <= cell_index g w i.
Proof.
  intros Hc Hvw. unfold cell_index.
  assert (H : cast_int ((coeffd v i - coeffd (m_domainMin g) i)
                        / m_cellSize g)
              <= cast_int ((coeffd w i - coeffd (m_domainMin g) i)
                           / m_cellSize g)).
  { apply cast_int_mono. unfold Qdiv.
    apply Qmult_le_compat_r; [lra|]. apply Qinv_le_0_compat. lra. }
  lia.
Qed.
End CellRange.

Lemma for_count_incl {A : Type} (body : Z -> list A -> option (list A)) :
  (forall i t t', body i t = Some t' -> incl t t') ->
  forall n x s s', for_count n x body s = Some s' -> incl s s'.
Proof.
  intros Hbody. induction n as [|n IH]; intros x s s' Hrun; cbn in Hrun.
  - injection Hrun as <-. apply incl_refl.
  - bind_inv Hrun as s1 Hs1. eapply incl_tran; eauto.
Qed.

(** A loop over a growing list runs its body on every index of its range,
    and what the body leaves stays. *)
Lemma for_count_visit {A : Type} (body : Z -> list A -> option (list A)) :
  (forall i t t', body i t = Some t' -> incl t t') ->
  forall n x s s' i0,
  x <= i0 < x + Z.of_nat n ->
  for_count n x body s = Some s' ->
  exists t t', body i0 t = Some t' /\ incl t' s'.
Proof.
  intros Hbody. induction n as [|n IH]; intros x s s' i0 Hi Hrun; [lia|].
  cbn in Hrun. bind_inv Hrun as s1 Hs1.
  destruct (Z.eq_dec i0 x) as [-> | Hne].
  - exists s, s1. split; [assumption|].
    eapply for_count_incl; eauto.
  - eapply IH; [|exact Hrun]. lia.
Qed.

Lemma for_incl_visit {A : Type} (body : Z -> list A -> option (list A))
  (lo hi : Z) (s s' : list A) (i0 : Z) :
  for_incl lo hi body s = Some s' ->
  lo <= i0 <= hi ->
  (forall i t t', body i t = Some t' -> incl t t') ->
  exists t t', body i0 t = Some t' /\ incl t' s'.
Proof.
  unfold for_incl. intros Hrun Hi Hbody.
  eapply for_count_visit; [exact Hbody | | exact Hrun]. lia.
Qed.

Lemma for_incl_incl {A : Type} (body : Z -> list A -> option (list A)) :
  (forall i t t', body i t = Some t' -> incl t t') ->
  forall lo hi s s', for_incl lo hi body s = Some s' -> incl s s'.
Proof. intros Hbody lo hi s s'. unfold for_incl. now apply for_count_incl. Qed.

(** [addElement] appends an item for every cell between the clamped cell
    of the lower and of the upper corner of the box. *)
Lemma addElement_covers (g : HashGrid) (d : nat) (box : AABB) (id0 : Z)
  (items items' : list HashItem) :
  grid_dimension g d -> built_box d box ->
  addElement g box id0 items = Some items' ->
  forall x y z,
    cell_index g (getMin box) 0 <= x <= cell_index g (getMax box) 0 ->
    cell_index g (getMin box) 1 <= y <= cell_index g (getMax box) 1 ->
    (if (d =? 3)%nat
     then cell_index g (getMin box) 2 <= z <= cell_index g (getMax box) 2
     else z = 0) ->
    exists k, hash g x y z = Some k
              /\ In (HashItem_ctor k id0 box) items'.
Proof.
  intros Hg [Hlen Hctor] Hadd x y z Hx Hy Hz.
  assert (Hlen' : length (getMax box) = d).
  { unfold AABB_ctor in Hctor. pre_inv Hctor Hl.
    apply Nat.eqb_eq in Hl. lia. }
  assert (Hd : (0 < d)%nat /\ (1 < d)%nat)
    by (destruct Hg as ([-> | ->] & _); lia).
  unfold addElement in Hadd.
  pre_inv Hadd H1. pre_inv Hadd H2. pre_inv Hadd H3. pre_inv Hadd H4.
  pre_inv Hadd H5. clear H1 H2 H3 H4 H5.
  rewrite !(length_clamped g d Hg) in Hadd by assumption.
  rewrite !(coeffi_clamped g d Hg) in Hadd by (assumption || lia).
  assert (Hinner : forall x y i t t',
    (k <- hash g x y i ;; Some (t ++ [HashItem_ctor k id0 box])) = Some t' ->
    incl t t').
  { intros x0 y0 i t t' Hb. bind_inv Hb as k Hk. injection Hb as <-.
    now apply incl_appl, incl_refl. }
  apply for_incl_visit with (i0 := x) in Hadd;
    [ | exact Hx
      | intros i t t'; apply for_incl_incl; intros j u u';
        apply for_incl_incl; intros l v v'; apply Hinner ].
  destruct Hadd as (t1 & t1' & Hrun1 & Hincl1).
  apply for_incl_visit with (i0 := y) in Hrun1;
    [ | exact Hy
      | intros j u u'; apply for_incl_incl; intros l v v'; apply Hinner ].
  destruct Hrun1 as (t2 & t2' & Hrun2 & Hincl2).
  apply for_incl_visit with (i0 := z) in Hrun2;
    [ | | intros l v v'; apply Hinner ].
  2:{ destruct (d =? 3)%nat eqn:Ed; [|lia].
      apply Nat.eqb_eq in Ed.
      rewrite !(coeffi_clamped g d Hg) by (assumption || lia). exact Hz. }
  destruct Hrun2 as (t3 & t3' & Hrun3 & Hincl3).
  bind_inv Hrun3 as k Hk. injection Hrun3 as <-.
  exists k. split; [assumption|].
  apply Hincl1, Hincl2, Hincl3, in_or_app. right. now left.
Qed.

Lemma all2_nth {A B : Type} (f : A -> B -> bool) (da : A) (db : B)
  (a : list A) (b : list B) (i : nat) :
  all2 f a b = true -> (i < length a)%nat -> (i < length b)%nat ->
  f (nth i a da) (nth i b db) = true.
Proof.
  unfold all2. revert b i.
  induction a as [|x a IH]; intros b i Hall Ha Hb; [cbn in Ha; lia|].
  destruct b as [|y b]; [cbn in Hb; lia|].
  cbn in Hall. apply andb_true_iff in Hall. destruct Hall as [Hxy Hrest].
  destruct i as [|i]; cbn; [exact Hxy|].
  apply IH; [exact Hrest | cbn in Ha; lia | cbn in Hb; lia].
Qed.

(** The coordinates of a box as its constructor leaves them. *)
Lemma built_box_axis (d : nat) (box : AABB) (i : nat) :
  built_box d box -> (i < d)%nat ->
  (coeffd (getMin box) i <= coeffd (getMax box) i)%Q
  /\ coeffd (getHalfExtent box) i
     = ((coeffd (getMax box) i - coeffd (getMin box) i) / 2)%Q
  /\ coeffd (getCenter box) i
     = (coeffd (getMin box) i
        + (coeffd (getMax box) i - coeffd (getMin box) i) / 2)%Q.
Proof.
  intros [Hlen Hctor] Hi. unfold AABB_ctor in Hctor.
  pre_inv Hctor Hl. pre_inv Hctor Hle. injection Hctor as E.
  apply Nat.eqb_eq in Hl.
  pose proof (f_equal getHalfExtent E) as Eh.
  pose proof (f_equal getCenter E) as Ec. cbn in Eh, Ec.
  assert (Hh : coeffd (getHalfExtent box) i
               = ((coeffd (getMax box) i - coeffd (getMin box) i) / 2)%Q).
  { rewrite <- Eh. unfold coeffd.
    rewrite (nth_map_lt _ 0%Q) by (rewrite zip_with_length; lia).
    now rewrite (nth_zip_with _ 0%Q 0%Q) by lia. }
  split; [|split].
  - apply Qle_bool_iff. unfold coeffd. apply all2_nth; [assumption|lia|lia].
  - exact Hh.
  - rewrite <- Ec. unfold coeffd.
    rewrite (nth_zip_with _ 0%Q 0%Q);
      [|lia | rewrite length_map, zip_with_length; lia].
    rewrite (nth_map_lt _ 0%Q) by (rewrite zip_with_length; lia).
    now rewrite (nth_zip_with _ 0%Q 0%Q) by lia.
Qed.

(** The overlap test on one axis is the comparison of the corners. *)
Lemma axis_overlap (d : nat) (a b : AABB) (i : nat) :
  built_box d a -> built_box d b -> (i < d)%nat ->
  Qle_bool (Qabs (coeffd (getCenter a) i - coeffd (getCenter b) i))
           (coeffd (getHalfExtent a) i + coeffd (getHalfExtent b) i) = true ->
  (coeffd (getMin a) i <= coeffd (getMax b) i)%Q
  /\ (coeffd (getMin b) i <= coeffd (getMax a) i)%Q.
Proof.
  intros Ha Hb Hi Ho.
  destruct (built_box_axis d a i Ha Hi) as (_ & Eha & Eca).
  destruct (built_box_axis d b i Hb Hi) as (_ & Ehb & Ecb).
  rewrite Eha, Eca, Ehb, Ecb in Ho.
  apply Qle_bool_iff, Qabs_Qle_condition in Ho. destruct Ho as [H1 H2].
  unfold Qdiv in *. change (/ 2)%Q with (1 # 2)%Q in *.
  split; lra.
Qed.

(** Two boxes that pass the overlap test are stored under a common key:
    on a grid with a positive cell size, [addElement] appends for each of
    them an item of one and the same cell. *)
Lemma overlapping_boxes_share_key (g : HashGrid) (d : nat) (a b : AABB)
  (ida idb : Z) (items_a items_a' items_b items_b' : list HashItem) :
  grid_dimension g d -> (0 < m_cellSize g)%Q ->
  built_box d a -> built_box d b ->
  addElement g a ida items_a = Some items_a' ->
  addElement g b idb items_b = Some items_b' ->
  are_overlapping a b = Some true ->
  exists k,
    In (mkHashItem k ida a) items_a' /\ In (mkHashItem k idb b) items_b'.
Proof.
  intros Hg Hc Ha Hb Hadd_a Hadd_b Ho.
  assert (Hd : (0 < d)%nat /\ (1 < d)%nat /\ (d = 2 \/ d = 3)%nat)
    by (destruct Hg as ([-> | ->] & _); lia).
  destruct Hd as (Hd0 & Hd1 & Hd23).
  unfold are_overlapping in Ho. pre_inv Ho Hdim. injection Ho as Ho.
  apply andb_true_iff in Ho. destruct Ho as [Ho Hoz].
  apply andb_true_iff in Ho. destruct Ho as [Hox Hoy].
  destruct (axis_overlap d a b 0 Ha Hb Hd0 Hox) as [X1 X2].
  destruct (axis_overlap d a b 1 Ha Hb Hd1 Hoy) as [Y1 Y2].
  destruct (built_box_axis d a 0 Ha Hd0) as (Xa & _).
  destruct (built_box_axis d b 0 Hb Hd0) as (Xb & _).
  destruct (built_box_axis d a 1 Ha Hd1) as (Ya & _).
  destruct (built_box_axis d b 1 Hb Hd1) as (Yb & _).
  pose proof (fun v w i => cell_index_mono g v w i Hc) as Hmono.
  set (x := Z.max (cell_index g (getMin a) 0) (cell_index g (getMin b) 0)).
  set (y := Z.max (cell_index g (getMin a) 1) (cell_index g (getMin b) 1)).
  set (z := if (d =? 3)%nat
            then Z.max (cell_index g (getMin a) 2) (cell_index g (getMin b) 2)
            else 0).
  assert (Hx : (cell_index g (getMin a) 0 <= x <= cell_index g (getMax a) 0)
               /\ (cell_index g (getMin b) 0 <= x <= cell_index g (getMax b) 0)).
  { pose proof (Hmono _ _ 0%nat X1). pose proof (Hmono _ _ 0%nat X2).
    pose proof (Hmono _ _ 0%nat Xa). pose proof (Hmono _ _ 0%nat Xb).
    unfold x. lia. }
  assert (Hy : (cell_index g (getMin a) 1 <= y <= cell_index g (getMax a) 1)
               /\ (cell_index g (getMin b) 1 <= y <= cell_index g (getMax b) 1)).
  { pose proof (Hmono _ _ 1%nat Y1). pose proof (Hmono _ _ 1%nat Y2).
    pose proof (Hmono _ _ 1%nat Ya). pose proof (Hmono _ _ 1%nat Yb).
    unfold y. lia. }
  assert (Hz : (if (d =? 3)%nat
                then cell_index g (getMin a) 2 <= z <= cell_index g (getMax a) 2
                else z = 0)
               /\ (if (d =? 3)%nat
                   then cell_index g (getMin b) 2 <= z
                        <= cell_index g (getMax b) 2
                   else z = 0)).
  { unfold z. destruct (d =? 3)%nat eqn:Ed; [|split; reflexivity].
    apply Nat.eqb_eq in Ed.
    assert (Hd2 : (2 < d)%nat) by lia.
    destruct Ha as [Hlen_a Hctor_a].
    rewrite Hlen_a, Ed in Hoz. cbn [Nat.eqb orb] in Hoz.
    destruct (axis_overlap d a b 2 (conj Hlen_a Hctor_a) Hb Hd2 Hoz)
      as [Z1 Z2].
    destruct (built_box_axis d a 2 (conj Hlen_a Hctor_a) Hd2) as (Za & _).
    destruct (built_box_axis d b 2 Hb Hd2) as (Zb & _).
    pose proof (Hmono _ _ 2%nat Z1). pose proof (Hmono _ _ 2%nat Z2).
    pose proof (Hmono _ _ 2%nat Za). pose proof (Hmono _ _ 2%nat Zb).
    lia. }
  destruct (addElement_covers g d a ida _ _ Hg Ha Hadd_a x y z
              (proj1 Hx) (proj1 Hy) (proj1 Hz)) as (k & Hk & Hin_a).
  destruct (addElement_covers g d b idb _ _ Hg Hb Hadd_b x y z
              (proj2 Hx) (proj2 Hy) (proj2 Hz)) as (k' & Hk' & Hin_b).
  rewrite Hk in Hk'. injection Hk' as <-.
  exists (int_of_long k). split; assumption.
Qed.

(** ** Completeness of the edge-edge query *)

Lemma AABB_ctor_built (d : nat) (min max : ArrayMax3d) (box : AABB) :
  AABB_ctor min max = Some box -> length min = d -> built_box d box.
Proof.
  intros Hctor Hlen. pose proof Hctor as Hcopy. unfold AABB_ctor in Hctor.
  pre_inv Hctor H1. pre_inv Hctor H2. injection Hctor as <-.
  split; cbn; assumption.
Qed.

Lemma are_overlapping_sym (a b : AABB) :
  are_overlapping a b = Some true -> are_overlapping b a = Some true.
Proof.
  unfold are_overlapping. intros Ho. pre_inv Ho Hdim. injection Ho as Ho.
  apply Nat.eqb_eq in Hdim. rewrite <- Hdim, Nat.eqb_refl. cbn [precondition bind].
  f_equal.
  assert (Hsym : forall x y hx hy,
    Qle_bool (Qabs (x - y)) (hx + hy) = true ->
    Qle_bool (Qabs (y - x)) (hy + hx) = true).
  { intros x y hx hy H. apply Qle_bool_iff. apply Qle_bool_iff in H.
    rewrite Qabs_Qminus, (Qplus_comm hy hx). exact H. }
  apply andb_true_iff in Ho. destruct Ho as [Ho Hoz].
  apply andb_true_iff in Ho. destruct Ho as [Hox Hoy].
  rewrite (Hsym _ _ _ _ Hox), (Hsym _ _ _ _ Hoy). cbn [andb].
  apply orb_true_iff in Hoz. apply orb_true_iff.
  destruct Hoz as [Hz | Hz]; [now left | right; now apply Hsym].
Qed.

Lemma ee_is_endpoint_sym (edges : MatrixXi) (ei ej : Z) :
  ee_is_endpoint edges ej ei = ee_is_endpoint edges ei ej.
Proof.
  unfold ee_is_endpoint.
  rewrite (Z.eqb_sym (at2 edges ej 0) (at2 edges ei 0)),
    (Z.eqb_sym (at2 edges ej 0) (at2 edges ei 1)),
    (Z.eqb_sym (at2 edges ej 1) (at2 edges ei 0)),
    (Z.eqb_sym (at2 edges ej 1) (at2 edges ei 1)).
  repeat match goal with |- context [?x =? ?y] => destruct (x =? y) end;
    reflexivity.
Qed.

Lemma ee_is_same_group_sym (edges : MatrixXi) (group_ids : VectorXi)
  (ei ej : Z) :
  ee_is_same_group edges group_ids ej ei
  = ee_is_same_group edges group_ids ei ej.
Proof.
  unfold ee_is_same_group. f_equal.
  rewrite (Z.eqb_sym (at1 group_ids (at2 edges ej 0))
                     (at1 group_ids (at2 edges ei 0))),
    (Z.eqb_sym (at1 group_ids (at2 edges ej 0))
               (at1 group_ids (at2 edges ei 1))),
    (Z.eqb_sym (at1 group_ids (at2 edges ej 1))
               (at1 group_ids (at2 edges ei 0))),
    (Z.eqb_sym (at1 group_ids (at2 edges ej 1))
               (at1 group_ids (at2 edges ei 1))).
  repeat match goal with |- context [?x =? ?y] => destruct (x =? y) end;
    reflexivity.
Qed.

Lemma addElement_incl (g : HashGrid) (box : AABB) (id0 : Z)
  (items items' : list HashItem) :
  addElement g box id0 items = Some items' -> incl items items'.
Proof.
  intros H. destruct (addElement_appends _ _ _ _ _ H) as (new & -> & _).
  now apply incl_appl, incl_refl.
Qed.

(** [addEdges] runs [addElement] on the swept box of every edge, and the
    items it appends are in the edge bucket afterwards. *)
Lemma addEdges_items (g g1 : HashGrid) (vertices_t0 vertices_t1 : MatrixXd)
  (edges : MatrixXi) (inflation_radius : Q) (ei : Z) :
  addEdges g vertices_t0 vertices_t1 edges inflation_radius = Some g1 ->
  0 <= ei < rows edges ->
  exists box items items',
    swept_edge_box vertices_t0 vertices_t1 edges inflation_radius ei
    = Some box
    /\ addElement g box (int_of_long ei) items = Some items'
    /\ incl items' (m_edgeItems g1).
Proof.
  unfold addEdges. intros Hadd Hei. pre_inv Hadd Hrows.
  bind_inv Hadd as local_items Hlocal. injection Hadd as <-.
  unfold for_upto in Hlocal.
  eapply for_count_visit with (i0 := ei) in Hlocal.
  - destruct Hlocal as (t & t' & Hbody & Hincl).
    unfold addEdge_into in Hbody. bind_inv Hbody as box Hbox.
    exists box, t, t'. split; [exact Hbox|]. split; [exact Hbody|].
    cbn. unfold merge_local_items. now apply incl_appr.
  - intros i t t' Hbody. unfold addEdge_into in Hbody.
    bind_inv Hbody as box Hbox. eapply addElement_incl; eauto.
  - unfold rows in *. lia.
Qed.

Lemma row_dimension (d : nat) (V : MatrixXd) (vi : Z) :
  positions_of_dimension d V -> 0 <= vi < rows V -> length (row V vi) = d.
Proof.
  unfold positions_of_dimension, rows, row. intros HV Hvi.
  rewrite Forall_forall in HV. apply HV, nth_In. lia.
Qed.

Lemma swept_edge_box_built (d : nat) (vertices_t0 vertices_t1 : MatrixXd)
  (edges : MatrixXi) (inflation_radius : Q) (ei : Z) (box : AABB) :
  positions_of_dimension d vertices_t0 ->
  positions_of_dimension d vertices_t1 ->
  rows vertices_t1 = rows vertices_t0 ->
  Forall (proper_edge (rows vertices_t0)) edges ->
  0 <= ei < rows edges ->
  swept_edge_box vertices_t0 vertices_t1 edges inflation_radius ei
  = Some box ->
  built_box d box.
Proof.
  intros H0 H1 Hrows Hproper Hei Hbox.
  unfold swept_edge_box, inflated_box in Hbox.
  eapply AABB_ctor_built; [exact Hbox|].
  pose proof (edge_entry edges _ Hproper ei 0 Hei ltac:(lia)) as Ha.
  pose proof (edge_entry edges _ Hproper ei 1 Hei ltac:(lia)) as Hb.
  unfold sub_scalar, calculate_edge_extents, cwiseMin. cbn [fst].
  rewrite length_map, !zip_with_length.
  rewrite !(row_dimension d vertices_t0) by assumption.
  rewrite !(row_dimension d vertices_t1) by (assumption || lia).
  lia.
Qed.

Lemma two_positions {A : Type} (l : list A) (a b : A) :
  In a l -> In b l -> a <> b ->
  (exists l1 l2 l3, l = l1 ++ a :: l2 ++ b :: l3)
  \/ (exists l1 l2 l3, l = l1 ++ b :: l2 ++ a :: l3).
Proof.
  intros Ha Hb Hne. destruct (in_split _ _ Ha) as (l1 & l' & ->).
  apply in_app_or in Hb. destruct Hb as [Hb | [Hb | Hb]].
  - destruct (in_split _ _ Hb) as (t1 & t2 & ->). right.
    exists t1, t2, l'. now rewrite <- app_assoc.
  - congruence.
  - destruct (in_split _ _ Hb) as (t1 & t2 & ->). left.
    now exists l1, t1, t2.
Qed.

(** Over exact arithmetic the edge-edge query is complete: on a grid with
    a positive cell size populated by [addEdges], every two edges whose
    inflated swept boxes overlap and that pass both filters are returned as
    a candidate, the smaller position of the sorted bucket first. *)
Theorem edge_edge_query_complete (g g1 g2 : HashGrid) (d : nat)
  (vertices_t0 vertices_t1 : MatrixXd) (m : Mesh) (inflation_radius : Q)
  (candidates r : list EdgeEdgeCandidate) (ei ej : Z) (a b : AABB) :
  grid_dimension g d -> (0 < m_cellSize g)%Q ->
  positions_of_dimension d vertices_t0 ->
  positions_of_dimension d vertices_t1 ->
  Forall (proper_edge (rows vertices_t0)) (mesh_edges m) ->
  rows (mesh_edges m) <= 2147483648 ->
  addEdges g vertices_t0 vertices_t1 (mesh_edges m) inflation_radius
  = Some g1 ->
  query EdgeEdge g1 m candidates = Some (g2, r) ->
  0 <= ei < rows (mesh_edges m) -> 0 <= ej < rows (mesh_edges m) ->
  ei <> ej ->
  swept_edge_box vertices_t0 vertices_t1 (mesh_edges m) inflation_radius ei
  = Some a ->
  swept_edge_box vertices_t0 vertices_t1 (mesh_edges m) inflation_radius ej
  = Some b ->
  are_overlapping a b = Some true ->
  is_endpoint EdgeEdge m ei ej = false ->
  is_same_group EdgeEdge m ei ej = false ->
  In (mkEdgeEdgeCandidate ei ej) r \/ In (mkEdgeEdgeCandidate ej ei) r.
Proof.
  intros Hg Hc HV0 HV1 Hproper Hmany Hadd Hq Hei Hej Hne Ha Hb Ho He Hs.
  assert (Hrows : rows vertices_t1 = rows vertices_t0).
  { unfold addEdges in Hadd. pre_inv Hadd Hr. lia. }
  destruct (addEdges_items _ _ _ _ _ _ ei Hadd Hei)
    as (a' & la & la' & Ea & Hadd_a & Hin_a).
  destruct (addEdges_items _ _ _ _ _ _ ej Hadd Hej)
    as (b' & lb & lb' & Eb & Hadd_b & Hin_b).
  rewrite Ha in Ea. injection Ea as <-.
  rewrite Hb in Eb. injection Eb as <-.
  pose proof (swept_edge_box_built d _ _ _ _ ei a HV0 HV1 Hrows Hproper
                Hei Ha) as Hba.
  pose proof (swept_edge_box_built d _ _ _ _ ej b HV0 HV1 Hrows Hproper
                Hej Hb) as Hbb.
  destruct (overlapping_boxes_share_key g d a b _ _ _ _ _ _
              Hg Hc Hba Hbb Hadd_a Hadd_b Ho) as (k & Hka & Hkb).
  unfold int_of_long in Hka, Hkb.
  rewrite wrap_int_small in Hka by (unfold INT_MIN, INT_MAX; lia).
  rewrite wrap_int_small in Hkb by (unfold INT_MIN, INT_MAX; lia).
  apply Hin_a in Hka. apply Hin_b in Hkb.
  assert (Hpab : passes (is_endpoint EdgeEdge m) (is_same_group EdgeEdge m)
                        (mkHashItem k ei a) (mkHashItem k ej b))
    by (repeat split; assumption).
  assert (Hpba : passes (is_endpoint EdgeEdge m) (is_same_group EdgeEdge m)
                        (mkHashItem k ej b) (mkHashItem k ei a)).
  { repeat split; cbn [id aabb is_endpoint is_same_group].
    - now rewrite ee_is_endpoint_sym.
    - now rewrite ee_is_same_group_sym.
    - now apply are_overlapping_sym. }
  destruct (two_positions (m_edgeItems g1) _ _ Hka Hkb)
    as [(l1 & l2 & l3 & El) | (l1 & l2 & l3 & El)];
    [intros [= E]; contradiction | |].
  - apply (edge_edge_query_reaches _ _ _ _ _ Hq _ _ _ _ _ El eq_refl Hpab Hpba).
  - destruct (edge_edge_query_reaches _ _ _ _ _ Hq _ _ _ _ _ El eq_refl
                Hpba Hpab) as [H | H]; [now right | now left].
Qed.

Lemma edge_edge_query_complete_witness :
  In (mkEdgeEdgeCandidate 0 1) [mkEdgeEdgeCandidate 0 1]
  \/ In (mkEdgeEdgeCandidate 1 0) [mkEdgeEdgeCandidate 0 1].
Proof.
  eapply (edge_edge_query_complete skew_sized skew_populated _ 3%nat
            skew_V skew_V (mkMesh skew_E [] []) 0%Q [] _ 0 1).
  - vm_compute. repeat split; auto.
  - reflexivity.
  - repeat constructor.
  - repeat constructor.
  - cbn [mesh_edges]. repeat constructor.
    + exists 0, 1. vm_compute. repeat split; congruence.
    + exists 2, 3. vm_compute. repeat split; congruence.
  - vm_compute. discriminate.
  - reflexivity.
  - reflexivity.
  - vm_compute. split; [discriminate | reflexivity].
  - vm_compute. split; [discriminate | reflexivity].
  - discriminate.
  - reflexivity.
  - reflexivity.
  - reflexivity.
  - reflexivity.
  - reflexivity.
Defined.

(** [addElement] reads the sizing of the grid only. *)
Lemma addElement_same_sizing (g g' : HashGrid) (box : AABB) (id0 : Z)
  (items : list HashItem) :
  m_cellSize g' = m_cellSize g -> m_gridSize g' = m_gridSize g ->
  m_domainMin g' = m_domainMin g ->
  addElement g' box id0 items = addElement g box id0 items.
Proof.
  intros Hc Hs Hm. unfold addElement, cell_of, clamp_cell, hash.
  now rewrite Hc, Hs, Hm.
Qed.

(** X2.  Over exact arithmetic the two-bucket queries are complete when
    every key of the second bucket occurs in the first: two elements that
    [addElement] stored in the joined buckets, whose boxes overlap and that
    pass both filters, are returned as a candidate. *)
Theorem two_bucket_query_complete (k : QueryKind) (g g' : HashGrid)
  (d : nat) (m : Mesh) (candidates r : list (CandidateOf k))
  (a b : AABB) (ida idb : Z)
  (items_a items_a' items_b items_b' : list HashItem) :
  k <> EdgeEdge ->
  grid_dimension g d -> (0 < m_cellSize g)%Q ->
  built_box d a -> built_box d b ->
  addElement g a ida items_a = Some items_a' ->
  incl items_a' (bucket0 k g) ->
  addElement g b idb items_b = Some items_b' ->
  incl items_b' (bucket1 k g) ->
  covered (bucket0 k g) (bucket1 k g) ->
  are_overlapping a b = Some true ->
  is_endpoint k m ida idb = false ->
  is_same_group k m ida idb = false ->
  query k g m candidates = Some (g', r) ->
  In (emplace ida idb) r.
Proof.
  intros Hk Hg Hc Ha Hb Hadd_a Hin_a Hadd_b Hin_b Hcov Ho He Hs Hq.
  destruct (overlapping_boxes_share_key g d a b _ _ _ _ _ _
              Hg Hc Ha Hb Hadd_a Hadd_b Ho) as (key0 & Hka & Hkb).
  apply (query_reaches_covered k g m candidates g' r Hk Hcov Hq
           (mkHashItem key0 ida a) (mkHashItem key0 idb b)).
  - now apply Hin_a.
  - now apply Hin_b.
  - reflexivity.
  - repeat split; assumption.
Qed.

Lemma two_bucket_query_complete_witness :
  In (mkEdgeVertexCandidate 0 1) [mkEdgeVertexCandidate 0 1].
Proof.
  eapply (two_bucket_query_complete VertexEdge grid_at_rest _ 2%nat
            right_cell_mesh [] _ rest_edge_box rest_vertex_box 0 1
            [] [mkHashItem 1 0 rest_edge_box]
            [] [mkHashItem 1 1 rest_vertex_box]).
  - discriminate.
  - vm_compute. repeat split; auto.
  - reflexivity.
  - split; reflexivity.
  - split; reflexivity.
  - vm_compute. reflexivity.
  - intros x [<- | []]. vm_compute. now left.
  - vm_compute. reflexivity.
  - intros x [<- | []]. vm_compute. right. now left.
  - intros x Hx. exists (mkHashItem 1 0 rest_edge_box).
    split; [vm_compute; now left|].
    vm_compute in Hx.
    destruct Hx as [<- | [<- | [<- | [<- | []]]]]; reflexivity.
  - reflexivity.
  - reflexivity.
  - reflexivity.
  - reflexivity.
Defined.


(** * Further properties of the code *)

(** ** The order of the ids in an edge-edge candidate *)

Section SelfJoinOrder.
Context {T : Type} `{CandidateType T}.
Variable is_endpoint : Z -> Z -> bool.
Variable is_same_group : Z -> Z -> bool.

Lemma test_pair_passes (a b : HashItem) (candidates r : list T) :
  test_pair is_endpoint is_same_group a b candidates = Some r ->
  r = candidates
  \/ (passes is_endpoint is_same_group a b
      /\ r = candidates ++ [emplace (id a) (id b)]).
Proof.
  unfold test_pair, passes.
  destruct (is_endpoint (id a) (id b)); cbn [negb andb];
    [intros [= <-]; now left|].
  destruct (is_same_group (id a) (id b)); cbn [negb];
    [intros [= <-]; now left|].
  destruct (are_overlapping (aabb a) (aabb b)) as [[|]|]; cbn [bind];
    intros [= <-]; [right | left]; auto.
Qed.

Lemma self_run_in_order (item0 : HashItem) (l : list HashItem) :
  forall (candidates r : list T),
  (forall b, In b l -> key item0 = key b -> id item0 <= id b) ->
  self_run is_endpoint is_same_group item0 l candidates = Some r ->
  exists e,
    r = candidates ++ e
    /\ Forall (accounted_in_order is_endpoint is_same_group (item0 :: l)) e.
Proof.
  induction l as [|item1 rest IH]; intros candidates r Hord; cbn.
  - intros [= <-]. exists []. now rewrite app_nil_r.
  - destruct (Z.eqb_spec (key item0) (key item1)) as [Hkey | Hkey].
    + intros Hrun. bind_inv Hrun as c1 Hc1.
      destruct (IH c1 r) as (e2 & -> & He2);
        [intros b Hb; apply Hord; now right | exact Hrun |].
      assert (He2' : Forall (accounted_in_order is_endpoint is_same_group
                               (item0 :: item1 :: rest)) e2).
      { eapply Forall_impl; [|exact He2].
        intros c (x & y & Hx & Hy & Hrest). exists x, y.
        split; [destruct Hx as [<- | Hx]; [now left | right; now right]|].
        split; [destruct Hy as [<- | Hy]; [now left | right; now right]|].
        exact Hrest. }
      destruct (test_pair_passes _ _ _ _ Hc1) as [-> | [Hp ->]].
      * now exists e2.
      * exists (emplace (id item0) (id item1) :: e2).
        split; [now rewrite <- app_assoc|].
        constructor; [|exact He2'].
        exists item0, item1. split; [now left|].
        split; [right; now left|]. split; [assumption|].
        split; [apply Hord; [now left | assumption]|]. now split.
    + intros [= <-]. exists []. now rewrite app_nil_r.
Qed.

Lemma self_scan_in_order (l : list HashItem) :
  forall (candidates r : list T),
  StronglySorted (not_after HashItem_ltb) l ->
  self_scan is_endpoint is_same_group l candidates = Some r ->
  exists e,
    r = candidates ++ e
    /\ Forall (accounted_in_order is_endpoint is_same_group l) e.
Proof.
  induction l as [|item0 after_i IH]; intros candidates r Hs; cbn.
  - intros [= <-]. exists []. now rewrite app_nil_r.
  - intros Hrun. bind_inv Hrun as c1 Hc1.
    inversion Hs as [|? ? Hafter Hmin]; subst.
    destruct (self_run_in_order item0 after_i candidates c1) as (e1 & -> & He1);
      [|exact Hc1|].
    { intros b Hb Hk. rewrite Forall_forall in Hmin. specialize (Hmin b Hb).
      unfold not_after in Hmin. rewrite HashItem_ltb_lex in Hmin.
      revert Hmin. lex_cases. }
    destruct (IH _ _ Hafter Hrun) as (e2 & -> & He2).
    exists (e1 ++ e2). split; [now rewrite app_assoc|].
    apply Forall_app. split; [exact He1|].
    eapply Forall_impl; [|exact He2].
    intros c (x & y & Hx & Hy & Hrest). exists x, y.
    split; [now right|]. split; [now right|]. exact Hrest.
Qed.
End SelfJoinOrder.

Lemma parallel_sort_HashItem_sorted (items : list HashItem) :
  StronglySorted (not_after HashItem_ltb) (parallel_sort HashItem_ltb items).
Proof.
  apply parallel_sort_sorted.
  - intros a. apply lex_ltb_irrefl.
  - intros a b c. apply lex_ltb_trans.
  - intros a b c. apply lex_ltb_cotrans.
Qed.

Lemma ee_is_endpoint_refl (edges : MatrixXi) (ei : Z) :
  ee_is_endpoint edges ei ei = true.
Proof. unfold ee_is_endpoint. now rewrite Z.eqb_refl. Qed.

(** What the edge-edge query finds on an empty list, with the order of
    the two ids. *)
Lemma edge_edge_found_in_order (g g' : HashGrid) (m : Mesh)
  (r : list EdgeEdgeCandidate) (c : EdgeEdgeCandidate) :
  query EdgeEdge g m [] = Some (g', r) -> In c r ->
  accounted_in_order (is_endpoint EdgeEdge m) (is_same_group EdgeEdge m)
                     (m_edgeItems g) c.
Proof.
  cbn [query CandidateOf]. unfold getEdgeEdgePairs, getPairs_self.
  intros Hq Hin. bind_inv Hq as p Hp. bind_inv Hp as found Hfound.
  injection Hp as <-. injection Hq as _ <-.
  apply (unique_erase_In cand_eqb) in Hin.
  apply (proj1 (parallel_sort_In _ _ _)) in Hin.
  destruct (self_scan_in_order _ _ _ _ _ (parallel_sort_HashItem_sorted _)
              Hfound) as (e & -> & He).
  cbn [app] in Hin. rewrite Forall_forall in He.
  destruct (He c Hin) as (x & y & Hx & Hy & Hrest).
  exists x, y. split; [now apply parallel_sort_In in Hx|].
  split; [now apply parallel_sort_In in Hy|]. exact Hrest.
Qed.

(** X3.  Every pair that [getEdgeEdgePairs] returns on an empty output list
    has its smaller edge index first: the bucket is scanned in the order of
    [(key, id)], and an edge paired with itself is dropped by
    [is_endpoint]. *)
Theorem edge_edge_pairs_ordered (g g' : HashGrid) (m : Mesh)
  (r : list EdgeEdgeCandidate) :
  query EdgeEdge g m [] = Some (g', r) ->
  forall c, In c r -> ee_edge0_index c < ee_edge1_index c.
Proof.
  intros Hq c Hin.
  destruct (edge_edge_found_in_order _ _ _ _ _ Hq Hin)
    as (x & y & _ & _ & _ & Hle & (He & _ & _) & ->).
  cbn [emplace EdgeEdgeCandidate_type ee_edge0_index ee_edge1_index].
  assert (Hne : id x <> id y).
  { intros E. cbn [is_endpoint] in He. rewrite E in He.
    now rewrite ee_is_endpoint_refl in He. }
  lia.
Qed.

Lemma edge_edge_pairs_ordered_witness :
  ee_edge0_index (mkEdgeEdgeCandidate 0 1)
  < ee_edge1_index (mkEdgeEdgeCandidate 0 1).
Proof.
  apply (edge_edge_pairs_ordered skew_populated skew_populated
           (mkMesh skew_E [] []) [mkEdgeEdgeCandidate 0 1] eq_refl
           (mkEdgeEdgeCandidate 0 1) (or_introl eq_refl)).
Defined.

(** ** What [addEdges] stores *)

Lemma for_count_inv_at {St : Type} (P : Z -> St -> Prop)
  (body : Z -> St -> option St) :
  forall n x s s',
  (forall i t t', x <= i < x + Z.of_nat n -> P i t -> body i t = Some t' ->
     P (i + 1) t') ->
  P x s -> for_count n x body s = Some s' -> P (x + Z.of_nat n) s'.
Proof.
  induction n as [|n IH]; intros x s s' Hbody Hs Hrun; cbn in Hrun.
  - injection Hrun as <-. now replace (x + Z.of_nat 0) with x by lia.
  - bind_inv Hrun as s1 Hs1.
    replace (x + Z.of_nat (S n)) with ((x + 1) + Z.of_nat n) by lia.
    apply (IH (x + 1) s1 s'); [| |exact Hrun].
    + intros i t t' Hi. apply Hbody. lia.
    + apply (Hbody x s s1); [lia | exact Hs | exact Hs1].
Qed.

Lemma wrapped_code_item_id_box (gs : ArrayMax3i) (box : AABB) (id0 : Z)
  (item : HashItem) :
  wrapped_code_item gs box id0 item -> id item = id0 /\ aabb item = box.
Proof.
  unfold wrapped_code_item.
  intros (x & y & z & _ & _ & _ & _ & _ & Hid & Hb). now split.
Qed.

(** [addEdges] leaves the sizing and the other two buckets as they are and
    appends to the edge bucket items of the edges of the mesh only, each
    with the swept box of its edge. *)
Lemma addEdges_stores (g g1 : HashGrid) (vertices_t0 vertices_t1 : MatrixXd)
  (edges : MatrixXi) (inflation_radius : Q) :
  addEdges g vertices_t0 vertices_t1 edges inflation_radius = Some g1 ->
  same_sizing g g1
  /\ m_vertexItems g1 = m_vertexItems g /\ m_faceItems g1 = m_faceItems g
  /\ exists new,
       m_edgeItems g1 = m_edgeItems g ++ new
       /\ Forall (edge_item vertices_t0 vertices_t1 edges inflation_radius
                            (rows edges)) new.
Proof.
  unfold addEdges. intros Hadd. pre_inv Hadd Hrows.
  bind_inv Hadd as local_items Hlocal. injection Hadd as <-.
  split; [now repeat split|]. split; [reflexivity|]. split; [reflexivity|].
  exists local_items. split; [reflexivity|].
  unfold for_upto in Hlocal.
  apply (for_count_inv_at
           (fun i t => Forall (edge_item vertices_t0 vertices_t1 edges
                                         inflation_radius i) t))
    in Hlocal.
  - cbn in Hlocal. unfold rows. 
    replace (Z.of_nat (length edges))
      with (Z.of_nat (Z.to_nat (rows edges))) by (unfold rows; lia).
    exact Hlocal.
  - intros i t t' Hi Ht Hbody. unfold addEdge_into in Hbody.
    bind_inv Hbody as box Hbox.
    destruct (addElement_appends _ _ _ _ _ Hbody) as (new & -> & Hnew).
    apply Forall_app. split.
    + eapply Forall_impl; [|exact Ht].
      intros item (ei & Hei & Hrest). exists ei. split; [lia | exact Hrest].
    + eapply Forall_impl; [|exact Hnew].
      intros item Hitem.
      destruct (wrapped_code_item_id_box _ _ _ _ Hitem) as [Hid Hb].
      exists i. split; [lia|]. split; [exact Hid|].
      unfold swept_edge_box. now rewrite Hb.
  - constructor.
Qed.

Lemma int_of_long_small (n : Z) :
  0 <= n < 2147483648 -> int_of_long n = n.
Proof.
  intros Hn. unfold int_of_long.
  apply wrap_int_small. unfold INT_MIN, INT_MAX. lia.
Qed.

(** What the edge-edge query finds after [addEdges] on an empty edge
    bucket, in terms of the mesh. *)
Lemma edge_edge_found_edges (g g1 g2 : HashGrid)
  (vertices_t0 vertices_t1 : MatrixXd) (m : Mesh) (inflation_radius : Q)
  (r : list EdgeEdgeCandidate) (c : EdgeEdgeCandidate) :
  m_edgeItems g = [] ->
  rows (mesh_edges m) <= 2147483648 ->
  addEdges g vertices_t0 vertices_t1 (mesh_edges m) inflation_radius
  = Some g1 ->
  query EdgeEdge g1 m [] = Some (g2, r) ->
  In c r ->
  exists ei ej a b,
    c = mkEdgeEdgeCandidate ei ej
    /\ 0 <= ei < ej /\ ej < rows (mesh_edges m)
    /\ swept_edge_box vertices_t0 vertices_t1 (mesh_edges m)
                      inflation_radius ei = Some a
    /\ swept_edge_box vertices_t0 vertices_t1 (mesh_edges m)
                      inflation_radius ej = Some b
    /\ are_overlapping a b = Some true
    /\ ee_is_endpoint (mesh_edges m) ei ej = false
    /\ ee_is_same_group (mesh_edges m) (mesh_group_ids m) ei ej = false.
Proof.
  intros Hempty Hmany Hadd Hq Hin.
  destruct (addEdges_stores _ _ _ _ _ _ Hadd)
    as (_ & _ & _ & new & Hitems & Hnew).
  rewrite Hempty in Hitems. cbn [app] in Hitems.
  rewrite Forall_forall in Hnew.
  destruct (edge_edge_found_in_order _ _ _ _ _ Hq Hin)
    as (x & y & Hx & Hy & _ & Hle & (He & Hs & Ho) & ->).
  rewrite Hitems in Hx, Hy.
  destruct (Hnew x Hx) as (ei & Hei & Hidx & Hbx).
  destruct (Hnew y Hy) as (ej & Hej & Hidy & Hby).
  rewrite int_of_long_small in Hidx by lia.
  rewrite int_of_long_small in Hidy by lia.
  cbn [is_endpoint is_same_group] in He, Hs.
  assert (Hne : id x <> id y).
  { intros E. rewrite E in He. now rewrite ee_is_endpoint_refl in He. }
  rewrite Hidx, Hidy in *.
  exists ei, ej, (aabb x), (aabb y).
  cbn [emplace EdgeEdgeCandidate_type].
  split; [reflexivity|]. split; [lia|]. split; [lia|]. now repeat split.
Qed.

(** X4.  End to end, for a mesh of at most [2^31] edges on a grid whose
    edge bucket is empty: every pair that [getEdgeEdgePairs] returns after
    [addEdges] names two edges [i < j] of the mesh whose inflated swept
    boxes overlap and that share neither an endpoint nor, where groups are
    given, the group of an endpoint. *)
Theorem edge_edge_pairs_sound (g g1 g2 : HashGrid)
  (vertices_t0 vertices_t1 : MatrixXd) (m : Mesh) (inflation_radius : Q)
  (r : list EdgeEdgeCandidate) :
  m_edgeItems g = [] ->
  rows (mesh_edges m) <= 2147483648 ->
  addEdges g vertices_t0 vertices_t1 (mesh_edges m) inflation_radius
  = Some g1 ->
  query EdgeEdge g1 m [] = Some (g2, r) ->
  forall c, In c r ->
    0 <= ee_edge0_index c < ee_edge1_index c
    /\ ee_edge1_index c < rows (mesh_edges m)
    /\ exists a b,
         swept_edge_box vertices_t0 vertices_t1 (mesh_edges m)
                        inflation_radius (ee_edge0_index c) = Some a
         /\ swept_edge_box vertices_t0 vertices_t1 (mesh_edges m)
                           inflation_radius (ee_edge1_index c) = Some b
         /\ are_overlapping a b = Some true
         /\ ee_is_endpoint (mesh_edges m) (ee_edge0_index c)
                           (ee_edge1_index c) = false
         /\ ee_is_same_group (mesh_edges m) (mesh_group_ids m)
                             (ee_edge0_index c) (ee_edge1_index c) = false.
Proof.
  intros Hempty Hmany Hadd Hq c Hin.
  destruct (edge_edge_found_edges _ _ _ _ _ _ _ _ _ Hempty Hmany Hadd Hq Hin)
    as (ei & ej & a & b & -> & Hij & Hj & Hrest).
  cbn [ee_edge0_index ee_edge1_index].
  split; [exact Hij|]. split; [exact Hj|]. now exists a, b.
Qed.

Lemma edge_edge_pairs_sound_witness :
  0 <= 0 < 1 /\ 1 < rows skew_E
  /\ exists a b,
       swept_edge_box skew_V skew_V skew_E 0%Q 0 = Some a
       /\ swept_edge_box skew_V skew_V skew_E 0%Q 1 = Some b
       /\ are_overlapping a b = Some true
       /\ ee_is_endpoint skew_E 0 1 = false
       /\ ee_is_same_group skew_E [] 0 1 = false.
Proof.
  apply (edge_edge_pairs_sound skew_sized skew_populated skew_populated
           skew_V skew_V (mkMesh skew_E [] []) 0%Q
           [mkEdgeEdgeCandidate 0 1]
           eq_refl ltac:(vm_compute; discriminate) eq_refl eq_refl
           (mkEdgeEdgeCandidate 0 1) (or_introl eq_refl)).
Defined.

(** X1.  Over exact arithmetic the edge-edge query is complete: on a grid
    with a positive cell size populated by [addEdges], every two edges
    [ei < ej] whose inflated swept boxes overlap and that pass both filters
    are returned as the candidate [(ei, ej)]. *)
Theorem edge_edge_pairs_complete (g g1 g2 : HashGrid) (d : nat)
  (vertices_t0 vertices_t1 : MatrixXd) (m : Mesh) (inflation_radius : Q)
  (r : list EdgeEdgeCandidate) (ei ej : Z) (a b : AABB) :
  grid_dimension g d -> (0 < m_cellSize g)%Q ->
  positions_of_dimension d vertices_t0 ->
  positions_of_dimension d vertices_t1 ->
  Forall (proper_edge (rows vertices_t0)) (mesh_edges m) ->
  rows (mesh_edges m) <= 2147483648 ->
  addEdges g vertices_t0 vertices_t1 (mesh_edges m) inflation_radius
  = Some g1 ->
  query EdgeEdge g1 m [] = Some (g2, r) ->
  0 <= ei < ej -> ej < rows (mesh_edges m) ->
  swept_edge_box vertices_t0 vertices_t1 (mesh_edges m) inflation_radius ei
  = Some a ->
  swept_edge_box vertices_t0 vertices_t1 (mesh_edges m) inflation_radius ej
  = Some b ->
  are_overlapping a b = Some true ->
  is_endpoint EdgeEdge m ei ej = false ->
  is_same_group EdgeEdge m ei ej = false ->
  In (mkEdgeEdgeCandidate ei ej) r.
Proof.
  intros Hg Hc HV0 HV1 Hproper Hmany Hadd Hq Hei Hej Ha Hb Ho He Hs.
  destruct (edge_edge_query_complete g g1 g2 d vertices_t0 vertices_t1 m
              inflation_radius [] r ei ej a b Hg Hc HV0 HV1 Hproper Hmany
              Hadd Hq ltac:(lia) ltac:(lia) ltac:(lia) Ha Hb Ho He Hs)
    as [H | H]; [exact H | exfalso].
  destruct (edge_edge_found_in_order _ _ _ _ _ Hq H)
    as (x & y & _ & _ & _ & Hle & _ & E).
  cbn [emplace EdgeEdgeCandidate_type] in E. injection E as E0 E1. lia.
Qed.

Lemma edge_edge_pairs_complete_witness :
  In (mkEdgeEdgeCandidate 0 1) [mkEdgeEdgeCandidate 0 1].
Proof.
  eapply (edge_edge_pairs_complete skew_sized skew_populated _ 3%nat
            skew_V skew_V (mkMesh skew_E [] []) 0%Q _ 0 1).
  - vm_compute. repeat split; auto.
  - reflexivity.
  - repeat constructor.
  - repeat constructor.
  - cbn [mesh_edges]. repeat constructor.
    + exists 0, 1. vm_compute. repeat split; congruence.
    + exists 2, 3. vm_compute. repeat split; congruence.
  - vm_compute. discriminate.
  - reflexivity.
  - reflexivity.
  - lia.
  - reflexivity.
  - reflexivity.
  - reflexivity.
  - reflexivity.
  - reflexivity.
  - reflexivity.
Defined.

(** ** Boxes *)

Lemma coeffd_cwiseMin (a b : list Q) (i : nat) :
  (i < length a)%nat -> (i < length b)%nat ->
  coeffd (cwiseMin a b) i = Qmin (coeffd a i) (coeffd b i).
Proof. intros. unfold coeffd, cwiseMin. now apply nth_zip_with. Qed.

Lemma coeffd_cwiseMax (a b : list Q) (i : nat) :
  (i < length a)%nat -> (i < length b)%nat ->
  coeffd (cwiseMax a b) i = Qmax (coeffd a i) (coeffd b i).
Proof. intros. unfold coeffd, cwiseMax. now apply nth_zip_with. Qed.

Lemma length_cwiseMin (a b : list Q) :
  length (cwiseMin a b) = Nat.min (length a) (length b).
Proof. apply zip_with_length. Qed.

Lemma length_cwiseMax (a b : list Q) :
  length (cwiseMax a b) = Nat.min (length a) (length b).
Proof. apply zip_with_length. Qed.

Lemma coeffd_sub_scalar (a : list Q) (r : Q) (i : nat) :
  (i < length a)%nat -> coeffd (sub_scalar a r) i = (coeffd a i - r)%Q.
Proof. intros. unfold coeffd, sub_scalar. now rewrite (nth_map_lt _ 0%Q). Qed.

Lemma coeffd_add_scalar (a : list Q) (r : Q) (i : nat) :
  (i < length a)%nat -> coeffd (add_scalar a r) i = (coeffd a i + r)%Q.
Proof. intros. unfold coeffd, add_scalar. now rewrite (nth_map_lt _ 0%Q). Qed.

Lemma all2_of_nth {A B : Type} (f : A -> B -> bool) (da : A) (db : B) :
  forall (a : list A) (b : list B),
  length a = length b ->
  (forall i, (i < length a)%nat -> f (nth i a da) (nth i b db) = true) ->
  all2 f a b = true.
Proof.
  unfold all2. induction a as [|x a IH]; intros b Hlen Hall; [reflexivity|].
  destruct b as [|y b]; [discriminate|]. cbn.
  pose proof (Hall 0%nat ltac:(cbn; lia)) as H0. cbn in H0. rewrite H0. cbn.
  apply IH; [cbn in Hlen; lia|].
  intros i Hi. apply (Hall (S i)). cbn. lia.
Qed.

Lemma all2_false_at {A B : Type} (f : A -> B -> bool) (da : A) (db : B) :
  forall (a : list A) (b : list B) (i : nat),
  (i < length a)%nat -> (i < length b)%nat ->
  f (nth i a da) (nth i b db) = false ->
  all2 f a b = false.
Proof.
  intros a b i Ha Hb Hf. destruct (all2 f a b) eqn:E; [|reflexivity].
  rewrite (all2_nth f da db a b i E Ha Hb) in Hf. discriminate.
Qed.

(** The constructor accepts two corners of one length that are ordered on
    every axis. *)
Lemma AABB_ctor_accepts (d : nat) (min max : ArrayMax3d) :
  length min = d -> length max = d ->
  (forall i, (i < d)%nat -> (coeffd min i <= coeffd max i)%Q) ->
  exists box, AABB_ctor min max = Some box
              /\ built_box d box /\ getMin box = min /\ getMax box = max.
Proof.
  intros Hmin Hmax Hle. unfold AABB_ctor.
  rewrite Hmin, Hmax, Nat.eqb_refl. cbn [precondition bind].
  rewrite (all2_of_nth Qle_bool 0%Q 0%Q) by
    (try lia; intros i Hi; apply Qle_bool_iff, Hle; lia).
  cbn [precondition bind]. eexists. split; [reflexivity|].
  split; [|now split]. split; [exact Hmin|]. cbn [getMin getMax].
  unfold AABB_ctor. rewrite Hmin, Hmax, Nat.eqb_refl. cbn [precondition bind].
  rewrite (all2_of_nth Qle_bool 0%Q 0%Q) by
    (try lia; intros i Hi; apply Qle_bool_iff, Hle; lia).
  reflexivity.
Qed.

(** The constructor rejects two corners that are out of order on an axis. *)
Lemma AABB_ctor_rejects (min max : ArrayMax3d) (i : nat) :
  (i < length min)%nat -> (i < length max)%nat ->
  (coeffd max i < coeffd min i)%Q ->
  AABB_ctor min max = None.
Proof.
  intros Hmin Hmax Hlt. unfold AABB_ctor.
  destruct (length min =? length max)%nat; [|reflexivity].
  cbn [precondition bind].
  rewrite (all2_false_at Qle_bool 0%Q 0%Q min max i Hmin Hmax); [reflexivity|].
  destruct (Qle_bool (nth i min 0%Q) (nth i max 0%Q)) eqn:E; [|reflexivity].
  apply Qle_bool_iff in E. unfold coeffd in Hlt. lra.
Qed.

Lemma built_box_lengths (d : nat) (box : AABB) :
  built_box d box -> length (getMin box) = d /\ length (getMax box) = d.
Proof.
  intros [Hlen Hctor]. split; [exact Hlen|].
  unfold AABB_ctor in Hctor. pre_inv Hctor Hl. apply Nat.eqb_eq in Hl. lia.
Qed.

Lemma axis_overlap_of_corners (d : nat) (a b : AABB) (i : nat) :
  built_box d a -> built_box d b -> (i < d)%nat ->
  (coeffd (getMin a) i <= coeffd (getMax b) i)%Q ->
  (coeffd (getMin b) i <= coeffd (getMax a) i)%Q ->
  Qle_bool (Qabs (coeffd (getCenter a) i - coeffd (getCenter b) i))
           (coeffd (getHalfExtent a) i + coeffd (getHalfExtent b) i) = true.
Proof.
  intros Ha Hb Hi H1 H2.
  destruct (built_box_axis d a i Ha Hi) as (_ & Eha & Eca).
  destruct (built_box_axis d b i Hb Hi) as (_ & Ehb & Ecb).
  rewrite Eha, Eca, Ehb, Ecb.
  apply Qle_bool_iff, Qabs_Qle_condition.
  unfold Qdiv in *. change (/ 2)%Q with (1 # 2)%Q in *.
  split; lra.
Qed.

(** The overlap test of two boxes of the constructor is the comparison of
    their corners on every axis. *)
Lemma are_overlapping_iff_corners (d : nat) (a b : AABB) :
  (d = 2 \/ d = 3)%nat -> built_box d a -> built_box d b ->
  are_overlapping a b = Some true <-> corners_meet d a b.
Proof.
  intros Hd Ha Hb. unfold are_overlapping, corners_meet.
  destruct Ha as [La Ca], Hb as [Lb Cb].
  rewrite La, Lb, Nat.eqb_refl. cbn [precondition bind].
  assert (Ha : built_box d a) by now split.
  assert (Hb : built_box d b) by now split.
  split.
  - intros [= Ho] i Hi.
    apply andb_true_iff in Ho. destruct Ho as [Ho Hoz].
    apply andb_true_iff in Ho. destruct Ho as [Hox Hoy].
    assert (Hcases : (i = 0 \/ i = 1 \/ (i = 2 /\ d = 3))%nat) by lia.
    destruct Hcases as [-> | [-> | [-> ->]]].
    + now apply (axis_overlap d a b 0).
    + now apply (axis_overlap d a b 1).
    + cbn [Nat.eqb orb] in Hoz. now apply (axis_overlap 3 a b 2).
  - intros Hall. f_equal.
    rewrite (axis_overlap_of_corners d a b 0) by
      (try assumption; try lia; apply Hall; lia).
    rewrite (axis_overlap_of_corners d a b 1) by
      (try assumption; try lia; apply Hall; lia).
    cbn [andb]. destruct Hd as [-> | ->]; [reflexivity|].
    cbn [Nat.eqb orb].
    apply (axis_overlap_of_corners 3 a b 2);
      try assumption; try lia; apply Hall; lia.
Qed.

(** X7.  Over exact arithmetic, for two boxes of the constructor in two or
    three dimensions, [are_overlapping] returns, and its centre and
    half-extent test holds exactly when the closed intervals of the two
    boxes meet on every axis. *)
Theorem are_overlapping_corners (d : nat) (a b : AABB) :
  (d = 2 \/ d = 3)%nat -> built_box d a -> built_box d b ->
  exists t, are_overlapping a b = Some t
            /\ (t = true <-> corners_meet d a b).
Proof.
  intros Hd Ha Hb.
  pose proof (are_overlapping_iff_corners d a b Hd Ha Hb) as Hiff.
  assert (Ht : exists t, are_overlapping a b = Some t).
  { unfold are_overlapping. destruct Ha as [La _], Hb as [Lb _].
    rewrite La, Lb, Nat.eqb_refl. cbn [precondition bind]. now eexists. }
  destruct Ht as [t Ht]. exists t. split; [exact Ht|].
  rewrite Ht in Hiff. rewrite <- Hiff.
  split; [intros ->; reflexivity | intros [= ->]; reflexivity].
Qed.

Lemma are_overlapping_corners_witness :
  exists t, are_overlapping rest_edge_box rest_vertex_box = Some t
            /\ (t = true <-> corners_meet 2 rest_edge_box rest_vertex_box).
Proof.
  apply (are_overlapping_corners 2 rest_edge_box rest_vertex_box).
  - now left.
  - split; reflexivity.
  - split; reflexivity.
Defined.

(** X8.  The merge constructor of two boxes of one dimension never trips
    the assertion of the constructor; the box it builds encloses both and
    is enclosed by every box that encloses both. *)
Theorem AABB_merge_encloses (d : nat) (aabb1 aabb2 : AABB) :
  built_box d aabb1 -> built_box d aabb2 ->
  exists box,
    AABB_merge aabb1 aabb2 = Some box /\ built_box d box
    /\ box_encloses d box aabb1 /\ box_encloses d box aabb2
    /\ forall outer,
         box_encloses d outer aabb1 -> box_encloses d outer aabb2 ->
         box_encloses d outer box.
Proof.
  intros H1 H2.
  destruct (built_box_lengths _ _ H1) as [L1 M1].
  destruct (built_box_lengths _ _ H2) as [L2 M2].
  assert (Hmin : forall i, (i < d)%nat ->
            coeffd (cwiseMin (getMin aabb1) (getMin aabb2)) i
            = Qmin (coeffd (getMin aabb1) i) (coeffd (getMin aabb2) i))
    by (intros i Hi; apply coeffd_cwiseMin; lia).
  assert (Hmax : forall i, (i < d)%nat ->
            coeffd (cwiseMax (getMax aabb1) (getMax aabb2)) i
            = Qmax (coeffd (getMax aabb1) i) (coeffd (getMax aabb2) i))
    by (intros i Hi; apply coeffd_cwiseMax; lia).
  unfold AABB_merge.
  destruct (AABB_ctor_accepts d
              (cwiseMin (getMin aabb1) (getMin aabb2))
              (cwiseMax (getMax aabb1) (getMax aabb2)))
    as (box & Hbox & Hbuilt & Emin & Emax).
  - rewrite length_cwiseMin. lia.
  - rewrite length_cwiseMax. lia.
  - intros i Hi. rewrite Hmin, Hmax by exact Hi.
    destruct (built_box_axis d aabb1 i H1 Hi) as (Hle & _).
    pose proof (Q.le_min_l (coeffd (getMin aabb1) i) (coeffd (getMin aabb2) i)).
    pose proof (Q.le_max_l (coeffd (getMax aabb1) i) (coeffd (getMax aabb2) i)).
    lra.
  - exists box. split; [exact Hbox|]. split; [exact Hbuilt|].
    split; [|split]; unfold box_encloses; rewrite Emin, Emax.
    + intros i Hi. rewrite Hmin, Hmax by exact Hi.
      split; [apply Q.le_min_l | apply Q.le_max_l].
    + intros i Hi. rewrite Hmin, Hmax by exact Hi.
      split; [apply Q.le_min_r | apply Q.le_max_r].
    + intros outer Ho1 Ho2 i Hi. rewrite Hmin, Hmax by exact Hi.
      destruct (Ho1 i Hi), (Ho2 i Hi).
      split; [now apply Q.min_glb | now apply Q.max_lub].
Qed.

Lemma AABB_merge_encloses_witness :
  exists box,
    AABB_merge rest_edge_box rest_vertex_box = Some box
    /\ built_box 2 box
    /\ box_encloses 2 box rest_edge_box
    /\ box_encloses 2 box rest_vertex_box
    /\ forall outer,
         box_encloses 2 outer rest_edge_box ->
         box_encloses 2 outer rest_vertex_box ->
         box_encloses 2 outer box.
Proof.
  apply (AABB_merge_encloses 2 rest_edge_box rest_vertex_box).
  - split; reflexivity.
  - split; reflexivity.
Defined.

(** The bounds that [Qmin] and [Qmax] give on their arguments, for every
    minimum and maximum of the goal. *)
Ltac min_max_bounds :=
  repeat match goal with
  | |- context [Qmin ?a ?b] =>
      lazymatch goal with
      | _ : (Qmin a b <= a)%Q |- _ => fail
      | _ => pose proof (Q.le_min_l a b); pose proof (Q.le_min_r a b)
      end
  | |- context [Qmax ?a ?b] =>
      lazymatch goal with
      | _ : (a <= Qmax a b)%Q |- _ => fail
      | _ => pose proof (Q.le_max_l a b); pose proof (Q.le_max_r a b)
      end
  end.

Ltac coeffd_extents :=
  repeat first
    [ rewrite coeffd_sub_scalar | rewrite coeffd_add_scalar
    | rewrite coeffd_cwiseMin | rewrite coeffd_cwiseMax
    | rewrite length_cwiseMin | rewrite length_cwiseMax ];
  try lia.

(** X9.  The merge constructor of three boxes of one dimension never trips
    the assertion of the constructor, and the box it builds encloses each
    of the three. *)
Theorem AABB_merge3_encloses (d : nat) (aabb1 aabb2 aabb3 : AABB) :
  built_box d aabb1 -> built_box d aabb2 -> built_box d aabb3 ->
  exists box,
    AABB_merge3 aabb1 aabb2 aabb3 = Some box /\ built_box d box
    /\ box_encloses d box aabb1 /\ box_encloses d box aabb2
    /\ box_encloses d box aabb3.
Proof.
  intros H1 H2 H3.
  destruct (built_box_lengths _ _ H1) as [L1 M1].
  destruct (built_box_lengths _ _ H2) as [L2 M2].
  destruct (built_box_lengths _ _ H3) as [L3 M3].
  unfold AABB_merge3.
  destruct (AABB_ctor_accepts d
    (cwiseMin (cwiseMin (getMin aabb1) (getMin aabb2)) (getMin aabb3))
    (cwiseMax (cwiseMax (getMax aabb1) (getMax aabb2)) (getMax aabb3)))
    as (box & Hbox & Hbuilt & Emin & Emax).
  - coeffd_extents.
  - coeffd_extents.
  - intros i Hi. coeffd_extents.
    destruct (built_box_axis d aabb1 i H1 Hi) as (Hle & _).
    min_max_bounds. lra.
  - exists box. split; [exact Hbox|]. split; [exact Hbuilt|].
    unfold box_encloses. rewrite Emin, Emax.
    repeat split; coeffd_extents; min_max_bounds; lra.
Qed.

Lemma AABB_merge3_encloses_witness :
  exists box,
    AABB_merge3 rest_edge_box rest_vertex_box vertex0_box = Some box
    /\ built_box 2 box
    /\ box_encloses 2 box rest_edge_box
    /\ box_encloses 2 box rest_vertex_box
    /\ box_encloses 2 box vertex0_box.
Proof.
  apply (AABB_merge3_encloses 2 rest_edge_box rest_vertex_box vertex0_box).
  - split; reflexivity.
  - split; reflexivity.
  - split; reflexivity.
Defined.

(** ** Swept boxes *)

Lemma inflated_box_accepts (d : nat) (lo hi : ArrayMax3d) (r : Q) :
  length lo = d -> length hi = d ->
  (forall i, (i < d)%nat -> (coeffd lo i - r <= coeffd hi i + r)%Q) ->
  exists box,
    inflated_box (lo, hi) r = Some box /\ built_box d box
    /\ forall i, (i < d)%nat ->
         coeffd (getMin box) i = (coeffd lo i - r)%Q
         /\ coeffd (getMax box) i = (coeffd hi i + r)%Q.
Proof.
  intros Hlo Hhi Hle. unfold inflated_box. cbn [fst snd].
  destruct (AABB_ctor_accepts d (sub_scalar lo r) (add_scalar hi r))
    as (box & Hbox & Hbuilt & Emin & Emax).
  - unfold sub_scalar. now rewrite length_map.
  - unfold add_scalar. now rewrite length_map.
  - intros i Hi. coeffd_extents. now apply Hle.
  - exists box. split; [exact Hbox|]. split; [exact Hbuilt|].
    intros i Hi. rewrite Emin, Emax. coeffd_extents. now split.
Qed.

(** X10.  Over exact arithmetic, for a radius that is not negative, the
    box that [addVertex] builds for a vertex passes the assertion of the
    constructor and contains every point within the radius of the vertex
    at the start and at the end of the step. *)
Theorem swept_vertex_box_contains (d : nat) (vertex_t0 vertex_t1 : VectorX3d)
  (inflation_radius : Q) :
  length vertex_t0 = d -> length vertex_t1 = d ->
  (0 <= inflation_radius)%Q ->
  exists box,
    inflated_box (calculate_vertex_extents vertex_t0 vertex_t1)
                 inflation_radius = Some box
    /\ built_box d box
    /\ box_contains d box vertex_t0 inflation_radius
    /\ box_contains d box vertex_t1 inflation_radius.
Proof.
  intros H0 H1 Hr. unfold calculate_vertex_extents.
  destruct (inflated_box_accepts d (cwiseMin vertex_t0 vertex_t1)
              (cwiseMax vertex_t0 vertex_t1) inflation_radius)
    as (box & Hbox & Hbuilt & Hco).
  - coeffd_extents.
  - coeffd_extents.
  - intros i Hi. coeffd_extents. min_max_bounds. lra.
  - exists box. split; [exact Hbox|]. split; [exact Hbuilt|].
    split; intros i Hi; destruct (Hco i Hi) as [-> ->];
      coeffd_extents; min_max_bounds; split; lra.
Qed.

Lemma swept_vertex_box_contains_witness :
  exists box,
    inflated_box (calculate_vertex_extents [0; 0]%Q [1; 2 # 1]%Q) (1 # 2)%Q
    = Some box
    /\ built_box 2 box
    /\ box_contains 2 box [0; 0]%Q (1 # 2)%Q
    /\ box_contains 2 box [1; 2 # 1]%Q (1 # 2)%Q.
Proof.
  apply (swept_vertex_box_contains 2 [0; 0]%Q [1; 2 # 1]%Q (1 # 2)%Q).
  - reflexivity.
  - reflexivity.
  - discriminate.
Defined.

(** X11.  Over exact arithmetic, for a radius that is not negative, the
    box that [addEdge] builds for an edge passes the assertion of the
    constructor and contains every point within the radius of the two
    endpoints at the start and at the end of the step. *)
Theorem swept_edge_box_contains (d : nat)
  (edge_vertex0_t0 edge_vertex1_t0 edge_vertex0_t1 edge_vertex1_t1
     : VectorX3d) (inflation_radius : Q) :
  length edge_vertex0_t0 = d -> length edge_vertex1_t0 = d ->
  length edge_vertex0_t1 = d -> length edge_vertex1_t1 = d ->
  (0 <= inflation_radius)%Q ->
  exists box,
    inflated_box (calculate_edge_extents edge_vertex0_t0 edge_vertex1_t0
                    edge_vertex0_t1 edge_vertex1_t1) inflation_radius
    = Some box
    /\ built_box d box
    /\ box_contains d box edge_vertex0_t0 inflation_radius
    /\ box_contains d box edge_vertex1_t0 inflation_radius
    /\ box_contains d box edge_vertex0_t1 inflation_radius
    /\ box_contains d box edge_vertex1_t1 inflation_radius.
Proof.
  intros H0 H1 H2 H3 Hr. unfold calculate_edge_extents.
  match goal with
  | |- context [inflated_box (?lo, ?hi) _] =>
      destruct (inflated_box_accepts d lo hi inflation_radius)
        as (box & Hbox & Hbuilt & Hco)
  end.
  - coeffd_extents.
  - coeffd_extents.
  - intros i Hi. coeffd_extents. min_max_bounds. lra.
  - exists box. split; [exact Hbox|]. split; [exact Hbuilt|].
    repeat split;
      match goal with
      | Hi : (?i < d)%nat |- _ => destruct (Hco i Hi) as [E1 E2]
      end;
      rewrite ?E1, ?E2; coeffd_extents; min_max_bounds; lra.
Qed.

Lemma swept_edge_box_contains_witness :
  exists box,
    inflated_box (calculate_edge_extents [0; 0]%Q [1; 0]%Q
                    [0; 1]%Q [1; 2 # 1]%Q) (1 # 2)%Q
    = Some box
    /\ built_box 2 box
    /\ box_contains 2 box [0; 0]%Q (1 # 2)%Q
    /\ box_contains 2 box [1; 0]%Q (1 # 2)%Q
    /\ box_contains 2 box [0; 1]%Q (1 # 2)%Q
    /\ box_contains 2 box [1; 2 # 1]%Q (1 # 2)%Q.
Proof.
  apply (swept_edge_box_contains 2 [0; 0]%Q [1; 0]%Q [0; 1]%Q [1; 2 # 1]%Q
           (1 # 2)%Q); try reflexivity.
  discriminate.
Defined.

(** X12.  Over exact arithmetic, for a radius that is not negative, the
    box that [addFace] builds for a triangle passes the assertion of the
    constructor and contains every point within the radius of the three
    corners at the start and at the end of the step. *)
Theorem swept_face_box_contains (d : nat)
  (face_vertex0_t0 face_vertex1_t0 face_vertex2_t0
   face_vertex0_t1 face_vertex1_t1 face_vertex2_t1 : VectorX3d)
  (inflation_radius : Q) :
  length face_vertex0_t0 = d -> length face_vertex1_t0 = d ->
  length face_vertex2_t0 = d -> length face_vertex0_t1 = d ->
  length face_vertex1_t1 = d -> length face_vertex2_t1 = d ->
  (0 <= inflation_radius)%Q ->
  exists box,
    inflated_box (calculate_face_extents
                    face_vertex0_t0 face_vertex1_t0 face_vertex2_t0
                    face_vertex0_t1 face_vertex1_t1 face_vertex2_t1)
                 inflation_radius = Some box
    /\ built_box d box
    /\ box_contains d box face_vertex0_t0 inflation_radius
    /\ box_contains d box face_vertex1_t0 inflation_radius
    /\ box_contains d box face_vertex2_t0 inflation_radius
    /\ box_contains d box face_vertex0_t1 inflation_radius
    /\ box_contains d box face_vertex1_t1 inflation_radius
    /\ box_contains d box face_vertex2_t1 inflation_radius.
Proof.
  intros H0 H1 H2 H3 H4 H5 Hr. unfold calculate_face_extents.
  match goal with
  | |- context [inflated_box (?lo, ?hi) _] =>
      destruct (inflated_box_accepts d lo hi inflation_radius)
        as (box & Hbox & Hbuilt & Hco)
  end.
  - coeffd_extents.
  - coeffd_extents.
  - intros i Hi. coeffd_extents. min_max_bounds. lra.
  - exists box. split; [exact Hbox|]. split; [exact Hbuilt|].
    repeat split;
      match goal with
      | Hi : (?i < d)%nat |- _ => destruct (Hco i Hi) as [E1 E2]
      end;
      rewrite ?E1, ?E2; coeffd_extents; min_max_bounds; lra.
Qed.

Lemma swept_face_box_contains_witness :
  exists box,
    inflated_box (calculate_face_extents
                    [0; 0; 0]%Q [1; 0; 0]%Q [0; 1; 0]%Q
                    [0; 0; 1]%Q [1; 0; 1]%Q [0; 1; 1]%Q) (1 # 2)%Q
    = Some box
    /\ built_box 3 box
    /\ box_contains 3 box [0; 0; 0]%Q (1 # 2)%Q
    /\ box_contains 3 box [1; 0; 0]%Q (1 # 2)%Q
    /\ box_contains 3 box [0; 1; 0]%Q (1 # 2)%Q
    /\ box_contains 3 box [0; 0; 1]%Q (1 # 2)%Q
    /\ box_contains 3 box [1; 0; 1]%Q (1 # 2)%Q
    /\ box_contains 3 box [0; 1; 1]%Q (1 # 2)%Q.
Proof.
  apply (swept_face_box_contains 3 [0; 0; 0]%Q [1; 0; 0]%Q [0; 1; 0]%Q
           [0; 0; 1]%Q [1; 0; 1]%Q [0; 1; 1]%Q (1 # 2)%Q); try reflexivity.
  discriminate.
Defined.

(** X13.  Over exact arithmetic, [addVertex] fails, on the assertion
    [min <= max] of the box constructor, whenever the radius is so far
    below zero that on some axis the inflated interval of the vertex is
    inverted; the radius itself is not checked. *)
Theorem addVertex_inverted_box (g : HashGrid) (vertex_t0 vertex_t1 : VectorX3d)
  (index : Z) (inflation_radius : Q) (i : nat) :
  length vertex_t0 = length vertex_t1 -> (i < length vertex_t0)%nat ->
  (Qmax (coeffd vertex_t0 i) (coeffd vertex_t1 i) + inflation_radius
   < Qmin (coeffd vertex_t0 i) (coeffd vertex_t1 i) - inflation_radius)%Q ->
  addVertex g vertex_t0 vertex_t1 index inflation_radius = None.
Proof.
  intros Hlen Hi Hinv. unfold addVertex, addVertex_into, inflated_box.
  cbn [calculate_vertex_extents fst snd].
  rewrite (AABB_ctor_rejects _ _ i); [reflexivity | | |].
  - unfold sub_scalar. rewrite length_map, length_cwiseMin. lia.
  - unfold add_scalar. rewrite length_map, length_cwiseMax. lia.
  - coeffd_extents. exact Hinv.
Qed.

Lemma addVertex_inverted_box_witness :
  addVertex two_cells_grid [1 # 2; 1 # 2]%Q [1 # 2; 1 # 2]%Q 0 (-1 # 8)%Q
  = None.
Proof.
  apply (addVertex_inverted_box two_cells_grid [1 # 2; 1 # 2]%Q
           [1 # 2; 1 # 2]%Q 0 (-1 # 8)%Q 0%nat).
  - reflexivity.
  - cbn. lia.
  - reflexivity.
Defined.

(** ** The size of the grid *)

(** Embedded integers as atoms of the linear arithmetic of [Q]. *)
Ltac hide_inject :=
  repeat match goal with
  | |- context [inject_Z ?z] =>
      let v := fresh "v" in set (v := inject_Z z) in *; clearbody v
  | H : context [inject_Z ?z] |- _ =>
      let v := fresh "v" in set (v := inject_Z z) in *; clearbody v
  end.

Lemma Qnum_neg (q : Q) : Qnum q < 0 <-> (q < 0)%Q.
Proof. unfold Qlt. cbn. lia. Qed.

Lemma cast_int_ge_m1 (q : Q) : -1 <= cast_int q <-> (-2 # 1 < q)%Q.
Proof.
  destruct (Z_lt_le_dec (Qnum q) 0) as [Hneg | Hpos].
  - rewrite (cast_int_ceiling q Hneg).
    pose proof (Qle_ceiling q) as H1. pose proof (Qceiling_lt q) as H2.
    split; intros H.
    + assert (Hz : (inject_Z (-1) <= inject_Z (Qceiling q))%Q)
        by now rewrite <- Zle_Qle.
      unfold Z.sub in H2. rewrite inject_Z_plus, inject_Z_opp in H2.
      change (inject_Z (-1)) with (-1 # 1)%Q in *.
      change (inject_Z 1) with (1 # 1)%Q in *. hide_inject. lra.
    + assert (Hz : (inject_Z (-2) < inject_Z (Qceiling q))%Q)
        by (change (inject_Z (-2)) with (-2 # 1)%Q; hide_inject; lra).
      rewrite <- Zlt_Qlt in Hz. lia.
  - rewrite (cast_int_floor q Hpos).
    assert (Hq : (0 <= q)%Q) by (unfold Qle; cbn; lia).
    assert (H0 : 0 <= Qfloor q).
    { change 0 with (Qfloor 0). now apply Qfloor_resp_le. }
    split; intros _; [lra | lia].
Qed.

Lemma cast_int_le_bound (q : Q) (n : Z) :
  0 <= n -> (cast_int q <= n <-> (q < inject_Z (n + 1))%Q).
Proof.
  intros Hn. rewrite inject_Z_plus. change (inject_Z 1) with (1 # 1)%Q.
  assert (Hn' : (0 <= inject_Z n)%Q)
    by (change 0%Q with (inject_Z 0); now rewrite <- Zle_Qle).
  destruct (Z_lt_le_dec (Qnum q) 0) as [Hneg | Hpos].
  - rewrite (cast_int_ceiling q Hneg).
    pose proof (proj1 (Qnum_neg q) Hneg) as Hq.
    assert (Hc : Qceiling q <= 0).
    { change 0 with (Qceiling 0). apply Qceiling_resp_le. lra. }
    split; intros _; [hide_inject; lra | lia].
  - rewrite (cast_int_floor q Hpos).
    pose proof (Qfloor_le q) as H1. pose proof (Qlt_floor q) as H2.
    rewrite inject_Z_plus in H2. change (inject_Z 1) with (1 # 1)%Q in H2.
    split; intros H.
    + assert (Hz : (inject_Z (Qfloor q) <= inject_Z n)%Q)
        by now rewrite <- Zle_Qle.
      hide_inject. lra.
    + assert (Hz : (inject_Z (Qfloor q) < inject_Z (n + 1))%Q).
      { rewrite inject_Z_plus. change (inject_Z 1) with (1 # 1)%Q.
        hide_inject. lra. }
      rewrite <- Zlt_Qlt in Hz. lia.
Qed.

Lemma Qdiv_lt_l (a x c : Q) :
  (0 < c)%Q -> (a < x / c <-> a * c < x)%Q.
Proof.
  intros Hc.
  assert (E : (x / c * c == x)%Q) by (field; lra).
  rewrite <- (Qmult_lt_r a (x / c) c Hc). now rewrite E.
Qed.

Lemma Qdiv_lt_r (a x c : Q) :
  (0 < c)%Q -> (x / c < a <-> x < a * c)%Q.
Proof.
  intros Hc.
  assert (E : (x / c * c == x)%Q) by (field; lra).
  rewrite <- (Qmult_lt_r (x / c) a c Hc). now rewrite E.
Qed.

Lemma Qdiv_le_r (a x c : Q) :
  (0 < c)%Q -> (x / c <= a <-> x <= a * c)%Q.
Proof.
  intros Hc.
  assert (E : (x / c * c == x)%Q) by (field; lra).
  rewrite <- (Qmult_le_r (x / c) a c Hc). now rewrite E.
Qed.

Lemma grid_size_of_covers (min max : ArrayMax3d) (cellSize : Q) (i : nat) :
  (0 < cellSize)%Q -> (i < length min)%nat -> (i < length max)%nat ->
  1 <= coeffi (grid_size_of min max cellSize) i
  /\ (coeffd max i - coeffd min i
      <= inject_Z (coeffi (grid_size_of min max cellSize) i) * cellSize)%Q
  /\ (1 < coeffi (grid_size_of min max cellSize) i ->
      (inject_Z (coeffi (grid_size_of min max cellSize) i - 1) * cellSize
       < coeffd max i - coeffd min i)%Q).
Proof.
  intros Hc Hmin Hmax. rewrite coeffi_grid_size_of by assumption.
  set (q := ((coeffd max i - coeffd min i) / cellSize)%Q).
  pose proof (Qle_ceiling q) as H1. pose proof (Qceiling_lt q) as H2.
  split; [lia|]. split.
  - apply (Qdiv_le_r _ _ _ Hc). fold q.
    assert (Hz : (inject_Z (Qceiling q) <= inject_Z (Z.max 1 (Qceiling q)))%Q)
      by (rewrite <- Zle_Qle; lia).
    hide_inject. lra.
  - intros Hmany. apply (Qdiv_lt_l _ _ _ Hc). fold q.
    replace (Z.max 1 (Qceiling q)) with (Qceiling q) by lia. exact H2.
Qed.

(** X14.  Over exact arithmetic, with a positive cell size and a cell
    count that fits [int], [resize] gives every axis the least number of
    cells, and at least one, that covers the extent of the domain:
    [gridSize * cellSize] reaches from the lower to the upper corner, and
    one cell fewer would not unless the axis has one cell. *)
Theorem resize_covers_domain (g g' : HashGrid) (min max : ArrayMax3d)
  (cellSize : Q) (i : nat) :
  resize g min max cellSize = Some g' ->
  (0 < cellSize)%Q ->
  (i < length min)%nat -> (i < length max)%nat ->
  in_int_range (Qceiling ((coeffd max i - coeffd min i) / cellSize)) ->
  1 <= coeffi (m_gridSize g') i
  /\ (coeffd max i - coeffd min i
      <= inject_Z (coeffi (m_gridSize g') i) * cellSize)%Q
  /\ (1 < coeffi (m_gridSize g') i ->
      (inject_Z (coeffi (m_gridSize g') i - 1) * cellSize
       < coeffd max i - coeffd min i)%Q).
Proof.
  intros Hr Hc Hmin Hmax _. unfold resize in Hr. pre_inv Hr Hnz.
  injection Hr as <-. cbn [m_gridSize]. rewrite resize_grid_size.
  now apply grid_size_of_covers.
Qed.

Lemma resize_covers_domain_witness :
  1 <= coeffi (m_gridSize two_cells_grid) 0
  /\ (coeffd [2 # 1; 1] 0 - coeffd [0; 0] 0
      <= inject_Z (coeffi (m_gridSize two_cells_grid) 0) * 1)%Q
  /\ (1 < coeffi (m_gridSize two_cells_grid) 0 ->
      (inject_Z (coeffi (m_gridSize two_cells_grid) 0 - 1) * 1
       < coeffd [2 # 1; 1] 0 - coeffd [0; 0] 0)%Q).
Proof.
  apply (resize_covers_domain empty_grid two_cells_grid [0; 0]%Q
           [2 # 1; 1]%Q 1%Q 0%nat).
  - reflexivity.
  - reflexivity.
  - cbn. lia.
  - cbn. lia.
  - vm_compute. split; discriminate.
Defined.

(** ** Which boxes [addElement] accepts *)

Lemma forallb_nth {A : Type} (f : A -> bool) (da : A) (l : list A) (i : nat) :
  forallb f l = true -> (i < length l)%nat -> f (nth i l da) = true.
Proof.
  intros Hall Hi. rewrite forallb_forall in Hall. apply Hall, nth_In, Hi.
Qed.

Lemma forallb_of_nth {A : Type} (f : A -> bool) (da : A) (l : list A) :
  (forall i, (i < length l)%nat -> f (nth i l da) = true) ->
  forallb f l = true.
Proof.
  intros Hall. apply forallb_forall. intros x Hx.
  destruct (In_nth l x da Hx) as (i & Hi & <-). now apply Hall.
Qed.

Lemma for_incl_returns {St : Type} (body : Z -> St -> option St)
  (lo hi : Z) (s : St) :
  (forall i t, lo <= i <= hi -> exists t', body i t = Some t') ->
  exists s', for_incl lo hi body s = Some s'.
Proof.
  intros Hbody. unfold for_incl.
  destruct (for_count_ind (fun _ _ => True) body (Z.to_nat (hi + 1 - lo))
              lo s I) as (s' & Hrun & _).
  - intros i t Hi _. destruct (Hbody i t) as [t' Ht']; [lia|]. now exists t'.
  - now exists s'.
Qed.

Section Acceptance.
Variable g : HashGrid.
Variable d : nat.
Hypothesis grid_d : grid_dimension g d.
Hypothesis cell_pos : (0 < m_cellSize g)%Q.

Lemma length_cell_of (v : ArrayMax3d) :
  length v = d -> length (cell_of g v) = d.
Proof.
  destruct grid_d as (_ & Hdom & _). intros Hv. unfold cell_of.
  rewrite !length_map, zip_with_length. lia.
Qed.

Lemma coeffi_cell_of (v : ArrayMax3d) (i : nat) :
  length v = d -> (i < d)%nat ->
  coeffi (cell_of g v) i
  = cast_int ((coeffd v i - coeffd (m_domainMin g) i) / m_cellSize g).
Proof.
  destruct grid_d as (_ & Hdom & _). intros Hv Hi.
  unfold cell_of, coeffi, coeffd.
  rewrite (nth_map_lt _ 0%Q) by (rewrite length_map, zip_with_length; lia).
  rewrite (nth_map_lt _ 0%Q) by (rewrite zip_with_length; lia).
  now rewrite (nth_zip_with _ 0%Q 0%Q) by lia.
Qed.

Lemma cell_lower_reach (v : ArrayMax3d) (i : nat) :
  length v = d -> (i < d)%nat ->
  -1 <= coeffi (cell_of g v) i
  <-> (coeffd (m_domainMin g) i - (2 # 1) * m_cellSize g < coeffd v i)%Q.
Proof.
  intros Hv Hi. rewrite (coeffi_cell_of v i Hv Hi), cast_int_ge_m1.
  rewrite (Qdiv_lt_l _ _ _ cell_pos). split; intros H; lra.
Qed.

Lemma cell_upper_reach (v : ArrayMax3d) (i : nat) :
  length v = d -> (i < d)%nat -> 1 <= coeffi (m_gridSize g) i ->
  coeffi (cell_of g v) i <= coeffi (m_gridSize g) i
  <-> (coeffd v i
       < coeffd (m_domainMin g) i
         + inject_Z (coeffi (m_gridSize g) i + 1) * m_cellSize g)%Q.
Proof.
  intros Hv Hi Hgs.
  rewrite (coeffi_cell_of v i Hv Hi), cast_int_le_bound by lia.
  rewrite (Qdiv_lt_r _ _ _ cell_pos). split; intros H; lra.
Qed.

Lemma cell_of_mono (v w : ArrayMax3d) (i : nat) :
  length v = d -> length w = d -> (i < d)%nat ->
  (coeffd v i <= coeffd w i)%Q ->
  coeffi (cell_of g v) i <= coeffi (cell_of g w) i.
Proof.
  intros Hv Hw Hi Hvw. rewrite !coeffi_cell_of by assumption.
  apply cast_int_mono. unfold Qdiv.
  apply Qmult_le_compat_r; [lra|]. apply Qinv_le_0_compat. lra.
Qed.

Lemma cell_index_range (v : ArrayMax3d) (i : nat) :
  1 <= coeffi (m_gridSize g) i ->
  0 <= cell_index g v i < coeffi (m_gridSize g) i.
Proof. unfold cell_index. lia. Qed.

(** A box within reach passes the five assertions of [addElement] and
    every call of [hash]. *)
Lemma addElement_accepts (box : AABB) (id0 : Z) (items : list HashItem) :
  cells_on_each_axis g d -> built_box d box -> within_reach g d box ->
  exists items', addElement g box id0 items = Some items'.
Proof.
  intros Hcells Hbox Hreach.
  destruct (built_box_lengths _ _ Hbox) as [Lmin Lmax].
  pose proof grid_d as (Hd & Hdom & Hgs).
  assert (Hlow : forall i, (i < d)%nat ->
            -1 <= coeffi (cell_of g (getMin box)) i).
  { intros i Hi. apply cell_lower_reach; [assumption..|].
    apply (Hreach i Hi). }
  assert (Hhigh : forall i, (i < d)%nat ->
            coeffi (cell_of g (getMax box)) i <= coeffi (m_gridSize g) i).
  { intros i Hi. apply cell_upper_reach; [assumption.. | now apply Hcells |].
    apply (Hreach i Hi). }
  assert (Hmono : forall i, (i < d)%nat ->
            coeffi (cell_of g (getMin box)) i
            <= coeffi (cell_of g (getMax box)) i).
  { intros i Hi. apply cell_of_mono; [assumption..|].
    apply (built_box_axis d box i Hbox Hi). }
  pose proof (length_cell_of _ Lmin) as Lcmin.
  pose proof (length_cell_of _ Lmax) as Lcmax.
  assert (A1 : forallb (fun c => -1 <=? c) (cell_of g (getMin box)) = true).
  { apply (forallb_of_nth _ 0). rewrite Lcmin. intros i Hi.
    apply Z.leb_le, (Hlow i Hi). }
  assert (A2 : all2 Z.leb (cell_of g (getMin box)) (m_gridSize g) = true).
  { apply (all2_of_nth Z.leb 0 0); [lia|]. rewrite Lcmin. intros i Hi.
    apply Z.leb_le. specialize (Hmono i Hi). specialize (Hhigh i Hi).
    unfold coeffi in *. lia. }
  assert (A3 : forallb (fun c => -1 <=? c) (cell_of g (getMax box)) = true).
  { apply (forallb_of_nth _ 0). rewrite Lcmax. intros i Hi.
    apply Z.leb_le. specialize (Hmono i Hi). specialize (Hlow i Hi).
    unfold coeffi in *. lia. }
  assert (A4 : all2 Z.leb (cell_of g (getMax box)) (m_gridSize g) = true).
  { apply (all2_of_nth Z.leb 0 0); [lia|]. rewrite Lcmax. intros i Hi.
    apply Z.leb_le, (Hhigh i Hi). }
  assert (A5 : all2 Z.leb (clamp_cell g (cell_of g (getMin box)))
                          (clamp_cell g (cell_of g (getMax box))) = true).
  { apply (all2_of_nth Z.leb 0 0);
      rewrite !(length_clamped g d grid_d) by assumption; [reflexivity|].
    intros i Hi. apply Z.leb_le.
    change (coeffi (clamp_cell g (cell_of g (getMin box))) i
            <= coeffi (clamp_cell g (cell_of g (getMax box))) i).
    rewrite !(coeffi_clamped g d grid_d) by assumption.
    apply (cell_index_mono g); [exact cell_pos|].
    apply (built_box_axis d box i Hbox Hi). }
  unfold addElement. rewrite A1, A2, A3, A4, A5. cbn [precondition bind].
  rewrite !(length_clamped g d grid_d) by assumption.
  assert (Hd01 : (0 < d)%nat /\ (1 < d)%nat) by lia.
  rewrite !(coeffi_clamped g d grid_d) by (assumption || lia).
  apply for_incl_returns. intros x t Hx.
  apply for_incl_returns. intros y t1 Hy.
  apply for_incl_returns. intros z t2 Hz.
  pose proof (cell_index_range (getMin box) 0 (Hcells 0%nat ltac:(lia))).
  pose proof (cell_index_range (getMax box) 0 (Hcells 0%nat ltac:(lia))).
  pose proof (cell_index_range (getMin box) 1 (Hcells 1%nat ltac:(lia))).
  pose proof (cell_index_range (getMax box) 1 (Hcells 1%nat ltac:(lia))).
  rewrite (hash_in_range g x y z).
  - cbn [bind]. now eexists.
  - split; [lia|]. split; [lia|].
    destruct Hd as [-> | ->]; cbn [Nat.eqb] in Hz.
    + left. split; [exact Hgs | lia].
    + right. split; [exact Hgs|].
      rewrite !(coeffi_clamped g 3 grid_d) in Hz by (assumption || lia).
      pose proof (cell_index_range (getMin box) 2 (Hcells 2%nat ltac:(lia))).
      pose proof (cell_index_range (getMax box) 2 (Hcells 2%nat ltac:(lia))).
      lia.
Qed.

(** A box that [addElement] accepts is within reach. *)
Lemma addElement_accepted (box : AABB) (id0 : Z)
  (items items' : list HashItem) :
  cells_on_each_axis g d -> built_box d box ->
  addElement g box id0 items = Some items' -> within_reach g d box.
Proof.
  intros Hcells Hbox Hadd i Hi.
  destruct (built_box_lengths _ _ Hbox) as [Lmin Lmax].
  pose proof grid_d as (Hd & Hdom & Hgs).
  unfold addElement in Hadd.
  pre_inv Hadd H1. pre_inv Hadd H2. pre_inv Hadd H3. pre_inv Hadd H4.
  split.
  - apply (cell_lower_reach (getMin box) i Lmin Hi).
    apply Z.leb_le. unfold coeffi.
    apply forallb_nth; [exact H1 | rewrite length_cell_of; assumption].
  - apply (cell_upper_reach (getMax box) i Lmax Hi (Hcells i Hi)).
    apply Z.leb_le. unfold coeffi.
    apply all2_nth; [exact H4 | rewrite length_cell_of; lia | lia].
Qed.
End Acceptance.

(** X15.  Over exact arithmetic, on a grid with a positive cell size and
    at least one cell per axis, [addElement] accepts a box of the
    constructor whose cell quotients fit [int] exactly when the box starts
    less than two cells below the lower corner of the domain and ends less
    than one cell above the last cell, on every axis: the cell quotient is
    truncated toward zero and compared with [-1] and [gridSize]. *)
Theorem addElement_accepts_within_reach (g : HashGrid) (d : nat) (box : AABB)
  (id0 : Z) (items : list HashItem) :
  grid_dimension g d -> (0 < m_cellSize g)%Q ->
  cells_on_each_axis g d -> built_box d box ->
  cells_representable g d box ->
  (exists items', addElement g box id0 items = Some items')
  <-> within_reach g d box.
Proof.
  intros Hg Hc Hcells Hbox _. split.
  - intros [items' Hadd].
    exact (addElement_accepted g d Hg Hc box id0 items items' Hcells Hbox Hadd).
  - intros Hreach.
    exact (addElement_accepts g d Hg Hc box id0 items Hcells Hbox Hreach).
Qed.

Lemma addElement_accepts_within_reach_witness :
  (exists items', addElement two_cells_grid vertex0_box 0 [] = Some items')
  <-> within_reach two_cells_grid 2 vertex0_box.
Proof.
  apply (addElement_accepts_within_reach two_cells_grid 2 vertex0_box 0 []).
  - vm_compute. repeat split; auto.
  - reflexivity.
  - intros [|[|i]] Hi; [vm_compute; discriminate.. | lia].
  - split; reflexivity.
  - intros [|[|i]] Hi; [vm_compute; repeat split; discriminate.. | lia].
Defined.

(** ** How many items [addElement] appends *)

Lemma for_count_length {A : Type} (body : Z -> list A -> option (list A))
  (k : nat) :
  (forall i t t', body i t = Some t' -> length t' = (length t + k)%nat) ->
  forall n x s s',
  for_count n x body s = Some s' -> length s' = (length s + n * k)%nat.
Proof.
  intros Hbody. induction n as [|n IH]; intros x s s' Hrun; cbn in Hrun.
  - injection Hrun as <-. lia.
  - bind_inv Hrun as s1 Hs1. rewrite (IH _ _ _ Hrun), (Hbody _ _ _ Hs1). lia.
Qed.

Lemma for_incl_length {A : Type} (body : Z -> list A -> option (list A))
  (k : nat) (lo hi : Z) (s s' : list A) :
  (forall i t t', body i t = Some t' -> length t' = (length t + k)%nat) ->
  for_incl lo hi body s = Some s' ->
  length s' = (length s + Z.to_nat (hi + 1 - lo) * k)%nat.
Proof. intros Hbody. unfold for_incl. now apply for_count_length. Qed.

Lemma addElement_length (g : HashGrid) (d : nat) (box : AABB) (id0 : Z)
  (items items' : list HashItem) :
  grid_dimension g d -> built_box d box ->
  addElement g box id0 items = Some items' ->
  length items' = (length items + cells_spanned g d box)%nat
  /\ (0 < cells_spanned g d box)%nat.
Proof.
  intros Hg Hbox Hadd.
  destruct (built_box_lengths _ _ Hbox) as [Lmin Lmax].
  assert (Hd : (0 < d)%nat /\ (1 < d)%nat /\ (d = 2 \/ d = 3)%nat)
    by (destruct Hg as ([-> | ->] & _); lia).
  destruct Hd as (Hd0 & Hd1 & Hd23).
  unfold addElement in Hadd.
  pre_inv Hadd H1. pre_inv Hadd H2. pre_inv Hadd H3. pre_inv Hadd H4.
  pre_inv Hadd H5. clear H1 H2 H3 H4.
  assert (Hle : forall i, (i < d)%nat ->
            cell_index g (getMin box) i <= cell_index g (getMax box) i).
  { intros i Hi.
    rewrite <- !(coeffi_clamped g d Hg) by assumption.
    apply Z.leb_le. unfold coeffi.
    apply all2_nth; [exact H5 | |];
      rewrite (length_clamped g d Hg); assumption. }
  rewrite !(length_clamped g d Hg) in Hadd by assumption.
  rewrite !(coeffi_clamped g d Hg) in Hadd by (assumption || lia).
  unfold cells_spanned.
  set (span := fun i : nat =>
         Z.to_nat (cell_index g (getMax box) i + 1
                   - cell_index g (getMin box) i)).
  split.
  - apply for_incl_length
      with (k := (span 1%nat * (if (d =? 3)%nat then span 2%nat else 1))%nat)
      in Hadd; [exact Hadd|].
    intros x t t' Hx.
    apply for_incl_length
      with (k := (if (d =? 3)%nat then span 2%nat else 1%nat)) in Hx;
      [exact Hx|].
    intros y u u' Hy.
    apply for_incl_length with (k := 1%nat) in Hy.
    + rewrite Hy. destruct Hd23 as [-> | ->]; cbn [Nat.eqb].
      * cbn. lia.
      * rewrite !(coeffi_clamped g 3 Hg) by (assumption || lia).
        unfold span. lia.
    + intros z v v' Hz. bind_inv Hz as k Hk. injection Hz as <-.
      rewrite length_app. cbn. lia.
  - pose proof (Hle 0%nat Hd0). pose proof (Hle 1%nat Hd1).
    assert (0 < span 0%nat)%nat by (unfold span; lia).
    assert (0 < span 1%nat)%nat by (unfold span; lia).
    destruct Hd23 as [-> | ->]; cbn [Nat.eqb].
    + nia.
    + pose proof (Hle 2%nat ltac:(lia)).
      assert (0 < span 2%nat)%nat by (unfold span; lia). nia.
Qed.

Lemma for_count_appends {A : Type} (body : Z -> list A -> option (list A))
  (f : Z -> list A) :
  (forall i t t', body i t = Some t' -> t' = t ++ f i) ->
  forall n x s s',
  for_count n x body s = Some s' ->
  s' = s ++ flat_map f (map (fun k => x + Z.of_nat k) (seq 0 n)).
Proof.
  intros Hbody. induction n as [|n IH]; intros x s s' Hrun; cbn in Hrun.
  - injection Hrun as <-. cbn. now rewrite app_nil_r.
  - bind_inv Hrun as s1 Hs1. apply Hbody in Hs1. subst s1.
    rewrite (IH _ _ _ Hrun). cbn [seq map flat_map].
    rewrite <- seq_shift, map_map, Z.add_0_r, <- app_assoc.
    f_equal. f_equal. f_equal. apply map_ext. intros k. lia.
Qed.

Lemma flat_map_singleton {A B : Type} (h : A -> B) (l : list A) :
  flat_map (fun a => [h a]) l = map h l.
Proof. induction l as [|a l IH]; cbn; [reflexivity | now rewrite IH]. Qed.

Lemma for_incl_appends {A : Type} (body : Z -> list A -> option (list A))
  (f : Z -> list A) (lo hi : Z) (s s' : list A) :
  (forall i t t', body i t = Some t' -> t' = t ++ f i) ->
  for_incl lo hi body s = Some s' ->
  s' = s ++ flat_map f (cells_between lo hi).
Proof. intros Hbody. unfold for_incl, cells_between. now apply for_count_appends. Qed.

(** What [addElement] appends. *)
Lemma addElement_items (g : HashGrid) (d : nat) (box : AABB) (id0 : Z)
  (items items' : list HashItem) :
  grid_dimension g d -> built_box d box ->
  addElement g box id0 items = Some items' ->
  items' = items ++ items_of_range g d box id0.
Proof.
  intros Hg Hbox Hadd.
  destruct (built_box_lengths _ _ Hbox) as [Lmin Lmax].
  assert (Hd : (0 < d)%nat /\ (1 < d)%nat /\ (d = 2 \/ d = 3)%nat)
    by (destruct Hg as ([-> | ->] & _); lia).
  destruct Hd as (Hd0 & Hd1 & Hd23).
  unfold addElement in Hadd.
  pre_inv Hadd H1. pre_inv Hadd H2. pre_inv Hadd H3. pre_inv Hadd H4.
  pre_inv Hadd H5. clear H1 H2 H3 H4 H5.
  rewrite !(length_clamped g d Hg) in Hadd by assumption.
  rewrite !(coeffi_clamped g d Hg) in Hadd by (assumption || lia).
  unfold items_of_range.
  revert Hadd. apply for_incl_appends.
  intros x t t' Hx. revert Hx. apply for_incl_appends.
  intros y u u' Hy.
  assert (Hz : u' = u ++ flat_map
            (fun z => [mkHashItem (wrap_int (cell_code (m_gridSize g) x y z))
                                  id0 box])
            (if (d =? 3)%nat
             then cells_between (cell_index g (getMin box) 2)
                                (cell_index g (getMax box) 2)
             else cells_between 0 0)).
  { destruct Hd23 as [-> | ->]; cbn [Nat.eqb] in *.
    - revert Hy. apply for_incl_appends.
      intros z v v' Hv. bind_inv Hv as k Hk. injection Hv as <-.
      apply hash_Some in Hk. destruct Hk as (_ & _ & _ & _ & ->).
      unfold HashItem_ctor, int_of_long. now rewrite wrap_int_idem.
    - rewrite !(coeffi_clamped g 3 Hg) in Hy by (assumption || lia).
      revert Hy. apply for_incl_appends.
      intros z v v' Hv. bind_inv Hv as k Hk. injection Hv as <-.
      apply hash_Some in Hk. destruct Hk as (_ & _ & _ & _ & ->).
      unfold HashItem_ctor, int_of_long. now rewrite wrap_int_idem. }
  now rewrite flat_map_singleton in Hz.
Qed.

(** X16.  Over exact arithmetic, [addElement] appends exactly one item for
    every cell of the clamped cell range of the box, in the order of its
    three loops: the item of the cell [(x, y, z)] has the key
    [(z * gridSize.y + y) * gridSize.x + x] reduced to [int] and carries
    the id and the box of the element.  The items already in the bucket
    stay in front, and the number of new items is the product of the
    numbers of cells the box spans on the axes, at least one. *)
Theorem addElement_item_count (g : HashGrid) (d : nat) (box : AABB) (id0 : Z)
  (items items' : list HashItem) :
  grid_dimension g d -> built_box d box ->
  addElement g box id0 items = Some items' ->
  items' = items ++ items_of_range g d box id0
  /\ length (items_of_range g d box id0) = cells_spanned g d box
  /\ (0 < cells_spanned g d box)%nat.
Proof.
  intros Hg Hbox Hadd.
  pose proof (addElement_items g d box id0 _ _ Hg Hbox Hadd) as Hitems.
  destruct (addElement_length g d box id0 _ _ Hg Hbox Hadd) as [Hlen Hpos].
  split; [exact Hitems|]. split; [|exact Hpos].
  rewrite Hitems, length_app in Hlen. lia.
Qed.

Lemma addElement_item_count_witness :
  [mkHashItem 0 0 vertex0_box; mkHashItem 1 0 vertex0_box]
  = [] ++ items_of_range two_cells_grid 2 vertex0_box 0
  /\ length (items_of_range two_cells_grid 2 vertex0_box 0)
     = cells_spanned two_cells_grid 2 vertex0_box
  /\ (0 < cells_spanned two_cells_grid 2 vertex0_box)%nat.
Proof.
  apply (addElement_item_count two_cells_grid 2 vertex0_box 0 []).
  - vm_compute. repeat split; auto.
  - split; reflexivity.
  - vm_compute. reflexivity.
Defined.

(** ** A mesh inside the domain *)

















(** ** What a query does to the grid *)

Lemma insert_sorted_least {A : Type} (ltb : A -> A -> bool) (x : A)
  (l : list A) :
  Forall (not_after ltb x) l -> insert_sorted ltb x l = x :: l.
Proof.
  destruct l as [|y t]; [reflexivity|]. intros Hall. cbn.
  inversion Hall as [|? ? Hy _]; subst. unfold not_after in Hy.
  now rewrite Hy.
Qed.

(** Sorting a sorted vector leaves it as it is. *)
Lemma parallel_sort_sorted_id {A : Type} (ltb : A -> A -> bool) (l : list A) :
  StronglySorted (not_after ltb) l -> parallel_sort ltb l = l.
Proof.
  induction 1 as [|x l Hs IH Hall]; [reflexivity|].
  cbn. unfold parallel_sort in IH. rewrite IH.
  now apply insert_sorted_least.
Qed.

Lemma parallel_sort_HashItem_idem (items : list HashItem) :
  parallel_sort HashItem_ltb (parallel_sort HashItem_ltb items)
  = parallel_sort HashItem_ltb items.
Proof. apply parallel_sort_sorted_id, parallel_sort_HashItem_sorted. Qed.

(** The grid that a query leaves: the same sizing, the buckets it joins
    sorted, the third bucket untouched. *)
Lemma query_grid (k : QueryKind) (g g' : HashGrid) (m : Mesh)
  (candidates r : list (CandidateOf k)) :
  query k g m candidates = Some (g', r) ->
  g' = mkHashGrid (m_cellSize g) (m_gridSize g) (m_domainMin g)
         (m_domainMax g)
         (match k with
          | VertexEdge | FaceVertex =>
              parallel_sort HashItem_ltb (m_vertexItems g)
          | _ => m_vertexItems g
          end)
         (match k with
          | FaceVertex => m_edgeItems g
          | _ => parallel_sort HashItem_ltb (m_edgeItems g)
          end)
         (match k with
          | EdgeFace | FaceVertex =>
              parallel_sort HashItem_ltb (m_faceItems g)
          | _ => m_faceItems g
          end).
Proof.
  destruct k; cbn [query CandidateOf];
    unfold getVertexEdgePairs, getEdgeEdgePairs, getEdgeFacePairs,
      getFaceVertexPairs, getPairs, getPairs_self;
    intros Hrun; bind_inv Hrun as p Hp; bind_inv Hp as c Hc;
    injection Hp as <-; injection Hrun as <- _; reflexivity.
Qed.

(** X20.  A query changes the grid only by sorting: the sizing is kept, no
    bucket gains or loses an item, and the two buckets that the query
    joins are left in the order of [(key, id)]. *)
Theorem query_sorts_buckets (k : QueryKind) (g g' : HashGrid) (m : Mesh)
  (candidates r : list (CandidateOf k)) :
  query k g m candidates = Some (g', r) ->
  same_sizing g g'
  /\ Permutation (m_vertexItems g) (m_vertexItems g')
  /\ Permutation (m_edgeItems g) (m_edgeItems g')
  /\ Permutation (m_faceItems g) (m_faceItems g')
  /\ StronglySorted (not_after HashItem_ltb) (bucket0 k g')
  /\ StronglySorted (not_after HashItem_ltb) (bucket1 k g').
Proof.
  intros Hq. rewrite (query_grid k g g' m candidates r Hq).
  split; [now repeat split|].
  destruct k; cbn [m_vertexItems m_edgeItems m_faceItems bucket0 bucket1];
    repeat split;
    try apply parallel_sort_HashItem_sorted;
    try (symmetry; apply parallel_sort_perm);
    reflexivity.
Qed.

Lemma query_sorts_buckets_witness :
  same_sizing grid_at_rest grid_at_rest
  /\ Permutation (m_vertexItems grid_at_rest) (m_vertexItems grid_at_rest)
  /\ Permutation (m_edgeItems grid_at_rest) (m_edgeItems grid_at_rest)
  /\ Permutation (m_faceItems grid_at_rest) (m_faceItems grid_at_rest)
  /\ StronglySorted (not_after HashItem_ltb) (bucket0 VertexEdge grid_at_rest)
  /\ StronglySorted (not_after HashItem_ltb) (bucket1 VertexEdge grid_at_rest).
Proof.
  apply (query_sorts_buckets VertexEdge grid_at_rest grid_at_rest
           right_cell_mesh [] [mkEdgeVertexCandidate 0 1]).
  vm_compute. reflexivity.
Defined.

(** ** The candidates as a set *)

Lemma sorted_result_In (k : QueryKind) (l : list (CandidateOf k))
  (c : CandidateOf k) :
  In c (unique_erase cand_eqb (parallel_sort cand_ltb l)) <-> In c l.
Proof.
  split; [|apply sorted_result_keeps].
  intros Hin. apply (unique_erase_In cand_eqb) in Hin.
  apply (proj1 (parallel_sort_In cand_ltb _ _)) in Hin. exact Hin.
Qed.

(** Two strictly increasing lists with the same entries are equal. *)
Lemma increasing_unique {A : Type} (ltb : A -> A -> bool) :
  (forall a, ltb a a = false) ->
  (forall a b c, ltb a b = true -> ltb b c = true -> ltb a c = true) ->
  forall l1 l2 : list A,
  StronglySorted (before ltb) l1 -> StronglySorted (before ltb) l2 ->
  (forall x, In x l1 <-> In x l2) -> l1 = l2.
Proof.
  intros Hirr Htrans. induction l1 as [|a t1 IH]; intros l2 H1 H2 Hsame.
  - destruct l2 as [|b t2]; [reflexivity|].
    exfalso. apply (proj2 (Hsame b)). now left.
  - destruct l2 as [|b t2]; [exfalso; apply (proj1 (Hsame a)); now left|].
    inversion H1 as [|? ? Ht1 Ha]; subst.
    inversion H2 as [|? ? Ht2 Hb]; subst.
    rewrite Forall_forall in Ha, Hb.
    assert (E : a = b).
    { destruct (proj1 (Hsame a) (or_introl eq_refl)) as [E | Hin];
        [now symmetry|].
      destruct (proj2 (Hsame b) (or_introl eq_refl)) as [E | Hin'];
        [exact E|].
      exfalso. specialize (Ha b Hin'). specialize (Hb a Hin).
      unfold before in Ha, Hb.
      pose proof (Htrans a b a Ha Hb) as Haa. rewrite Hirr in Haa.
      discriminate. }
    subst b. f_equal. apply IH; [assumption..|].
    intros x. split; intros Hx.
    + destruct (proj1 (Hsame x) (or_intror Hx)) as [E | Hin]; [|exact Hin].
      subst x. specialize (Ha a Hx). unfold before in Ha.
      now rewrite Hirr in Ha.
    + destruct (proj2 (Hsame x) (or_intror Hx)) as [E | Hin]; [|exact Hin].
      subst x. specialize (Hb a Hx). unfold before in Hb.
      now rewrite Hirr in Hb.
Qed.

Lemma sorted_result_increasing (k : QueryKind) (l : list (CandidateOf k)) :
  StronglySorted (before cand_ltb)
                 (unique_erase cand_eqb (parallel_sort cand_ltb l)).
Proof.
  apply sort_unique_increasing.
  - apply cand_ltb_irrefl.
  - apply cand_ltb_trans.
  - apply cand_ltb_cotrans.
  - apply cand_eqb_equiv.
Qed.

(** The sorted result depends on the entries of the vector only. *)
Lemma sorted_result_ext (k : QueryKind) (l1 l2 : list (CandidateOf k)) :
  (forall c, In c l1 <-> In c l2) ->
  unique_erase cand_eqb (parallel_sort cand_ltb l1)
  = unique_erase cand_eqb (parallel_sort cand_ltb l2).
Proof.
  intros Hsame.
  apply (increasing_unique cand_ltb cand_ltb_irrefl cand_ltb_trans);
    try apply sorted_result_increasing.
  intros c. rewrite !sorted_result_In. apply Hsame.
Qed.

(** X21.  As a set, the result of a query is the union of the candidates
    it was given and the candidates the same query returns on an empty
    vector: no supplied candidate is dropped, and what is added does not
    depend on the supplied ones. *)
Theorem query_result_union (k : QueryKind) (g g' : HashGrid) (m : Mesh)
  (candidates r : list (CandidateOf k)) :
  query k g m candidates = Some (g', r) ->
  exists found,
    query k g m [] = Some (g', found)
    /\ forall c, In c r <-> In c candidates \/ In c found.
Proof.
  intros Hq. destruct (query_spec k g m candidates g' r Hq)
    as (e & -> & Hany & _).
  eexists. split; [apply (Hany [])|].
  intros c. cbn [app]. rewrite !sorted_result_In, in_app_iff. reflexivity.
Qed.

Lemma query_result_union_witness :
  exists found,
    query VertexEdge grid_at_rest right_cell_mesh [] = Some (grid_at_rest, found)
    /\ forall c,
         In c [mkEdgeVertexCandidate 0 0; mkEdgeVertexCandidate 0 1;
               mkEdgeVertexCandidate 1 1]
         <-> In c (unsorted_candidates VertexEdge) \/ In c found.
Proof.
  apply (query_result_union VertexEdge grid_at_rest grid_at_rest
           right_cell_mesh (unsorted_candidates VertexEdge)).
  vm_compute. reflexivity.
Defined.

Lemma query_again (k : QueryKind) (g g' : HashGrid) (m : Mesh)
  (candidates r candidates' : list (CandidateOf k)) :
  query k g m candidates = Some (g', r) ->
  exists r', query k g m candidates' = Some (g', r')
             /\ query k g' m candidates' = Some (g', r').
Proof.
  intros Hq. destruct (query_spec k g m candidates g' r Hq)
    as (e & _ & Hany & _).
  eexists. split; [apply Hany|].
  rewrite <- (Hany candidates').
  rewrite (query_grid k g g' m candidates r Hq).
  destruct k; cbn [query CandidateOf];
    unfold getVertexEdgePairs, getEdgeEdgePairs, getEdgeFacePairs,
      getFaceVertexPairs, getPairs, getPairs_self;
    cbn [m_vertexItems m_edgeItems m_faceItems m_cellSize m_gridSize
         m_domainMin m_domainMax set_vertexItems set_edgeItems set_faceItems];
    rewrite ?parallel_sort_HashItem_idem;
    match goal with
    | |- bind (bind ?scan _) _ = _ => destruct scan; reflexivity
    end.
Qed.

(** X22.  Asking again changes nothing when no two items of a joined
    bucket tie under [operator<] (no two items share both key and id, so
    that the order the sort leaves is determined): a query run a second
    time, on the grid the first run left and on the candidates the first
    run returned, returns the same grid and the same candidates. *)
Theorem query_idempotent (k : QueryKind) (g g' : HashGrid) (m : Mesh)
  (candidates r : list (CandidateOf k)) :
  no_ties (bucket0 k g) -> no_ties (bucket1 k g) ->
  query k g m candidates = Some (g', r) ->
  query k g' m r = Some (g', r).
Proof.
  intros _ _ Hq.
  destruct (query_again k g g' m candidates r r Hq) as (r' & Hr' & ->).
  f_equal. f_equal.
  destruct (query_spec k g m candidates g' r Hq) as (e & Er & Hany & _).
  rewrite (Hany r) in Hr'. injection Hr' as <-.
  assert (Hr : forall c, In c r <-> In c candidates \/ In c e)
    by (intros c; rewrite Er, sorted_result_In, in_app_iff; reflexivity).
  transitivity (unique_erase cand_eqb
                  (parallel_sort cand_ltb (candidates ++ e)));
    [|now symmetry].
  apply sorted_result_ext.
  intros c. rewrite !in_app_iff, Hr. tauto.
Qed.

Lemma query_idempotent_witness :
  query VertexEdge grid_at_rest right_cell_mesh [mkEdgeVertexCandidate 0 1]
  = Some (grid_at_rest, [mkEdgeVertexCandidate 0 1]).
Proof.
  apply (query_idempotent VertexEdge grid_at_rest grid_at_rest
           right_cell_mesh []).
  - vm_compute.
    repeat (apply NoDup_cons;
            [cbn; intros H; repeat (destruct H as [H | H]; try discriminate H);
             exact H|]).
    apply NoDup_nil.
  - vm_compute.
    repeat (apply NoDup_cons;
            [cbn; intros H; repeat (destruct H as [H | H]; try discriminate H);
             exact H|]).
    apply NoDup_nil.
  - vm_compute. reflexivity.
Defined.

(** ** A larger inflation radius *)

Lemma swept_edge_box_corners (d : nat) (vertices_t0 vertices_t1 : MatrixXd)
  (edges : MatrixXi) (inflation_radius : Q) (ei : Z) (box : AABB) :
  positions_of_dimension d vertices_t0 ->
  positions_of_dimension d vertices_t1 ->
  rows vertices_t1 = rows vertices_t0 ->
  Forall (proper_edge (rows vertices_t0)) edges ->
  0 <= ei < rows edges ->
  swept_edge_box vertices_t0 vertices_t1 edges inflation_radius ei
  = Some box ->
  forall i, (i < d)%nat ->
    coeffd (getMin box) i
    = (coeffd (fst (calculate_edge_extents
                      (row vertices_t0 (at2 edges ei 0))
                      (row vertices_t0 (at2 edges ei 1))
                      (row vertices_t1 (at2 edges ei 0))
                      (row vertices_t1 (at2 edges ei 1)))) i
       - inflation_radius)%Q
    /\ coeffd (getMax box) i
       = (coeffd (snd (calculate_edge_extents
                         (row vertices_t0 (at2 edges ei 0))
                         (row vertices_t0 (at2 edges ei 1))
                         (row vertices_t1 (at2 edges ei 0))
                         (row vertices_t1 (at2 edges ei 1)))) i
          + inflation_radius)%Q.
Proof.
  intros H0 H1 Hrows Hproper Hei Hbox i Hi.
  pose proof (edge_entry edges _ Hproper ei 0 Hei ltac:(lia)) as Ha.
  pose proof (edge_entry edges _ Hproper ei 1 Hei ltac:(lia)) as Hb.
  pose proof (row_dimension d vertices_t0 _ H0 Ha) as L00.
  pose proof (row_dimension d vertices_t0 _ H0 Hb) as L01.
  pose proof (row_dimension d vertices_t1 _ H1 ltac:(rewrite Hrows; exact Ha))
    as L10.
  pose proof (row_dimension d vertices_t1 _ H1 ltac:(rewrite Hrows; exact Hb))
    as L11.
  unfold swept_edge_box, inflated_box, AABB_ctor in Hbox.
  pre_inv Hbox Hl. pre_inv Hbox Hle. injection Hbox as <-.
  cbn [getMin getMax calculate_edge_extents fst snd].
  split; [rewrite coeffd_sub_scalar | rewrite coeffd_add_scalar];
    try reflexivity; coeffd_extents.
Qed.

(** X5.  Over exact arithmetic a larger inflation radius never loses an
    edge-edge candidate: on a grid with a positive cell size and an empty
    edge bucket, every pair that [getEdgeEdgePairs] returns after
    [addEdges] with the radius [r] is returned after [addEdges] with a
    radius [r' >= r]. *)
Theorem edge_edge_inflation_monotone (g g1 g1' g2 g2' : HashGrid) (d : nat)
  (vertices_t0 vertices_t1 : MatrixXd) (m : Mesh) (r r' : Q)
  (found found' : list EdgeEdgeCandidate) :
  grid_dimension g d -> (0 < m_cellSize g)%Q -> m_edgeItems g = [] ->
  positions_of_dimension d vertices_t0 ->
  positions_of_dimension d vertices_t1 ->
  Forall (proper_edge (rows vertices_t0)) (mesh_edges m) ->
  rows (mesh_edges m) <= 2147483648 ->
  (r <= r')%Q ->
  addEdges g vertices_t0 vertices_t1 (mesh_edges m) r = Some g1 ->
  addEdges g vertices_t0 vertices_t1 (mesh_edges m) r' = Some g1' ->
  query EdgeEdge g1 m [] = Some (g2, found) ->
  query EdgeEdge g1' m [] = Some (g2', found') ->
  incl found found'.
Proof.
  intros Hg Hc Hempty HV0 HV1 Hproper Hmany Hrr Hadd Hadd' Hq Hq' c Hin.
  assert (Hrows : rows vertices_t1 = rows vertices_t0).
  { unfold addEdges in Hadd. pre_inv Hadd Hr. lia. }
  assert (Hd : (d = 2 \/ d = 3)%nat) by apply Hg.
  destruct (edge_edge_found_edges _ _ _ _ _ _ _ _ _ Hempty Hmany Hadd Hq Hin)
    as (ei & ej & a & b & -> & Hij & Hj & Ha & Hb & Ho & He & Hs).
  assert (Hei : 0 <= ei < rows (mesh_edges m)) by lia.
  assert (Hej : 0 <= ej < rows (mesh_edges m)) by lia.
  destruct (addEdges_items _ _ _ _ _ _ ei Hadd' Hei) as (a' & _ & _ & Ha' & _).
  destruct (addEdges_items _ _ _ _ _ _ ej Hadd' Hej) as (b' & _ & _ & Hb' & _).
  pose proof (swept_edge_box_built d _ _ _ _ ei a HV0 HV1 Hrows Hproper
                Hei Ha) as Hba.
  pose proof (swept_edge_box_built d _ _ _ _ ej b HV0 HV1 Hrows Hproper
                Hej Hb) as Hbb.
  pose proof (swept_edge_box_built d _ _ _ _ ei a' HV0 HV1 Hrows Hproper
                Hei Ha') as Hba'.
  pose proof (swept_edge_box_built d _ _ _ _ ej b' HV0 HV1 Hrows Hproper
                Hej Hb') as Hbb'.
  assert (Ho' : are_overlapping a' b' = Some true).
  { apply (are_overlapping_iff_corners d a' b' Hd Hba' Hbb').
    apply (are_overlapping_iff_corners d a b Hd Hba Hbb) in Ho.
    intros i Hi. specialize (Ho i Hi).
    destruct (swept_edge_box_corners d _ _ _ _ ei a HV0 HV1 Hrows Hproper
                Hei Ha i Hi) as [Ea0 Ea1].
    destruct (swept_edge_box_corners d _ _ _ _ ej b HV0 HV1 Hrows Hproper
                Hej Hb i Hi) as [Eb0 Eb1].
    destruct (swept_edge_box_corners d _ _ _ _ ei a' HV0 HV1 Hrows Hproper
                Hei Ha' i Hi) as [Ea0' Ea1'].
    destruct (swept_edge_box_corners d _ _ _ _ ej b' HV0 HV1 Hrows Hproper
                Hej Hb' i Hi) as [Eb0' Eb1'].
    rewrite Ea0, Ea1, Eb0, Eb1 in Ho. rewrite Ea0', Ea1', Eb0', Eb1'.
    destruct Ho as [Ho1 Ho2]. split; lra. }
  destruct (edge_edge_query_complete g g1' g2' d vertices_t0 vertices_t1 m
              r' [] found' ei ej a' b' Hg Hc HV0 HV1 Hproper Hmany
              Hadd' Hq' Hei Hej ltac:(lia) Ha' Hb' Ho' He Hs)
    as [H | H]; [exact H | exfalso].
  destruct (edge_edge_found_in_order _ _ _ _ _ Hq' H)
    as (x & y & _ & _ & _ & Hle & _ & E).
  cbn [emplace EdgeEdgeCandidate_type] in E. injection E as E0 E1. lia.
Qed.

Lemma edge_edge_inflation_monotone_witness :
  incl [mkEdgeEdgeCandidate 0 1] [mkEdgeEdgeCandidate 0 1].
Proof.
  eapply (edge_edge_inflation_monotone skew_sized skew_populated
            skew_inflated _ _ 3%nat skew_V skew_V (mkMesh skew_E [] [])
            0%Q (1 # 8)%Q).
  - vm_compute. repeat split; auto.
  - reflexivity.
  - reflexivity.
  - repeat constructor.
  - repeat constructor.
  - cbn [mesh_edges]. repeat constructor.
    + exists 0, 1. vm_compute. repeat split; congruence.
    + exists 2, 3. vm_compute. repeat split; congruence.
  - vm_compute. discriminate.
  - discriminate.
  - reflexivity.
  - reflexivity.
  - vm_compute. reflexivity.
  - vm_compute. reflexivity.
Defined.

(** ** The vertices that [addVerticesFromEdges] adds *)

Section Visits.
Context {St : Type}.
Variable visit : Z -> St -> option St.

Lemma visit_all_app (a b : list Z) (s : St) :
  visit_all visit (a ++ b) s = (s' <- visit_all visit a s ;; visit_all visit b s').
Proof.
  revert s. induction a as [|v a IH]; intros s; cbn; [reflexivity|].
  destruct (visit v s) as [s1|]; cbn [bind]; [apply IH | reflexivity].
Qed.

(** A loop whose body acts through [visit] only does what [visit_all] does
    on the vertices that the same loop records. *)
Lemma for_count_visits (body : Z -> St -> option St)
  (record : Z -> list Z -> option (list Z)) :
  (forall i, exists c,
     (forall s, body i s = visit_all visit c s)
     /\ (forall calls, record i calls = Some (calls ++ c))) ->
  forall n x, exists c,
    (forall s, for_count n x body s = visit_all visit c s)
    /\ (forall calls, for_count n x record calls = Some (calls ++ c)).
Proof.
  intros Hbody. induction n as [|n IH]; intros x.
  - exists []. split; [reflexivity|]. intros calls. cbn.
    now rewrite app_nil_r.
  - destruct (Hbody x) as (c1 & Hb1 & Hr1).
    destruct (IH (x + 1)) as (c2 & Hb2 & Hr2).
    exists (c1 ++ c2). split.
    + intros s. cbn [for_count]. rewrite visit_all_app, Hb1.
      destruct (visit_all visit c1 s); cbn [bind]; [apply Hb2 | reflexivity].
    + intros calls. cbn [for_count]. rewrite Hr1. cbn [bind].
      now rewrite Hr2, app_assoc.
Qed.

Lemma for_each_min_edge_vertex_visits (edges : MatrixXi) (vtme : list Z) :
  exists c,
    (forall s, for_each_min_edge_vertex edges vtme visit s
               = visit_all visit c s)
    /\ for_each_min_edge_vertex edges vtme
         (fun vi calls => Some (calls ++ [vi])) [] = Some c.
Proof.
  unfold for_each_min_edge_vertex, for_upto.
  destruct (for_count_visits
    (fun ei => for_count (Z.to_nat (cols edges)) 0 (fun ej s =>
       let vi := at2 edges ei ej in
       if at1 vtme vi =? ei then visit vi s else Some s))
    (fun ei => for_count (Z.to_nat (cols edges)) 0 (fun ej calls =>
       let vi := at2 edges ei ej in
       if at1 vtme vi =? ei then Some (calls ++ [vi]) else Some calls))
    ) with (n := Z.to_nat (rows edges)) (x := 0) as (c & Hb & Hr).
  - intros ei. apply for_count_visits. intros ej. cbn zeta.
    destruct (at1 vtme (at2 edges ei ej) =? ei).
    + exists [at2 edges ei ej]. split; [|reflexivity].
      intros s. cbn. now destruct (visit (at2 edges ei ej) s).
    + exists []. split; [reflexivity|]. intros calls.
      now rewrite app_nil_r.
  - exists c. split; [exact Hb|]. apply (Hr []).
Qed.
End Visits.

(** X6.  [addVerticesFromEdges] on edges with two distinct endpoints each
    does what [addVertex] does, one call after the other, on a list of
    vertices that holds every vertex some edge refers to exactly once and
    no other vertex; the items are appended to the vertex bucket. *)
Theorem addVerticesFromEdges_once (g : HashGrid)
  (vertices_t0 vertices_t1 : MatrixXd) (edges : MatrixXi)
  (inflation_radius : Q) :
  Forall (proper_edge (rows vertices_t0)) edges ->
  exists calls,
    (forall v, referenced edges v -> count_occ Z.eq_dec calls v = 1%nat)
    /\ (forall v, ~ referenced edges v -> count_occ Z.eq_dec calls v = 0%nat)
    /\ addVerticesFromEdges g vertices_t0 vertices_t1 edges inflation_radius
       = (_ <- precondition (rows vertices_t0 =? rows vertices_t1) ;;
          local_items <-
            visit_all (fun vi local_items =>
                         addVertex_into g (row vertices_t0 vi)
                           (row vertices_t1 vi) vi local_items
                           inflation_radius) calls [] ;;
          Some (set_vertexItems g (m_vertexItems g ++ local_items))).
Proof.
  intros Hproper.
  destruct (addVertex_calls_once vertices_t0 edges Hproper)
    as (calls & Hcalls & Hone & Hnone & _).
  exists calls. split; [exact Hone|]. split; [exact Hnone|].
  unfold addVerticesFromEdges, merge_local_items.
  destruct (for_each_min_edge_vertex_visits
              (fun vi local_items =>
                 addVertex_into g (row vertices_t0 vi) (row vertices_t1 vi)
                   vi local_items inflation_radius)
              edges (vertex_to_min_edge (rows vertices_t0) edges))
    as (c & Hb & Hr).
  unfold addVertex_calls in Hcalls. rewrite Hr in Hcalls.
  injection Hcalls as ->. now rewrite Hb.
Qed.

Lemma addVerticesFromEdges_once_witness :
  exists calls,
    (forall v, referenced fan_E v -> count_occ Z.eq_dec calls v = 1%nat)
    /\ (forall v, ~ referenced fan_E v -> count_occ Z.eq_dec calls v = 0%nat)
    /\ addVerticesFromEdges two_cells_grid fan_V fan_V fan_E 0%Q
       = (_ <- precondition (rows fan_V =? rows fan_V) ;;
          local_items <-
            visit_all (fun vi local_items =>
                         addVertex_into two_cells_grid (row fan_V vi)
                           (row fan_V vi) vi local_items 0%Q) calls [] ;;
          Some (set_vertexItems two_cells_grid
                  (m_vertexItems two_cells_grid ++ local_items))).
Proof.
  apply (addVerticesFromEdges_once two_cells_grid fan_V fan_V fan_E 0%Q).
  repeat constructor.
  - exists 0, 1. vm_compute. repeat split; congruence.
  - exists 0, 2. vm_compute. repeat split; congruence.
Defined.

(** C5 (as amended).  On an edge matrix whose rows each name two distinct
    vertices of the mesh, [addVerticesFromEdges] does what [addVertex]
    does, one call after the other, on a list of vertices that holds every
    vertex some edge refers to exactly once and no other vertex, and
    appends the items to the vertex bucket; the entry
    [vertex_to_min_edge[v]] of a vertex an edge refers to is the least row
    that holds the vertex. *)
Theorem addVerticesFromEdges_exactly_once (g : HashGrid)
  (vertices_t0 vertices_t1 : MatrixXd) (edges : MatrixXi)
  (inflation_radius : Q) :
  Forall (proper_edge (rows vertices_t0)) edges ->
  (exists calls,
     (forall v, referenced edges v -> count_occ Z.eq_dec calls v = 1%nat)
     /\ (forall v, ~ referenced edges v -> count_occ Z.eq_dec calls v = 0%nat)
     /\ addVerticesFromEdges g vertices_t0 vertices_t1 edges inflation_radius
        = (_ <- precondition (rows vertices_t0 =? rows vertices_t1) ;;
           local_items <-
             visit_all (fun vi local_items =>
                          addVertex_into g (row vertices_t0 vi)
                            (row vertices_t1 vi) vi local_items
                            inflation_radius) calls [] ;;
           Some (set_vertexItems g (m_vertexItems g ++ local_items))))
  /\ (forall v, referenced edges v ->
        let min_edge := at1 (vertex_to_min_edge (rows vertices_t0) edges) v in
        0 <= min_edge < rows edges
        /\ (exists ej, 0 <= ej < 2 /\ at2 edges min_edge ej = v)
        /\ (forall ei ej, 0 <= ei < rows edges -> 0 <= ej < 2 ->
              at2 edges ei ej = v -> min_edge <= ei)).
Proof.
  intros Hproper. split.
  - destruct (addVertex_calls_once vertices_t0 edges Hproper)
      as (calls & Hcalls & Hone & Hnone & _).
    exists calls. split; [exact Hone|]. split; [exact Hnone|].
    unfold addVerticesFromEdges, merge_local_items.
    destruct (for_each_min_edge_vertex_visits
                (fun vi local_items =>
                   addVertex_into g (row vertices_t0 vi) (row vertices_t1 vi)
                     vi local_items inflation_radius)
                edges (vertex_to_min_edge (rows vertices_t0) edges))
      as (c & Hb & Hr).
    unfold addVertex_calls in Hcalls. rewrite Hr in Hcalls.
    injection Hcalls as ->. now rewrite Hb.
  - intros v Href.
    apply (referenced_entry edges _ Hproper) in Href.
    destruct Href as (ei & ej & Hei & Hej & E).
    assert (Hne : edges <> []).
    { intros ->. unfold rows in Hei. cbn in Hei. lia. }
    assert (Hv : 0 <= v < rows vertices_t0).
    { rewrite <- E. now apply (edge_entry edges _ Hproper). }
    destruct (vertex_to_min_edge_spec edges _ Hproper v Hne Hv)
      as (Hleast & Hfound).
    cbn zeta. pose proof (Hleast ei ej Hei Hej E) as Hle.
    destruct Hfound as [Hnone | [Hrange Hat]]; [lia|].
    split; [exact Hrange|]. split; [exact Hat | exact Hleast].
Qed.

Lemma addVerticesFromEdges_exactly_once_witness :
  (exists calls,
     (forall v, referenced fan_E v -> count_occ Z.eq_dec calls v = 1%nat)
     /\ (forall v, ~ referenced fan_E v -> count_occ Z.eq_dec calls v = 0%nat)
     /\ addVerticesFromEdges two_cells_grid fan_V fan_V fan_E 0%Q
        = (_ <- precondition (rows fan_V =? rows fan_V) ;;
           local_items <-
             visit_all (fun vi local_items =>
                          addVertex_into two_cells_grid (row fan_V vi)
                            (row fan_V vi) vi local_items 0%Q) calls [] ;;
           Some (set_vertexItems two_cells_grid
                   (m_vertexItems two_cells_grid ++ local_items))))
  /\ (forall v, referenced fan_E v ->
        let min_edge := at1 (vertex_to_min_edge (rows fan_V) fan_E) v in
        0 <= min_edge < rows fan_E
        /\ (exists ej, 0 <= ej < 2 /\ at2 fan_E min_edge ej = v)
        /\ (forall ei ej, 0 <= ei < rows fan_E -> 0 <= ej < 2 ->
              at2 fan_E ei ej = v -> min_edge <= ei)).
Proof.
  apply (addVerticesFromEdges_exactly_once two_cells_grid fan_V fan_V fan_E
           0%Q).
  repeat constructor.
  - exists 0, 1. vm_compute. repeat split; congruence.
  - exists 0, 2. vm_compute. repeat split; congruence.
Defined.

(** ** The gradient of the triangle area *)

(** X25.  Where the triangle is not degenerate, each entry of
    [triangle_area_gradient], multiplied by four times the square root, is
    the partial derivative of the squared cross product of the edge vectors
    in its coordinate (the squared cross product is quadratic in every
    coordinate, so the central difference quotient is its derivative): for
    the true square root the nine entries are the gradient of the area
    [sqrt(cross_squared) / 2]. *)
Theorem triangle_area_gradient_is_gradient (sqrt : Q -> Q) (c : list Q)
  (k : nat) (h : Q) :
  length c = 9%nat -> (k < 9)%nat -> ~ (h == 0)%Q ->
  ~ (sqrt (cross_squared_of c) == 0)%Q ->
  (forall x y, (x == y)%Q -> (sqrt x == sqrt y)%Q) ->
  ((4 # 1) * sqrt (cross_squared_of c) * coeffd (gradient_at sqrt c) k
   == (cross_squared_of (move_coordinate k h c)
       - cross_squared_of (move_coordinate k (- h) c)) / ((2 # 1) * h))%Q.
Proof.
  intros Hlen Hk Hh Hs Hproper.
  do 9 (destruct c as [|? c]; [discriminate|]).
  destruct c; [|discriminate]. clear Hlen.
  unfold gradient_at, triangle_area_gradient, cross_squared_of, triangle_of,
    cross_squared, coeffd in *.
  assert (C : (k = 0 \/ k = 1 \/ k = 2 \/ k = 3 \/ k = 4 \/ k = 5 \/ k = 6
               \/ k = 7 \/ k = 8)%nat) by lia.
  clear Hk.
  repeat (destruct C as [-> | C]); [..|subst k];
    cbn [nth move_coordinate] in *; cbv beta iota zeta in *.
  all: match type of Hs with
       | ~ (?f ?b == 0)%Q =>
           match goal with
           | |- context [f ?a] =>
               assert (E : (a == b)%Q) by ring;
               apply Hproper in E; rewrite E; clear E;
               generalize dependent (f b)
           end
       end.
  all: intros s Hs; field; split; assumption.
Qed.

Lemma sqrt_of_square_proper (x y : Q) :
  (x == y)%Q -> (sqrt_of_square x == sqrt_of_square y)%Q.
Proof.
  intros E. unfold sqrt_of_square. now rewrite (Qred_complete x y E).
Qed.

Lemma triangle_area_gradient_is_gradient_witness :
  ((4 # 1) * sqrt_of_square (cross_squared_of flat_triangle)
   * coeffd (gradient_at sqrt_of_square flat_triangle) 0
   == (cross_squared_of (move_coordinate 0 1 flat_triangle)
       - cross_squared_of (move_coordinate 0 (- (1)) flat_triangle))
      / ((2 # 1) * 1))%Q.
Proof.
  apply (triangle_area_gradient_is_gradient sqrt_of_square flat_triangle
           0%nat 1%Q).
  - reflexivity.
  - lia.
  - intros H. vm_compute in H. discriminate H.
  - intros H. vm_compute in H. discriminate H.
  - exact sqrt_of_square_proper.
Defined.

(** X26.  Where the triangle is not degenerate, the gradients of the area
    at the three corners cancel on every axis: moving the whole triangle
    does not change its area. *)
Theorem triangle_area_gradient_sums_to_zero (sqrt : Q -> Q) (c : list Q)
  (j : nat) :
  length c = 9%nat -> (j < 3)%nat ->
  ~ (sqrt (cross_squared_of c) == 0)%Q ->
  (coeffd (gradient_at sqrt c) j + coeffd (gradient_at sqrt c) (3 + j)
   + coeffd (gradient_at sqrt c) (6 + j) == 0)%Q.
Proof.
  intros Hlen Hj _.
  do 9 (destruct c as [|? c]; [discriminate|]).
  destruct c; [|discriminate]. clear Hlen.
  unfold gradient_at, triangle_area_gradient, coeffd.
  assert (C : (j = 0 \/ j = 1 \/ j = 2)%nat) by lia. clear Hj.
  destruct C as [-> | [-> | ->]]; cbn [nth Nat.add]; cbv beta iota zeta;
    match goal with
    | |- context [(1 / (2 # 1) / ?s)%Q] =>
        generalize (1 / (2 # 1) / s)%Q; intros t14; ring
    end.
Qed.

Lemma triangle_area_gradient_sums_to_zero_witness :
  (coeffd (gradient_at sqrt_of_square flat_triangle) 0
   + coeffd (gradient_at sqrt_of_square flat_triangle) (3 + 0)
   + coeffd (gradient_at sqrt_of_square flat_triangle) (6 + 0) == 0)%Q.
Proof.
  apply (triangle_area_gradient_sums_to_zero sqrt_of_square flat_triangle
           0%nat).
  - reflexivity.
  - lia.
  - intros H. vm_compute in H. discriminate H.
Defined.

(** ** The domain of a mesh *)

Lemma fold_cwiseMin_spec (d : nat) (rest : list (list Q)) :
  forall r : list Q,
  length r = d -> Forall (fun p => length p = d) rest ->
  length (fold_left cwiseMin rest r) = d
  /\ forall i, (i < d)%nat ->
       (coeffd (fold_left cwiseMin rest r) i <= coeffd r i)%Q
       /\ forall p, In p rest ->
            (coeffd (fold_left cwiseMin rest r) i <= coeffd p i)%Q.
Proof.
  induction rest as [|q rest IH]; intros r Hr Hall; cbn [fold_left].
  - split; [exact Hr|]. intros i Hi. split; [lra | intros p []].
  - inversion Hall as [|? ? Hq Hrest]; subst.
    destruct (IH (cwiseMin r q)) as [Hlen Hco];
      [rewrite length_cwiseMin; lia | exact Hrest |].
    split; [exact Hlen|]. intros i Hi. destruct (Hco i Hi) as [H1 H2].
    rewrite coeffd_cwiseMin in H1 by lia.
    pose proof (Q.le_min_l (coeffd r i) (coeffd q i)).
    pose proof (Q.le_min_r (coeffd r i) (coeffd q i)).
    split; [lra|]. intros p [<- | Hp]; [lra | now apply H2].
Qed.

Lemma fold_cwiseMax_spec (d : nat) (rest : list (list Q)) :
  forall r : list Q,
  length r = d -> Forall (fun p => length p = d) rest ->
  length (fold_left cwiseMax rest r) = d
  /\ forall i, (i < d)%nat ->
       (coeffd r i <= coeffd (fold_left cwiseMax rest r) i)%Q
       /\ forall p, In p rest ->
            (coeffd p i <= coeffd (fold_left cwiseMax rest r) i)%Q.
Proof.
  induction rest as [|q rest IH]; intros r Hr Hall; cbn [fold_left].
  - split; [exact Hr|]. intros i Hi. split; [lra | intros p []].
  - inversion Hall as [|? ? Hq Hrest]; subst.
    destruct (IH (cwiseMax r q)) as [Hlen Hco];
      [rewrite length_cwiseMax; lia | exact Hrest |].
    split; [exact Hlen|]. intros i Hi. destruct (Hco i Hi) as [H1 H2].
    rewrite coeffd_cwiseMax in H1 by lia.
    pose proof (Q.le_max_l (coeffd r i) (coeffd q i)).
    pose proof (Q.le_max_r (coeffd r i) (coeffd q i)).
    split; [lra|]. intros p [<- | Hp]; [lra | now apply H2].
Qed.

Lemma colwise_minCoeff_spec (d : nat) (M : MatrixXd) (lo : ArrayMax3d) :
  positions_of_dimension d M -> colwise_minCoeff M = Some lo ->
  length lo = d
  /\ forall p, In p M -> forall i, (i < d)%nat -> (coeffd lo i <= coeffd p i)%Q.
Proof.
  unfold positions_of_dimension. intros HM Hlo.
  destruct M as [|r rest]; [discriminate|]. injection Hlo as <-.
  inversion HM as [|? ? Hr Hrest]; subst.
  destruct (fold_cwiseMin_spec (length r) rest r eq_refl Hrest) as [Hlen Hco].
  split; [exact Hlen|].
  intros p Hp i Hi. destruct (Hco i Hi) as [H1 H2].
  destruct Hp as [<- | Hp]; [exact H1 | now apply H2].
Qed.

Lemma colwise_maxCoeff_spec (d : nat) (M : MatrixXd) (hi : ArrayMax3d) :
  positions_of_dimension d M -> colwise_maxCoeff M = Some hi ->
  length hi = d
  /\ forall p, In p M -> forall i, (i < d)%nat -> (coeffd p i <= coeffd hi i)%Q.
Proof.
  unfold positions_of_dimension. intros HM Hhi.
  destruct M as [|r rest]; [discriminate|]. injection Hhi as <-.
  inversion HM as [|? ? Hr Hrest]; subst.
  destruct (fold_cwiseMax_spec (length r) rest r eq_refl Hrest) as [Hlen Hco].
  split; [exact Hlen|].
  intros p Hp i Hi. destruct (Hco i Hi) as [H1 H2].
  destruct Hp as [<- | Hp]; [exact H1 | now apply H2].
Qed.

Lemma resize_fields (g g' : HashGrid) (min max : ArrayMax3d) (cellSize : Q) :
  resize g min max cellSize = Some g' ->
  m_domainMin g' = min /\ m_domainMax g' = max /\ m_cellSize g' = cellSize.
Proof.
  unfold resize. intros Hr. pre_inv Hr Hnz. injection Hr as <-.
  now repeat split.
Qed.

Lemma resize_mesh_domain (sqrt : Q -> Q) (g g' : HashGrid) (d : nat)
  (vertices_t0 vertices_t1 : MatrixXd) (edges : MatrixXi)
  (inflation_radius : Q) :
  positions_of_dimension d vertices_t0 ->
  positions_of_dimension d vertices_t1 ->
  rows vertices_t0 = rows vertices_t1 -> 0 < rows edges ->
  resize_mesh sqrt g vertices_t0 vertices_t1 edges inflation_radius
  = Some g' ->
  length (m_domainMin g') = d /\ length (m_domainMax g') = d
  /\ resize g (m_domainMin g') (m_domainMax g') (m_cellSize g') = Some g'
  /\ positions_inside d (m_domainMin g') (m_domainMax g') inflation_radius
                      vertices_t0
  /\ positions_inside d (m_domainMin g') (m_domainMax g') inflation_radius
                      vertices_t1.
Proof.
  intros HV0 HV1 _ _ Hr. unfold resize_mesh in Hr.
  bind_inv Hr as ext Hext. destruct ext as [mesh_min mesh_max].
  destruct (resize_fields _ _ _ _ _ Hr) as (Emin & Emax & Ec).
  rewrite Emin, Emax, Ec.
  unfold calculate_mesh_extents in Hext.
  bind_inv Hext as lo0 Hlo0. bind_inv Hext as hi0 Hhi0.
  bind_inv Hext as lo1 Hlo1. bind_inv Hext as hi1 Hhi1.
  injection Hext as <- <-.
  destruct (colwise_minCoeff_spec d _ _ HV0 Hlo0) as [Llo0 Hmin0].
  destruct (colwise_maxCoeff_spec d _ _ HV0 Hhi0) as [Lhi0 Hmax0].
  destruct (colwise_minCoeff_spec d _ _ HV1 Hlo1) as [Llo1 Hmin1].
  destruct (colwise_maxCoeff_spec d _ _ HV1 Hhi1) as [Lhi1 Hmax1].
  split; [unfold sub_scalar; rewrite length_map, length_cwiseMin; lia|].
  split; [unfold add_scalar; rewrite length_map, length_cwiseMax; lia|].
  split; [exact Hr|].
  split; intros p Hp i Hi; coeffd_extents; min_max_bounds.
  - specialize (Hmin0 p Hp i Hi). specialize (Hmax0 p Hp i Hi). split; lra.
  - specialize (Hmin1 p Hp i Hi). specialize (Hmax1 p Hp i Hi). split; lra.
Qed.

(** X23.  Over exact arithmetic, the overload of [resize] that sizes the
    grid from a mesh with at least one edge chooses a domain that contains
    every start and end position of the mesh together with the points
    within the inflation radius of it. *)
Theorem resize_mesh_contains (sqrt : Q -> Q) (g g' : HashGrid) (d : nat)
  (vertices_t0 vertices_t1 : MatrixXd) (edges : MatrixXi)
  (inflation_radius : Q) :
  positions_of_dimension d vertices_t0 ->
  positions_of_dimension d vertices_t1 ->
  rows vertices_t0 = rows vertices_t1 -> 0 < rows edges ->
  resize_mesh sqrt g vertices_t0 vertices_t1 edges inflation_radius
  = Some g' ->
  length (m_domainMin g') = d /\ length (m_domainMax g') = d
  /\ resize g (m_domainMin g') (m_domainMax g') (m_cellSize g') = Some g'
  /\ positions_inside d (m_domainMin g') (m_domainMax g') inflation_radius
                      vertices_t0
  /\ positions_inside d (m_domainMin g') (m_domainMax g') inflation_radius
                      vertices_t1.
Proof.
  intros HV0 HV1 Hrows Hedges Hr.
  exact (resize_mesh_domain sqrt g g' d vertices_t0 vertices_t1 edges
           inflation_radius HV0 HV1 Hrows Hedges Hr).
Qed.

Lemma resize_mesh_contains_witness :
  length (m_domainMin rod_sized) = 2%nat
  /\ length (m_domainMax rod_sized) = 2%nat
  /\ resize empty_grid (m_domainMin rod_sized) (m_domainMax rod_sized)
            (m_cellSize rod_sized) = Some rod_sized
  /\ positions_inside 2 (m_domainMin rod_sized) (m_domainMax rod_sized) 0
                      rod_V
  /\ positions_inside 2 (m_domainMin rod_sized) (m_domainMax rod_sized) 0
                      rod_V.
Proof.
  apply (resize_mesh_contains sqrt_of_square empty_grid rod_sized 2%nat
           rod_V rod_V rod_E 0%Q).
  - repeat constructor.
  - repeat constructor.
  - reflexivity.
  - reflexivity.
  - reflexivity.
Defined.


